(** * WebSocketService: the client's resilient connection manager

    A shallow embedding of [src/frontend/src/services/WebSocketService.ts].

    The service is an object with mutable fields, living in a browser: it
    allocates sockets, promises and timers that the host keeps alive and
    that call back into the service later.  The embedding therefore passes
    one explicit [State] around, holding the fields of the service next to
    the host's stores (sockets, promises, timers, the microtask queue) and
    the observable output (console, emitted events, subscriber
    invocations).  Every method and every socket callback of the source is
    a function on that state; [step] lets the host and the application take
    turns the way the event loop does.

    Two things are taken from the surroundings rather than from the file:
    the inherited emitter, modelled from its description and with
    subscribers that only observe; and the host's objects, which behave as
    the WebSocket, Promise and timer interfaces say.

    The caller of the service, [src/frontend/src/scenes/GameScene.ts], is
    embedded where it meets the service: its subscriptions, its text
    parser and the key handler in front of it. *)

From Stdlib Require Import Ascii String QArith Qpower Qminmax.
From stdpp Require Import gmap strings list fin_maps.

Local Open Scope string_scope.
Local Open Scope list_scope.

(** ** JavaScript values and the runtime's builtins *)

(** What [JSON.parse] can return. A number keeps the lexeme it was read
    from: no claim computes with frame numbers. *)
#[warnings="-register-all"]
Inductive JSValue : Type :=
| JNull
| JBool (b : bool)
| JNumber (lexeme : string)
| JString (s : string)
| JArray (items : list JSValue)
| JObject (fields : list (string * JSValue)).

(** The builtins the service calls and does not define. The development is
    parametric in them; [Reference.runtime] below is one executable
    instance used to run the model on concrete frames. *)
Class Runtime : Type := {
  (** [JSON.parse text]; [None] when it throws a SyntaxError. *)
  JSON_parse : string -> option JSValue;
  (** [JSON.stringify value] on a value that can be serialised. *)
  JSON_stringify : JSValue -> string;
  (** The property key an event name that is not a string is turned into
      by the emitter's table lookup ([None] is [undefined]). *)
  ToPropertyKey : option JSValue -> string
}.

(** [value.name] for a parsed value: [None] is the TypeError of reading a
    property of [null], [Some None] is [undefined]. With a repeated key
    [JSON.parse] keeps the last binding. *)
Fixpoint last_binding (name : string) (fields : list (string * JSValue))
  : option JSValue :=
  match fields with
  | [] => None
  | (k, v) :: rest =>
      match last_binding name rest with
      | Some v' => Some v'
      | None => if String.eqb k name then Some v else None
      end
  end.

Definition get_property (value : JSValue) (name : string)
  : option (option JSValue) :=
  match value with
  | JNull => None
  | JObject fields => Some (last_binding name fields)
  | _ => Some None
  end.

(** ** Data model *)

(** [interface OutgoingCommand]; the argument [payload: any] of
    [sendCommand] is either a value [JSON.stringify] accepts or one it
    throws on (a cyclic object, a BigInt). *)
Inductive Payload : Type :=
| Serializable (v : JSValue)
| Unserializable.

Definition OutgoingCommand (command : string) (payload : JSValue) : JSValue :=
  JObject [("command", JString command); ("payload", payload)].

(** [WebSocket.readyState]. *)
Inductive ReadyState : Type := CONNECTING | OPEN | CLOSING | CLOSED.

Global Instance ReadyState_eq_dec : EqDecision ReadyState.
Proof. solve_decision. Defined.

(** A socket object of the host. [wired] says that [setupEventListeners]
    installed the four callbacks on it; [closeCalls] and [sentFrames]
    record what the service asked of it. *)
Record Socket : Type := {
  readyState : ReadyState;
  wired : bool;
  closeCalls : list (Z * string);
  sentFrames : list string
}.

(** The reasons the service rejects its connection promise with. *)
Inductive Reason : Type :=
| ConstructorError
| ErrorDuringAttempt
| ClosedWithCode (code : Z).

Inductive PromiseState : Type :=
| Pending
| Fulfilled
| Rejected (why : Reason).

(** What an event carries to its subscribers. *)
Inductive EventArg : Type :=
| NoArg
| Undefined
| Value (v : JSValue)
| TransportError (socket : nat)
| ErrorMessage (message : string).

(** One registration [on(type, callback, context)]; callbacks and contexts
    are opaque to the service and are named by numbers. *)
Record Listener : Type := {
  l_type : string;
  l_fn : nat;
  l_ctx : nat
}.

Global Instance Listener_eq_dec : EqDecision Listener.
Proof. solve_decision. Defined.

(** An [emit] call, with the socket handle the service held when it made
    it. *)
Record Emission : Type := {
  em_event : string;
  em_arg : EventArg;
  em_handle : option nat
}.

(** A subscriber being called, with what [isConnected()] would answer
    inside it. *)
Record Invocation : Type := {
  inv_event : string;
  inv_fn : nat;
  inv_ctx : nat;
  inv_arg : EventArg;
  inv_isConnected : bool
}.

(** The console, one constructor per logging statement of the source. *)
Inductive LogEntry : Type :=
| Log_already_connected
| Log_attempting (attempt : nat)
| Err_constructor_failed
| Log_established
| Log_received (message : JSValue)
| Err_parse_failed (data : string)
| Err_transport (socket : nat)
| Warn_closed (code : Z)
| Err_max_attempts
| Log_scheduling (attempt : nat) (delay : Q)
| Log_waiting
| Log_triggering
| Log_ready
| Err_connect_failed
| Log_sending (command : string)
| Err_send_failed
| Err_cannot_send
| Log_disconnecting (reason : string).

(** An [async sendCommand] call suspended at its [await]. *)
Record Continuation : Type := {
  k_command : string;
  k_payload : Payload
}.

#[projections(primitive)]
Record State : Type := {
  (* fields of WebSocketService *)
  ws : option nat;
  connectionPromise : option nat;
  resolveConnectionPromise : option nat;
  rejectConnectionPromise : option nat;
  reconnectAttempts : nat;
  reconnectTimeoutId : option positive;
  (* the registry of the inherited EventEmitter *)
  listeners : list Listener;
  (* the host: socket and promise objects by identity, pending timers with
     their delay (all of them run the callback of scheduleReconnect),
     promise reactions and the microtask queue *)
  sockets : list Socket;
  promises : list PromiseState;
  timers : gmap positive Q;
  nextTimer : positive;
  reactions : list (nat * Continuation);
  jobs : list (Continuation * bool);
  (* what the outside observes *)
  console : list LogEntry;
  emitted : list Emission;
  invoked : list Invocation
}.

(** The two private fields the source initialises and never assigns
    again. *)
Definition maxReconnectAttempts : nat := 5.
Definition reconnectDelay : Q := 3000.

(** Assignments to one field. *)

Definition set_ws (v : option nat) (st : State) : State :=
  {| ws := v; connectionPromise := connectionPromise st;
     resolveConnectionPromise := resolveConnectionPromise st;
     rejectConnectionPromise := rejectConnectionPromise st; reconnectAttempts
     := reconnectAttempts st; reconnectTimeoutId := reconnectTimeoutId st;
     listeners := listeners st; sockets := sockets st; promises := promises st;
     timers := timers st; nextTimer := nextTimer st; reactions := reactions st;
     jobs := jobs st; console := console st; emitted := emitted st; invoked :=
     invoked st |}.

Definition set_connectionPromise (v : option nat) (st : State) : State :=
  {| ws := ws st; connectionPromise := v; resolveConnectionPromise :=
     resolveConnectionPromise st; rejectConnectionPromise :=
     rejectConnectionPromise st; reconnectAttempts := reconnectAttempts st;
     reconnectTimeoutId := reconnectTimeoutId st; listeners := listeners st;
     sockets := sockets st; promises := promises st; timers := timers st;
     nextTimer := nextTimer st; reactions := reactions st; jobs := jobs st;
     console := console st; emitted := emitted st; invoked := invoked st |}.

Definition set_resolveConnectionPromise (v : option nat) (st : State) : State :=
  {| ws := ws st; connectionPromise := connectionPromise st;
     resolveConnectionPromise := v; rejectConnectionPromise :=
     rejectConnectionPromise st; reconnectAttempts := reconnectAttempts st;
     reconnectTimeoutId := reconnectTimeoutId st; listeners := listeners st;
     sockets := sockets st; promises := promises st; timers := timers st;
     nextTimer := nextTimer st; reactions := reactions st; jobs := jobs st;
     console := console st; emitted := emitted st; invoked := invoked st |}.

Definition set_rejectConnectionPromise (v : option nat) (st : State) : State :=
  {| ws := ws st; connectionPromise := connectionPromise st;
     resolveConnectionPromise := resolveConnectionPromise st;
     rejectConnectionPromise := v; reconnectAttempts := reconnectAttempts st;
     reconnectTimeoutId := reconnectTimeoutId st; listeners := listeners st;
     sockets := sockets st; promises := promises st; timers := timers st;
     nextTimer := nextTimer st; reactions := reactions st; jobs := jobs st;
     console := console st; emitted := emitted st; invoked := invoked st |}.

Definition set_reconnectAttempts (v : nat) (st : State) : State :=
  {| ws := ws st; connectionPromise := connectionPromise st;
     resolveConnectionPromise := resolveConnectionPromise st;
     rejectConnectionPromise := rejectConnectionPromise st; reconnectAttempts
     := v; reconnectTimeoutId := reconnectTimeoutId st; listeners := listeners
     st; sockets := sockets st; promises := promises st; timers := timers st;
     nextTimer := nextTimer st; reactions := reactions st; jobs := jobs st;
     console := console st; emitted := emitted st; invoked := invoked st |}.

Definition set_reconnectTimeoutId (v : option positive) (st : State) : State :=
  {| ws := ws st; connectionPromise := connectionPromise st;
     resolveConnectionPromise := resolveConnectionPromise st;
     rejectConnectionPromise := rejectConnectionPromise st; reconnectAttempts
     := reconnectAttempts st; reconnectTimeoutId := v; listeners := listeners
     st; sockets := sockets st; promises := promises st; timers := timers st;
     nextTimer := nextTimer st; reactions := reactions st; jobs := jobs st;
     console := console st; emitted := emitted st; invoked := invoked st |}.

Definition set_listeners (v : list Listener) (st : State) : State :=
  {| ws := ws st; connectionPromise := connectionPromise st;
     resolveConnectionPromise := resolveConnectionPromise st;
     rejectConnectionPromise := rejectConnectionPromise st; reconnectAttempts
     := reconnectAttempts st; reconnectTimeoutId := reconnectTimeoutId st;
     listeners := v; sockets := sockets st; promises := promises st; timers :=
     timers st; nextTimer := nextTimer st; reactions := reactions st; jobs :=
     jobs st; console := console st; emitted := emitted st; invoked := invoked
     st |}.

Definition set_sockets (v : list Socket) (st : State) : State :=
  {| ws := ws st; connectionPromise := connectionPromise st;
     resolveConnectionPromise := resolveConnectionPromise st;
     rejectConnectionPromise := rejectConnectionPromise st; reconnectAttempts
     := reconnectAttempts st; reconnectTimeoutId := reconnectTimeoutId st;
     listeners := listeners st; sockets := v; promises := promises st; timers
     := timers st; nextTimer := nextTimer st; reactions := reactions st; jobs
     := jobs st; console := console st; emitted := emitted st; invoked :=
     invoked st |}.

Definition set_promises (v : list PromiseState) (st : State) : State :=
  {| ws := ws st; connectionPromise := connectionPromise st;
     resolveConnectionPromise := resolveConnectionPromise st;
     rejectConnectionPromise := rejectConnectionPromise st; reconnectAttempts
     := reconnectAttempts st; reconnectTimeoutId := reconnectTimeoutId st;
     listeners := listeners st; sockets := sockets st; promises := v; timers :=
     timers st; nextTimer := nextTimer st; reactions := reactions st; jobs :=
     jobs st; console := console st; emitted := emitted st; invoked := invoked
     st |}.

Definition set_timers (v : gmap positive Q) (st : State) : State :=
  {| ws := ws st; connectionPromise := connectionPromise st;
     resolveConnectionPromise := resolveConnectionPromise st;
     rejectConnectionPromise := rejectConnectionPromise st; reconnectAttempts
     := reconnectAttempts st; reconnectTimeoutId := reconnectTimeoutId st;
     listeners := listeners st; sockets := sockets st; promises := promises st;
     timers := v; nextTimer := nextTimer st; reactions := reactions st; jobs :=
     jobs st; console := console st; emitted := emitted st; invoked := invoked
     st |}.

Definition set_nextTimer (v : positive) (st : State) : State :=
  {| ws := ws st; connectionPromise := connectionPromise st;
     resolveConnectionPromise := resolveConnectionPromise st;
     rejectConnectionPromise := rejectConnectionPromise st; reconnectAttempts
     := reconnectAttempts st; reconnectTimeoutId := reconnectTimeoutId st;
     listeners := listeners st; sockets := sockets st; promises := promises st;
     timers := timers st; nextTimer := v; reactions := reactions st; jobs :=
     jobs st; console := console st; emitted := emitted st; invoked := invoked
     st |}.

Definition set_reactions (v : list (nat * Continuation)) (st : State) : State :=
  {| ws := ws st; connectionPromise := connectionPromise st;
     resolveConnectionPromise := resolveConnectionPromise st;
     rejectConnectionPromise := rejectConnectionPromise st; reconnectAttempts
     := reconnectAttempts st; reconnectTimeoutId := reconnectTimeoutId st;
     listeners := listeners st; sockets := sockets st; promises := promises st;
     timers := timers st; nextTimer := nextTimer st; reactions := v; jobs :=
     jobs st; console := console st; emitted := emitted st; invoked := invoked
     st |}.

Definition set_jobs (v : list (Continuation * bool)) (st : State) : State :=
  {| ws := ws st; connectionPromise := connectionPromise st;
     resolveConnectionPromise := resolveConnectionPromise st;
     rejectConnectionPromise := rejectConnectionPromise st; reconnectAttempts
     := reconnectAttempts st; reconnectTimeoutId := reconnectTimeoutId st;
     listeners := listeners st; sockets := sockets st; promises := promises st;
     timers := timers st; nextTimer := nextTimer st; reactions := reactions st;
     jobs := v; console := console st; emitted := emitted st; invoked :=
     invoked st |}.

Definition set_console (v : list LogEntry) (st : State) : State :=
  {| ws := ws st; connectionPromise := connectionPromise st;
     resolveConnectionPromise := resolveConnectionPromise st;
     rejectConnectionPromise := rejectConnectionPromise st; reconnectAttempts
     := reconnectAttempts st; reconnectTimeoutId := reconnectTimeoutId st;
     listeners := listeners st; sockets := sockets st; promises := promises st;
     timers := timers st; nextTimer := nextTimer st; reactions := reactions st;
     jobs := jobs st; console := v; emitted := emitted st; invoked := invoked
     st |}.

Definition set_emitted (v : list Emission) (st : State) : State :=
  {| ws := ws st; connectionPromise := connectionPromise st;
     resolveConnectionPromise := resolveConnectionPromise st;
     rejectConnectionPromise := rejectConnectionPromise st; reconnectAttempts
     := reconnectAttempts st; reconnectTimeoutId := reconnectTimeoutId st;
     listeners := listeners st; sockets := sockets st; promises := promises st;
     timers := timers st; nextTimer := nextTimer st; reactions := reactions st;
     jobs := jobs st; console := console st; emitted := v; invoked := invoked
     st |}.

Definition set_invoked (v : list Invocation) (st : State) : State :=
  {| ws := ws st; connectionPromise := connectionPromise st;
     resolveConnectionPromise := resolveConnectionPromise st;
     rejectConnectionPromise := rejectConnectionPromise st; reconnectAttempts
     := reconnectAttempts st; reconnectTimeoutId := reconnectTimeoutId st;
     listeners := listeners st; sockets := sockets st; promises := promises st;
     timers := timers st; nextTimer := nextTimer st; reactions := reactions st;
     jobs := jobs st; console := console st; emitted := emitted st; invoked :=
     v |}.

Definition initial : State :=
  {| ws := None; connectionPromise := None; resolveConnectionPromise := None;
     rejectConnectionPromise := None; reconnectAttempts := 0;
     reconnectTimeoutId := None; listeners := []; sockets := [];
     promises := []; timers := ∅; nextTimer := 1%positive; reactions := [];
     jobs := []; console := []; emitted := []; invoked := [] |}.

(** ** The host's objects *)

Definition log (entry : LogEntry) (st : State) : State :=
  set_console (console st ++ [entry]) st.

(** [new WebSocket(url)], when the constructor does not throw. *)
Definition fresh_socket : Socket :=
  {| readyState := CONNECTING; wired := false; closeCalls := [];
     sentFrames := [] |}.

Definition wire (sk : Socket) : Socket :=
  {| readyState := readyState sk; wired := true; closeCalls := closeCalls sk;
     sentFrames := sentFrames sk |}.

Definition set_readyState (r : ReadyState) (sk : Socket) : Socket :=
  {| readyState := r; wired := wired sk; closeCalls := closeCalls sk;
     sentFrames := sentFrames sk |}.

(** [socket.close(code, reason)] throws a SyntaxError when the reason is
    longer than 123 bytes. Otherwise a socket that is connecting or open
    starts closing, and one that is closing or closed stays as it is. *)
Definition close_accepts (reason : string) : bool :=
  (String.length reason <=? 123)%nat.

Definition socket_close (code : Z) (reason : string) (sk : Socket) : Socket :=
  {| readyState := match readyState sk with
                   | CONNECTING | OPEN => CLOSING
                   | r => r
                   end;
     wired := wired sk;
     closeCalls := closeCalls sk ++ [(code, reason)];
     sentFrames := sentFrames sk |}.

(** [socket.send(text)]: an InvalidStateError ([None]) while connecting,
    transmitted while open, dropped once closing or closed. *)
Definition socket_send (text : string) (sk : Socket) : option Socket :=
  match readyState sk with
  | CONNECTING => None
  | OPEN => Some {| readyState := OPEN; wired := wired sk;
                    closeCalls := closeCalls sk;
                    sentFrames := sentFrames sk ++ [text] |}
  | _ => Some sk
  end.

Definition state_of (st : State) (s : nat) : option ReadyState :=
  match sockets st !! s with
  | Some sk => Some (readyState sk)
  | None => None
  end.

(** [new Promise(...)]: the executor only stores the two functions, so the
    promise is named by its index. *)
Definition new_promise (st : State) : nat * State :=
  (length (promises st), set_promises (promises st ++ [Pending]) st).

Definition is_fulfilled (o : PromiseState) : bool :=
  match o with Fulfilled => true | _ => false end.

(** Calling the resolve or reject function of promise [p]: the first call
    settles it and queues the reactions registered on it, in order; later
    calls do nothing. *)
Definition settle (p : nat) (outcome : PromiseState) (st : State) : State :=
  match promises st !! p with
  | Some Pending =>
      let woken := filter (λ r, r.1 = p) (reactions st) in
      let asleep := filter (λ r, r.1 ≠ p) (reactions st) in
      set_jobs (jobs st ++ map (λ r, (r.2, is_fulfilled outcome)) woken)
        (set_reactions asleep
           (set_promises (<[p := outcome]> (promises st)) st))
  | _ => st
  end.

(** [await gate] in [sendCommand]: the rest of the call becomes a reaction
    of the promise, queued at once when the promise is already settled or
    when there is none ([await null]). The last case, a promise the host
    does not know, never arises. *)
Definition await (gate : option nat) (k : Continuation) (st : State) : State :=
  match gate with
  | None => set_jobs (jobs st ++ [(k, true)]) st
  | Some p =>
      match promises st !! p with
      | Some Pending => set_reactions (reactions st ++ [(p, k)]) st
      | Some Fulfilled => set_jobs (jobs st ++ [(k, true)]) st
      | Some (Rejected _) => set_jobs (jobs st ++ [(k, false)]) st
      | None => st
      end
  end.

Definition setTimeout (delay : Q) (st : State) : positive * State :=
  (nextTimer st,
   set_nextTimer (Pos.succ (nextTimer st))
     (set_timers (<[nextTimer st := delay]> (timers st)) st)).

Definition clearTimeout (id : positive) (st : State) : State :=
  set_timers (delete id (timers st)) st.

(** ** The inherited EventEmitter *)

Definition listeners_for (type : string) (registry : list Listener)
  : list Listener :=
  filter (λ l, l_type l = type) registry.

(** Modelled from the spec: the emitter is Phaser's, which is not part of
    the repository. [on] registers a (callback, context) pair under a type,
    keeping the registry an ordered set; insertion order is delivery
    order. *)
Definition on (type : string) (fn ctx : nat) (st : State) : State :=
  let l := {| l_type := type; l_fn := fn; l_ctx := ctx |} in
  if bool_decide (l ∈ listeners st) then st
  else set_listeners (listeners st ++ [l]) st.

(** Modelled from the spec: [off] removes the exact matching registration;
    removing one that does not exist changes nothing. *)
Definition off (type : string) (fn ctx : nat) (st : State) : State :=
  let l := {| l_type := type; l_fn := fn; l_ctx := ctx |} in
  set_listeners (filter (λ l', l' ≠ l) (listeners st)) st.

(** [isConnected()]. *)
Definition isConnected (st : State) : bool :=
  match ws st with
  | Some s => bool_decide (state_of st s = Some OPEN)
  | None => false
  end.

(** Modelled from the spec: [emit(type, payload)] calls every callback
    registered for the type, in registration order, synchronously; a
    subscriber that throws does not stop the delivery, so [emit] always
    returns. Subscribers are observers: the ones of this repository update
    the scene and do not call back into the service. *)
Definition emit (type : string) (arg : EventArg) (st : State) : State :=
  let call l := {| inv_event := type; inv_fn := l_fn l; inv_ctx := l_ctx l;
                   inv_arg := arg; inv_isConnected := isConnected st |} in
  set_invoked (invoked st ++ map call (listeners_for type (listeners st)))
    (set_emitted
       (emitted st ++ [{| em_event := type; em_arg := arg;
                          em_handle := ws st |}]) st).

(** ** The methods and callbacks of WebSocketService *)

(** [Math.min(this.reconnectDelay * Math.pow(1.5, attempts - 1), 30000)].
    Rational arithmetic is exact where the doubles of the source are: the
    products below the cap are multiples of 2^-k for a small k, and above
    it [Math.min] returns the cap. *)
Definition delay (attempts : nat) : Q :=
  Qmin (reconnectDelay * Qpower 1.5 (Z.of_nat attempts - 1)) 30000.

Definition scheduleReconnect (st : State) : State :=
  if (maxReconnectAttempts <=? reconnectAttempts st)%nat then
    log Err_max_attempts st
  else
    match reconnectTimeoutId st with
    | Some _ => st
    | None =>
        let st := set_reconnectAttempts (S (reconnectAttempts st)) st in
        let d := delay (reconnectAttempts st) in
        let st := log (Log_scheduling (reconnectAttempts st) d) st in
        let '(id, st) := setTimeout d st in
        set_reconnectTimeoutId (Some id) st
    end.

Definition setupEventListeners (st : State) : State :=
  match ws st with
  | None => st
  | Some s => set_sockets (alter wire s (sockets st)) st
  end.

(** [connect()]; [ctor_ok] is the host's answer to [new WebSocket(url)]:
    [false] when the constructor throws. The result is the promise
    returned. *)
Definition connect (ctor_ok : bool) (st : State) : nat * State :=
  let st := match reconnectTimeoutId st with
            | Some id => set_reconnectTimeoutId None (clearTimeout id st)
            | None => st
            end in
  let busy := match ws st with
              | Some s => bool_decide (state_of st s = Some OPEN)
                          || bool_decide (state_of st s = Some CONNECTING)
              | None => false
              end in
  if busy then
    let st := log Log_already_connected st in
    match connectionPromise st with
    | Some p => (p, st)
    | None => (length (promises st), set_promises (promises st ++ [Fulfilled]) st)
    end
  else
    let st := log (Log_attempting (reconnectAttempts st + 1)) st in
    let '(p, st) := new_promise st in
    let st := set_connectionPromise (Some p) st in
    let st := set_resolveConnectionPromise (Some p) st in
    let st := set_rejectConnectionPromise (Some p) st in
    let st :=
      if ctor_ok then
        let s := length (sockets st) in
        let st := set_sockets (sockets st ++ [fresh_socket]) st in
        let st := set_ws (Some s) st in
        setupEventListeners st
      else
        let st := log Err_constructor_failed st in
        let st := emit "disconnected" NoArg st in
        let st := match rejectConnectionPromise st with
                  | Some r => settle r (Rejected ConstructorError) st
                  | None => st
                  end in
        scheduleReconnect st in
    (p, st).

Definition onopen (st : State) : State :=
  let st := log Log_established st in
  let st := set_reconnectAttempts 0 st in
  let st := emit "connected" NoArg st in
  let st := match resolveConnectionPromise st with
            | Some p => settle p Fulfilled st
            | None => st
            end in
  let st := set_resolveConnectionPromise None st in
  set_rejectConnectionPromise None st.

Definition onerror (socket : nat) (st : State) : State :=
  let st := log (Err_transport socket) st in
  let st := emit "error" (TransportError socket) st in
  match rejectConnectionPromise st with
  | Some p =>
      let st := settle p (Rejected ErrorDuringAttempt) st in
      let st := set_resolveConnectionPromise None st in
      set_rejectConnectionPromise None st
  | None => st
  end.

Definition onclose (code : Z) (st : State) : State :=
  let st := log (Warn_closed code) st in
  let st := set_ws None st in
  let st := emit "disconnected" NoArg st in
  let st := match rejectConnectionPromise st with
            | Some p =>
                let st := settle p (Rejected (ClosedWithCode code)) st in
                let st := set_resolveConnectionPromise None st in
                set_rejectConnectionPromise None st
            | None => st
            end in
  if bool_decide (code ≠ 1000%Z) then scheduleReconnect st else st.

(** What [disconnect] leaves behind, and whether it returned or threw. *)
Inductive Completion : Type :=
| Returns (st : State)
| Throws (st : State).

Definition final (c : Completion) : State :=
  match c with Returns st | Throws st => st end.

Definition disconnect (reason : string) (st : State) : Completion :=
  let st := match reconnectTimeoutId st with
            | Some id => set_reconnectTimeoutId None (clearTimeout id st)
            | None => st
            end in
  let st := set_reconnectAttempts maxReconnectAttempts st in
  match ws st with
  | Some s =>
      let st := log (Log_disconnecting reason) st in
      if close_accepts reason then
        let st := set_sockets (alter (socket_close 1000 reason) s (sockets st))
                    st in
        let st := set_ws None st in
        Returns (emit "disconnected" NoArg st)
      else Throws st
  | None => Returns (emit "disconnected" NoArg st)
  end.

Section WithRuntime.

Context `{rt : Runtime}.

(** The event name [emit] looks up for [message.type]. *)
Definition event_key (type : option JSValue) : string :=
  match type with
  | Some (JString name) => name
  | other => ToPropertyKey other
  end.

Definition arg_of (payload : option JSValue) : EventArg :=
  match payload with
  | Some v => Value v
  | None => Undefined
  end.

(** The [onmessage] callback; [data] is [event.data]. Reading
    [message.type] of [null] throws inside the [try], after the generic
    event went out. *)
Definition onmessage (data : string) (st : State) : State :=
  match JSON_parse data with
  | None => log (Err_parse_failed data) st
  | Some message =>
      let st := log (Log_received message) st in
      let st := emit "message" (Value message) st in
      match get_property message "type", get_property message "payload" with
      | Some type, Some payload => emit (event_key type) (arg_of payload) st
      | _, _ => log (Err_parse_failed data) st
      end
  end.

(** The second half of [sendCommand], from the double check on. *)
Definition transmit (command : string) (payload : Payload) (st : State)
  : State :=
  if isConnected st then
    let st := log (Log_sending command) st in
    let failed st :=
      emit "error" (ErrorMessage "Failed to send command via WebSocket.")
        (log Err_send_failed st) in
    match ws st with
    | Some s =>
        match payload, sockets st !! s with
        | Serializable v, Some sk =>
            match socket_send (JSON_stringify (OutgoingCommand command v)) sk with
            | Some sk' => set_sockets (<[s := sk']> (sockets st)) st
            | None => failed st
            end
        | _, _ => failed st
        end
    | None => st
    end
  else
    emit "error"
      (ErrorMessage "Cannot send command, WebSocket is not connected.")
      (log Err_cannot_send st).

(** [sendCommand] up to its [await], or to its end when the connection is
    open. *)
Definition sendCommand (ctor_ok : bool) (command : string) (payload : Payload)
    (st : State) : State :=
  if negb (isConnected st) then
    let st := log Log_waiting st in
    let closed := match ws st with
                  | Some s => bool_decide (state_of st s = Some CLOSED)
                  | None => false
                  end in
    let st := match connectionPromise st with
              | Some _ =>
                  if closed then (connect ctor_ok (log Log_triggering st)).2
                  else st
              | None => (connect ctor_ok (log Log_triggering st)).2
              end in
    await (connectionPromise st)
      {| k_command := command; k_payload := payload |} st
  else transmit command payload st.

(** [sendCommand] after its [await]: [ok] is whether the promise was
    fulfilled. *)
Definition resume (job : Continuation * bool) (st : State) : State :=
  let '(k, ok) := job in
  if ok then transmit (k_command k) (k_payload k) (log Log_ready st)
  else
    emit "error"
      (ErrorMessage "Failed to connect to server to send command.")
      (log Err_connect_failed st).

(** A microtask checkpoint: the queued continuations run in order. None of
    them queues another. *)
Definition drain (st : State) : State :=
  foldl (λ st job, resume job st) (set_jobs [] st) (jobs st).

(** ** The event loop *)

Inductive Label : Type :=
| Call_connect (ctor_ok : bool)
| Call_disconnect (reason : string)
| Call_sendCommand (ctor_ok : bool) (command : string) (payload : Payload)
| Call_on (type : string) (fn ctx : nat)
| Call_off (type : string) (fn ctx : nat)
| Tick
| Socket_opens (s : nat)
| Socket_message (s : nat) (data : string)
| Socket_closing (s : nat)
| Socket_closes (s : nat) (failed : bool) (code : Z)
| Timer_fires (id : positive) (ctor_ok : bool).

Definition set_socket_state (s : nat) (r : ReadyState) (st : State) : State :=
  set_sockets (alter (set_readyState r) s (sockets st)) st.

(** One turn. The application's calls run inside a task and are not
    followed by a checkpoint of their own ([Tick] is one). A task of the
    host starts with an empty microtask queue and is followed by a
    checkpoint after each callback; it is enabled by the socket's state:
    a socket opens once, from CONNECTING; delivers messages while OPEN;
    and is closed in one task that sets CLOSED, fires [error] when the
    connection failed, and fires [close]. A pending timer fires once: the
    host forgets it and runs the callback [scheduleReconnect] gave it,
    which clears the handle and calls [connect]. [None] is a turn the
    host cannot take. *)
Definition step (l : Label) (st : State) : option State :=
  match l with
  | Call_connect ok => Some (connect ok st).2
  | Call_disconnect reason => Some (final (disconnect reason st))
  | Call_sendCommand ok command payload =>
      Some (sendCommand ok command payload st)
  | Call_on type fn ctx => Some (on type fn ctx st)
  | Call_off type fn ctx => Some (off type fn ctx st)
  | Tick => Some (drain st)
  | Socket_opens s =>
      match sockets st !! s with
      | Some {| readyState := CONNECTING; wired := true |} =>
          Some (drain (onopen (set_socket_state s OPEN (drain st))))
      | _ => None
      end
  | Socket_message s data =>
      match sockets st !! s with
      | Some {| readyState := OPEN; wired := true |} =>
          Some (drain (onmessage data (drain st)))
      | _ => None
      end
  | Socket_closing s =>
      match sockets st !! s with
      | Some {| readyState := OPEN |} =>
          Some (set_socket_state s CLOSING (drain st))
      | _ => None
      end
  | Socket_closes s failed code =>
      match sockets st !! s with
      | Some {| readyState := CLOSED |} => None
      | Some {| wired := true |} =>
          let st := set_socket_state s CLOSED (drain st) in
          let st := if failed then drain (onerror s st) else st in
          Some (drain (onclose code st))
      | _ => None
      end
  | Timer_fires id ok =>
      match timers st !! id with
      | Some _ =>
          let st := clearTimeout id (drain st) in
          let st := set_reconnectTimeoutId None st in
          Some (drain (connect ok st).2)
      | None => None
      end
  end.

Fixpoint run (trace : list Label) (st : State) : option State :=
  match trace with
  | [] => Some st
  | l :: rest =>
      match step l st with
      | Some st' => run rest st'
      | None => None
      end
  end.

Inductive reachable : State -> Prop :=
| reachable_initial : reachable initial
| reachable_step l st st' :
    reachable st -> step l st = Some st' -> reachable st'.

End WithRuntime.

(** ** A runtime to run the model with

    An executable reading of the three builtins, enough for the frames of
    the protocol: the JSON grammar with the escapes of the Basic
    Multilingual Plane, numbers kept as lexemes. Nothing below depends on
    it except the examples, which evaluate the model on concrete frames. *)
Module Reference.

Definition quote : ascii := ascii_of_nat 34.
Definition backslash : ascii := ascii_of_nat 92.

Definition is_space (c : ascii) : bool :=
  let n := nat_of_ascii c in
  (n =? 32)%nat || (n =? 9)%nat || (n =? 10)%nat || (n =? 13)%nat.

Definition is_digit (c : ascii) : bool :=
  let n := nat_of_ascii c in (48 <=? n)%nat && (n <=? 57)%nat.

Fixpoint skip (s : string) : string :=
  match s with
  | String c rest => if is_space c then skip rest else s
  | EmptyString => s
  end.

Definition hex (c : ascii) : option nat :=
  let n := nat_of_ascii c in
  if (48 <=? n)%nat && (n <=? 57)%nat then Some (n - 48)
  else if (65 <=? n)%nat && (n <=? 70)%nat then Some (n - 55)
  else if (97 <=? n)%nat && (n <=? 102)%nat then Some (n - 87)
  else None.

(** UTF-8 of a code point below 2^16. *)
Definition utf8 (n : nat) : string :=
  if (n <? 128)%nat then String (ascii_of_nat n) ""
  else if (n <? 2048)%nat then
    String (ascii_of_nat (192 + n / 64))
      (String (ascii_of_nat (128 + n mod 64)) "")
  else
    String (ascii_of_nat (224 + n / 4096))
      (String (ascii_of_nat (128 + (n / 64) mod 64))
         (String (ascii_of_nat (128 + n mod 64)) "")).

Definition escape (c : ascii) : option ascii :=
  let n := nat_of_ascii c in
  if (n =? 34)%nat || (n =? 92)%nat || (n =? 47)%nat then Some c
  else if (n =? 98)%nat then Some (ascii_of_nat 8)
  else if (n =? 102)%nat then Some (ascii_of_nat 12)
  else if (n =? 110)%nat then Some (ascii_of_nat 10)
  else if (n =? 114)%nat then Some (ascii_of_nat 13)
  else if (n =? 116)%nat then Some (ascii_of_nat 9)
  else None.

(** The characters of a string literal after its opening quote, and what
    follows the closing one. *)
Fixpoint read_string (s : string) : option (string * string) :=
  match s with
  | EmptyString => None
  | String c rest =>
      if Ascii.eqb c quote then Some ("", rest)
      else if Ascii.eqb c backslash then
        match rest with
        | String e rest' =>
            match escape e with
            | Some d =>
                match read_string rest' with
                | Some (text, after) => Some (String d text, after)
                | None => None
                end
            | None =>
                match rest' with
                | String h1 (String h2 (String h3 (String h4 rest''))) =>
                    match hex h1, hex h2, hex h3, hex h4 with
                    | Some a, Some b, Some c', Some d =>
                        if (nat_of_ascii e =? 117)%nat then
                          match read_string rest'' with
                          | Some (text, after) =>
                              Some (utf8 (a * 4096 + b * 256 + c' * 16 + d)
                                    +:+ text, after)
                          | None => None
                          end
                        else None
                    | _, _, _, _ => None
                    end
                | _ => None
                end
            end
        | EmptyString => None
        end
      else if (nat_of_ascii c <? 32)%nat then None
      else
        match read_string rest with
        | Some (text, after) => Some (String c text, after)
        | None => None
        end
  end.

Fixpoint digits (s : string) : string * string :=
  match s with
  | String c rest =>
      if is_digit c then let '(ds, after) := digits rest in (String c ds, after)
      else ("", s)
  | EmptyString => ("", s)
  end.

Definition starts (c : ascii) (s : string) : option string :=
  match s with
  | String c' rest => if Ascii.eqb c c' then Some rest else None
  | EmptyString => None
  end.

(** A number lexeme: an optional minus, an integer part without a leading
    zero, an optional fraction and an optional exponent. *)
Definition read_number (s : string) : option (string * string) :=
  let '(sign, s) := match starts "-" s with
                    | Some rest => ("-", rest)
                    | None => ("", s)
                    end in
  let '(int, s) := digits s in
  let int_ok := match int with
                | EmptyString => false
                | String c EmptyString => true
                | String c _ => negb (Ascii.eqb c "0")
                end in
  if negb int_ok then None
  else
    let frac := match starts "." s with
                | Some rest =>
                    match digits rest with
                    | (EmptyString, _) => None
                    | (ds, after) => Some ("." +:+ ds, after)
                    end
                | None => Some ("", s)
                end in
    match frac with
    | None => None
    | Some (frac, s) =>
        let mark := match s with
                    | String c rest =>
                        if Ascii.eqb c "e" || Ascii.eqb c "E"
                        then Some (c, rest) else None
                    | EmptyString => None
                    end in
        match mark with
        | None => Some (sign +:+ int +:+ frac, s)
        | Some (e, rest) =>
            let '(esign, rest) :=
              match rest with
              | String c r =>
                  if Ascii.eqb c "+" || Ascii.eqb c "-"
                  then (String c "", r) else ("", rest)
              | EmptyString => ("", rest)
              end in
            match digits rest with
            | (EmptyString, _) => None
            | (ds, after) =>
                Some (sign +:+ int +:+ frac +:+ String e esign +:+ ds, after)
            end
        end
    end.

Definition literal (word : string) (v : JSValue) (s : string)
  : option (JSValue * string) :=
  if String.prefix word s
  then Some (v, String.substring (String.length word)
                  (String.length s - String.length word) s)
  else None.

(** One value, then what follows it. [fuel] bounds the number of values,
    elements and members read; the length of the text is enough. *)
Fixpoint read_value (fuel : nat) (s : string) : option (JSValue * string) :=
  match fuel with
  | O => None
  | S fuel =>
      match skip s with
      | EmptyString => None
      | String c rest =>
          if Ascii.eqb c quote then
            match read_string rest with
            | Some (text, after) => Some (JString text, after)
            | None => None
            end
          else if Ascii.eqb c "[" then
            match skip rest with
            | String "]" after => Some (JArray [], after)
            | _ =>
                match read_items fuel rest with
                | Some (items, after) => Some (JArray items, after)
                | None => None
                end
            end
          else if Ascii.eqb c "{" then
            match skip rest with
            | String "}" after => Some (JObject [], after)
            | _ =>
                match read_members fuel rest with
                | Some (fields, after) => Some (JObject fields, after)
                | None => None
                end
            end
          else if Ascii.eqb c "n" then literal "null" JNull (String c rest)
          else if Ascii.eqb c "t" then literal "true" (JBool true) (String c rest)
          else if Ascii.eqb c "f" then literal "false" (JBool false) (String c rest)
          else
            match read_number (String c rest) with
            | Some (lexeme, after) => Some (JNumber lexeme, after)
            | None => None
            end
      end
  end
with read_items (fuel : nat) (s : string) : option (list JSValue * string) :=
  match fuel with
  | O => None
  | S fuel =>
      match read_value fuel s with
      | Some (v, after) =>
          match skip after with
          | String "]" after' => Some ([v], after')
          | String "," after' =>
              match read_items fuel after' with
              | Some (vs, after'') => Some (v :: vs, after'')
              | None => None
              end
          | _ => None
          end
      | None => None
      end
  end
with read_members (fuel : nat) (s : string)
  : option (list (string * JSValue) * string) :=
  match fuel with
  | O => None
  | S fuel =>
      match skip s with
      | String c rest =>
          if Ascii.eqb c quote then
            match read_string rest with
            | Some (key, after) =>
                match skip after with
                | String ":" after' =>
                    match read_value fuel after' with
                    | Some (v, after'') =>
                        match skip after'' with
                        | String "}" done => Some ([(key, v)], done)
                        | String "," more =>
                            match read_members fuel more with
                            | Some (fs, done) => Some ((key, v) :: fs, done)
                            | None => None
                            end
                        | _ => None
                        end
                    | None => None
                    end
                | _ => None
                end
            | None => None
            end
          else None
      | EmptyString => None
      end
  end.

Definition parse (text : string) : option JSValue :=
  match read_value (S (String.length text)) text with
  | Some (v, after) =>
      match skip after with
      | EmptyString => Some v
      | _ => None
      end
  | None => None
  end.

Definition quoted (s : string) : string :=
  String quote (s +:+ String quote "").

Definition hex_digit (n : nat) : ascii :=
  ascii_of_nat (if (n <? 10)%nat then 48 + n else 87 + n).

(** The escapes of [JSON.stringify]: the quote, the backslash, the short
    forms of five control characters, and [\u00XX] for the others. *)
Definition escape_char (c : ascii) : string :=
  let n := nat_of_ascii c in
  if Ascii.eqb c quote || Ascii.eqb c backslash
  then String backslash (String c "")
  else if (n =? 8)%nat then String backslash "b"
  else if (n =? 9)%nat then String backslash "t"
  else if (n =? 10)%nat then String backslash "n"
  else if (n =? 12)%nat then String backslash "f"
  else if (n =? 13)%nat then String backslash "r"
  else if (n <? 32)%nat then
    String backslash
      ("u00" +:+ String (hex_digit (n / 16)) (String (hex_digit (n mod 16)) ""))
  else String c "".

Fixpoint escaped (s : string) : string :=
  match s with
  | EmptyString => ""
  | String c rest => escape_char c +:+ escaped rest
  end.

Fixpoint stringify (v : JSValue) : string :=
  match v with
  | JNull => "null"
  | JBool true => "true"
  | JBool false => "false"
  | JNumber lexeme => lexeme
  | JString s => quoted (escaped s)
  | JArray items =>
      let fix go (vs : list JSValue) : string :=
        match vs with
        | [] => ""
        | [v] => stringify v
        | v :: vs => stringify v +:+ "," +:+ go vs
        end in
      "[" +:+ go items +:+ "]"
  | JObject fields =>
      let fix go (fs : list (string * JSValue)) : string :=
        match fs with
        | [] => ""
        | [(k, v)] => quoted (escaped k) +:+ ":" +:+ stringify v
        | (k, v) :: fs => quoted (escaped k) +:+ ":" +:+ stringify v +:+ "," +:+ go fs
        end in
      "{" +:+ go fields +:+ "}"
  end.

(** [String(value)] for a value that is not a string; a number is
    printed as it was read. *)
Fixpoint to_string (v : JSValue) : string :=
  match v with
  | JNull => "null"
  | JBool true => "true"
  | JBool false => "false"
  | JNumber lexeme => lexeme
  | JString s => s
  | JArray items =>
      let fix join (vs : list JSValue) : string :=
        match vs with
        | [] => ""
        | [v] => match v with JNull => "" | _ => to_string v end
        | v :: vs =>
            match v with JNull => "" | _ => to_string v end +:+ "," +:+ join vs
        end in
      join items
  | JObject _ => "[object Object]"
  end.

Definition property_key (v : option JSValue) : string :=
  match v with
  | None => "undefined"
  | Some v => to_string v
  end.

#[export] Instance runtime : Runtime :=
  {| JSON_parse := parse; JSON_stringify := stringify;
     ToPropertyKey := property_key |}.

(** The frame of the spec's example, and a text that is not JSON. *)
Definition description_frame : string :=
  stringify (JObject [("type", JString "description");
                      ("payload", JObject [("description", JString "A dark room.")])]).

End Reference.

(** * Vocabulary of the statements *)

(** ** The spec's formula *)

(** The formula of the spec, in its words: [min(3000 * 1.5^(n-1), 30000)]
    for an attempt count [n], with the subtraction taken on the count. *)
Definition spec_delay (n : nat) : Q :=
  Qmin (3000 * Qpower 1.5 (Z.of_nat (n - 1))) 30000.

(** ** Invariants of the connection *)

(** The timers of the host are the one the service remembers. *)
Definition timers_tracked (st : State) : Prop :=
  match reconnectTimeoutId st with
  | Some id => exists d, timers st = {[ id := d ]}
  | None => timers st = ∅
  end.

(** While the service holds a socket that is connecting or open, its
    promise is the one of that attempt: already fulfilled once the socket
    is open, and otherwise either fulfilled or pending with its resolver
    still installed. *)
Definition gate_tracked (st : State) : Prop :=
  forall s, ws st = Some s ->
    (state_of st s = Some OPEN ->
       exists p, connectionPromise st = Some p /\
                 promises st !! p = Some Fulfilled) /\
    (state_of st s = Some CONNECTING ->
       exists p, connectionPromise st = Some p /\
                 (promises st !! p = Some Fulfilled \/
                  (promises st !! p = Some Pending /\
                   resolveConnectionPromise st = Some p))).

Definition attempts_bounded (st : State) : Prop :=
  (reconnectAttempts st <= maxReconnectAttempts)%nat.

(** What every reachable state satisfies. *)
Record consistent (st : State) : Prop := {
  c_timers : timers_tracked st;
  c_gate : gate_tracked st;
  c_attempts : attempts_bounded st;
  c_listeners : NoDup (listeners st)
}.

(** Two states with the same connection: they differ at most in what was
    logged, emitted, queued or sent. *)
Record same_connection (st st' : State) : Prop := {
  sc_ws : ws st' = ws st;
  sc_promise : connectionPromise st' = connectionPromise st;
  sc_resolve : resolveConnectionPromise st' = resolveConnectionPromise st;
  sc_reject : rejectConnectionPromise st' = rejectConnectionPromise st;
  sc_attempts : reconnectAttempts st' = reconnectAttempts st;
  sc_timeout : reconnectTimeoutId st' = reconnectTimeoutId st;
  sc_listeners : listeners st' = listeners st;
  sc_promises : promises st' = promises st;
  sc_timers : timers st' = timers st;
  sc_next : nextTimer st' = nextTimer st;
  sc_count : length (sockets st') = length (sockets st);
  sc_states : forall s, state_of st' s = state_of st s
}.

(** The timer, its handle and the counter, which the callbacks other than
    [onopen] hand on to [scheduleReconnect] as they found them. *)
Definition pacing (st : State) : gmap positive Q * option positive * nat :=
  (timers st, reconnectTimeoutId st, reconnectAttempts st).

(** ** The parts of the methods *)

(** The lines that open both [connect] and [disconnect]: a pending
    reconnect timer is cancelled and forgotten. *)
Definition cancelled (st : State) : State :=
  match reconnectTimeoutId st with
  | Some id => set_reconnectTimeoutId None (clearTimeout id st)
  | None => st
  end.

(** The test of [connect]'s early return: the service holds a socket that
    is open or connecting. *)
Definition busy (st : State) : bool :=
  match ws st with
  | Some s => bool_decide (state_of st s = Some OPEN)
              || bool_decide (state_of st s = Some CONNECTING)
  | None => false
  end.

(** [connect] past the early return: the promise of the new attempt, then
    either the new socket, or the [catch] block. *)
Definition attempt (st : State) : State :=
  let p := length (promises st) in
  set_rejectConnectionPromise (Some p)
    (set_resolveConnectionPromise (Some p)
       (set_connectionPromise (Some p)
          (set_promises (promises st ++ [Pending])
             (log (Log_attempting (reconnectAttempts st + 1)) st)))).

Definition opened (st : State) : State :=
  let s := length (sockets st) in
  set_sockets (alter wire s (sockets st ++ [fresh_socket]))
    (set_ws (Some s) (set_sockets (sockets st ++ [fresh_socket]) st)).

Definition refused (st : State) : State :=
  scheduleReconnect
    (settle (length (promises st) - 1) (Rejected ConstructorError)
       (emit "disconnected" NoArg (log Err_constructor_failed st))).

(** [onclose] before it decides about reconnecting. *)
Definition hung_up (code : Z) (st : State) : State :=
  let st' :=
    emit "disconnected" NoArg (set_ws None (log (Warn_closed code) st)) in
  match rejectConnectionPromise st with
  | Some p =>
      set_rejectConnectionPromise None
        (set_resolveConnectionPromise None
           (settle p (Rejected (ClosedWithCode code)) st'))
  | None => st'
  end.

(** The state [onclose] finds when the host closes socket [s]. *)
Definition closing_down `{rt : Runtime} (s : nat) (failed : bool)
    (st : State) : State :=
  let st := set_socket_state s CLOSED (drain st) in
  if failed then drain (onerror s st) else st.

(** ** Subscribers and frames *)

(** The subscriber calls one [emit] makes. *)
Definition calls (type : string) (arg : EventArg) (connected : bool)
    (registry : list Listener) : list Invocation :=
  map (fun l => {| inv_event := type; inv_fn := l_fn l; inv_ctx := l_ctx l;
                   inv_arg := arg; inv_isConnected := connected |})
    (listeners_for type registry).

(** A frame whose text parses to an object with a string [type] and a
    [payload]. *)
Definition well_formed `{rt : Runtime} (data type : string)
    (payload frame : JSValue) : Prop :=
  JSON_parse data = Some frame /\
  get_property frame "type" = Some (Some (JString type)) /\
  get_property frame "payload" = Some (Some payload).

(** How often the registration [l] is called for its type in a run of
    invocations. *)
Definition times_called (l : Listener) (run : list Invocation) : nat :=
  length (filter (fun i => inv_event i = l_type l /\ inv_fn i = l_fn l /\
                           inv_ctx i = l_ctx l) run).

(** ** Attempts and their promises *)

(** The promise [p] stays the one of socket [s] for as long as the service
    holds [s] connecting or open. *)
Definition bound_to (s p : nat) (st : State) : Prop :=
  (s < length (sockets st))%nat /\
  (ws st = Some s -> busy st = true -> connectionPromise st = Some p).

(** The turns that start no attempt of the application's own: everything
    but [connect] and [sendCommand]. *)
Definition unattended (l : Label) : bool :=
  match l with
  | Call_connect _ | Call_sendCommand _ _ _ => false
  | _ => true
  end.

(** Nothing will reconnect: the counter is at the maximum, no timer is
    pending and no socket is still connecting. *)
Definition quiet (st : State) : Prop :=
  pacing st = (∅, None, maxReconnectAttempts) /\
  forall s, state_of st s <> Some CONNECTING.

(** ** Scenarios *)

(** Five failed attempts in a row, each retried by the timer. *)
Definition five_failures : list Label :=
  [ Call_connect true; Socket_closes 0 true 1006;
    Timer_fires 1 true; Socket_closes 1 true 1006;
    Timer_fires 2 true; Socket_closes 2 true 1006;
    Timer_fires 3 true; Socket_closes 3 true 1006;
    Timer_fires 4 true; Socket_closes 4 true 1006;
    Timer_fires 5 true; Socket_closes 5 true 1006 ].

(** The command the game scene sends for the player's input. *)
Definition look : Label :=
  Call_sendCommand true "PROCESS_INPUT"
    (Serializable (JObject [("inputText", JString "look")])).

(** ** Further invariants *)

(** Every pending timer waits for one of the five delays the counter
    allows. *)
Definition timers_paced (st : State) : Prop :=
  forall id d, timers st !! id = Some d ->
    exists n, (1 <= n <= maxReconnectAttempts)%nat /\ d = delay n.

(** The two settling functions are stored and dropped together, and they
    settle the promise the service stores. *)
Definition resolvers_paired (st : State) : Prop :=
  resolveConnectionPromise st = rejectConnectionPromise st /\
  forall p, rejectConnectionPromise st = Some p ->
            connectionPromise st = Some p.

(** A frame [sendCommand] writes: the serialisation of an
    [OutgoingCommand]. *)
Definition is_command `{rt : Runtime} (frame : string) : Prop :=
  exists command payload,
    frame = JSON_stringify (OutgoingCommand command payload).

(** What the service has asked of socket [s] so far: its callbacks are
    installed, it was only given commands to send, and it was told to
    close at most once, with code 1000 and a reason [close] accepts, by
    the call that dropped the handle. *)
Definition well_used `{rt : Runtime} (st : State) (s : nat) (sk : Socket)
  : Prop :=
  wired sk = true /\
  Forall is_command (sentFrames sk) /\
  (closeCalls sk = [] \/
   exists reason, closeCalls sk = [(1000%Z, reason)] /\
                  close_accepts reason = true /\ ws st <> Some s /\
                  (readyState sk = CLOSING \/ readyState sk = CLOSED)).

Definition sockets_well_used `{rt : Runtime} (st : State) : Prop :=
  (forall s, ws st = Some s -> (s < length (sockets st))%nat) /\
  forall s sk, sockets st !! s = Some sk -> well_used st s sk.

(** ** Waiting commands *)

(** The suspended call of [sendCommand command payload]. *)
Definition suspended (c : string * Payload) : Continuation :=
  {| k_command := c.1; k_payload := c.2 |}.

(** The frames a list of commands makes, in order; a payload that cannot
    be serialised makes none. *)
Definition frames_of `{rt : Runtime} (cs : list (string * Payload))
  : list string :=
  flat_map (fun c => match c.2 with
                     | Serializable v =>
                         [JSON_stringify (OutgoingCommand c.1 v)]
                     | Unserializable => []
                     end) cs.

(** The ['error'] events of [sendCommand]. *)
Definition send_error (message : string) (handle : option nat) : Emission :=
  {| em_event := "error"; em_arg := ErrorMessage message;
     em_handle := handle |}.

Definition gone (handle : option nat) : Emission :=
  {| em_event := "disconnected"; em_arg := NoArg; em_handle := handle |}.

(** The application calling [sendCommand] for each command in turn. *)
Definition sends `{rt : Runtime} (ok : bool) (cs : list (string * Payload))
  : list Label :=
  map (fun c => Call_sendCommand ok c.1 c.2) cs.

(** What each of the commands reports when its frame cannot be written,
    and when the attempt it waited for has failed. *)
Definition send_failures (handle : option nat) (cs : list (string * Payload))
  : list Emission :=
  flat_map (fun c => match c.2 with
                     | Serializable _ => []
                     | Unserializable =>
                         [send_error "Failed to send command via WebSocket."
                            handle]
                     end) cs.

Definition connect_failures (handle : option nat)
    (cs : list (string * Payload)) : list Emission :=
  map (fun _ => send_error "Failed to connect to server to send command."
                  handle) cs.

(** ** Promises nobody settles *)

(** Since [st0] the service has left every promise alone but the one it
    stored then, and has made new ones only. *)
Definition promises_kept (st0 st : State) : Prop :=
  (length (promises st0) <= length (promises st))%nat /\
  (connectionPromise st = connectionPromise st0 \/
   exists p, connectionPromise st = Some p /\
             (length (promises st0) <= p)%nat) /\
  forall q, (q < length (promises st0))%nat ->
            connectionPromise st0 <> Some q ->
            promises st !! q = promises st0 !! q.

(** With that, the settling functions the service stores are those of
    its stored promise. *)
Definition kept (st0 st : State) : Prop :=
  resolvers_paired st /\ promises_kept st0 st.

(** ** Further scenarios *)

(** An attempt abandoned by [disconnect] while a second one is under
    way, and the first socket failing then. *)
Definition abandoned_attempt : list Label :=
  [ Call_connect true; Call_disconnect "a"; Call_connect true;
    Socket_closes 0 true 1006 ].

(** The payload the game scene sends for an input line. *)
Definition input (text : string) : Payload :=
  Serializable (JObject [("inputText", JString text)]).

(** The service with its first attempt pending, and with it open. *)
Definition connecting : State := (connect true initial).2.

Definition connected : State := onopen (set_socket_state 0 OPEN connecting).

(** A reason of 124 bytes. *)
Definition long_reason : string :=
  string_of_list_ascii (repeat "a"%char 124).


(** ** The held socket *)

(** Between the turns of the event loop the socket the service holds is
    not closed: the callback that sees it closed drops the handle. *)
Definition held_not_closed (st : State) : Prop :=
  forall s, ws st = Some s -> state_of st s <> Some CLOSED.


(** ** A service left alone *)

(** No timer is pending and every socket is closed: the host has nothing
    left to call the service back with. *)
Definition dormant (st : State) : Prop :=
  timers st = ∅ /\ reconnectTimeoutId st = None /\
  forall s sk, sockets st !! s = Some sk -> readyState sk = CLOSED.

(** * The game scene, caller of the service

    [src/frontend/src/scenes/GameScene.ts] subscribes to the service's
    events and turns each line the player types into a [PROCESS_INPUT]
    command. The parts of the scene that talk to the service are
    embedded here. *)

(** What the parser takes from the browser: the two string methods that
    depend on the Unicode tables, and the numbers of the player's
    position with the literal [100] and the two operations applied to
    them. *)
Class Browser : Type := {
  toLowerCase : string -> string;
  trim : string -> string;
  number : Type;
  moveAmount : number;
  add : number -> number -> number;
  sub : number -> number -> number
}.

(** [text.split(' ')]: the pieces between the spaces, empty ones
    included. *)
Fixpoint split (text : string) : list string :=
  match text with
  | EmptyString => [EmptyString]
  | String c rest =>
      if Ascii.eqb c " " then EmptyString :: split rest
      else match split rest with
           | w :: ws => String c w :: ws
           | [] => [String c EmptyString]
           end
  end.

(** A gap of [n] spaces. *)
Fixpoint spaces (n : nat) : string :=
  match n with
  | O => EmptyString
  | S n => String " " (spaces n)
  end.

(** [pieces.filter(w => w)] and [words.join(' ')]. *)
Definition nonempty (pieces : list string) : list string :=
  filter (fun w => w <> EmptyString) pieces.

Definition join (words : list string) : string := String.concat " " words.

(** The four subscribers of the scene, named in the order in which
    [create] registers them. *)
Definition handleDescription : nat := 0.
Definition handleError : nat := 1.
Definition handleDialogue : nat := 2.
Definition handleSceneChange : nat := 3.

Definition subscriptions (this : nat) : list Listener :=
  [ {| l_type := "description"; l_fn := handleDescription; l_ctx := this |};
    {| l_type := "error"; l_fn := handleError; l_ctx := this |};
    {| l_type := "dialogue"; l_fn := handleDialogue; l_ctx := this |};
    {| l_type := "scene_change"; l_fn := handleSceneChange; l_ctx := this |} ].

Section Scene.

Context `{rt : Runtime} `{br : Browser}.

(** The scene's rendering methods [stopPlayerMovement] and
    [movePlayerTo] drive the engine's tweens and physics: a call of one
    is recorded, its body is not embedded. *)
Inductive Request : Type :=
| StopPlayerMovement
| MovePlayerTo (x y : number).

(** The scene: the text on screen, the player's position, the value of
    the input field, and what was logged and requested. *)
Record Scene : Type := {
  descriptionText : string;
  player : number * number;
  parserInput : string;
  processed : list string;
  requests : list Request
}.

Definition setText (text : string) (sc : Scene) : Scene :=
  {| descriptionText := text; player := player sc;
     parserInput := parserInput sc; processed := processed sc;
     requests := requests sc |}.

Definition request (r : Request) (sc : Scene) : Scene :=
  {| descriptionText := descriptionText sc; player := player sc;
     parserInput := parserInput sc; processed := processed sc;
     requests := requests sc ++ [r] |}.

Definition set_parserInput (value : string) (sc : Scene) : Scene :=
  {| descriptionText := descriptionText sc; player := player sc;
     parserInput := value; processed := processed sc;
     requests := requests sc |}.

(** The [console.log] that opens [parseAndSendCommand]. *)
Definition log_processing (text : string) (sc : Scene) : Scene :=
  {| descriptionText := descriptionText sc; player := player sc;
     parserInput := parserInput sc; processed := processed sc ++ [text];
     requests := requests sc |}.

(** The words of a line, its verb and its noun. *)
Definition words (text : string) : list string :=
  nonempty (split (toLowerCase text)).

Definition verb (text : string) : string := hd EmptyString (words text).

Definition noun (text : string) : string := join (tail (words text)).

(** The [switch] on the noun: where a movement leads, [None] for its
    [default] case. *)
Definition target (noun : string) (from : number * number)
  : option (number * number) :=
  let '(x, y) := from in
  if bool_decide (noun ∈ ["north"; "n"; "up"]) then Some (x, sub y moveAmount)
  else if bool_decide (noun ∈ ["south"; "s"; "down"])
  then Some (x, add y moveAmount)
  else if bool_decide (noun ∈ ["east"; "e"; "right"])
  then Some (add x moveAmount, y)
  else if bool_decide (noun ∈ ["west"; "w"; "left"])
  then Some (sub x moveAmount, y)
  else None.

Definition moves (text : string) : bool :=
  bool_decide (verb text ∈ ["go"; "walk"; "move"]).

(** [parseAndSendCommand(text)]; [ctor_ok] is the host's answer should
    [sendCommand] have to connect. The [return] that once ended the
    movement branch is commented out in the source, so a movement goes
    on to the server like any other line. *)
Definition parseAndSendCommand (ctor_ok : bool) (text : string)
    (game : Scene * State) : Scene * State :=
  let '(sc, st) := game in
  let sc := log_processing text sc in
  let sc := setText ("> " ++ text) sc in
  let sc := request StopPlayerMovement sc in
  let forward sc :=
    if bool_decide (text <> EmptyString) then
      (sc, sendCommand ctor_ok "PROCESS_INPUT" (input text) st)
    else (setText ">" sc, st) in
  if moves text then
    match target (noun text) (player sc) with
    | Some (x, y) => forward (request (MovePlayerTo x y) sc)
    | None => (setText "Go where? (Try north, south, east, west)" sc, st)
    end
  else forward sc.

(** The [keydown] listener of the input field. *)
Definition onkeydown (ctor_ok : bool) (key : string) (game : Scene * State)
  : Scene * State :=
  if String.eqb key "Enter" then
    let inputText := trim (parserInput game.1) in
    if bool_decide (inputText <> EmptyString) then
      let '(sc, st) := parseAndSendCommand ctor_ok inputText game in
      (set_parserInput EmptyString sc, st)
    else game
  else game.

(** [create] from the lookup of the input field on; [found] is whether
    [document.getElementById('parser-input')] returned an element.
    Without one [create] returns at once: the scene subscribes to
    nothing and installs no SHUTDOWN listener. With one it installs
    [onkeydown] on the field, subscribes its four handlers to the
    service and installs the SHUTDOWN listener. The result says whether
    that listener is installed. *)
Definition create (found : bool) (this : nat) (game : Scene * State)
  : Scene * State * bool :=
  if found then
    ((game.1,
      on "scene_change" handleSceneChange this
        (on "dialogue" handleDialogue this
           (on "error" handleError this
              (on "description" handleDescription this game.2)))), true)
  else (game, false).

(** The listener [create] installs for the scene's SHUTDOWN event: it
    unsubscribes the four handlers and stops the player. *)
Definition shutdown (this : nat) (game : Scene * State) : Scene * State :=
  (request StopPlayerMovement game.1,
   off "scene_change" handleSceneChange this
     (off "dialogue" handleDialogue this
        (off "error" handleError this
           (off "description" handleDescription this game.2)))).

(** The scene shutting down: its SHUTDOWN event calls the listener when
    [create] installed it. *)
Definition SHUTDOWN (this : nat) (created : Scene * State * bool)
  : Scene * State :=
  if created.2 then shutdown this created.1 else created.1.

End Scene.

Arguments Scene {br}.
Arguments Request {br}.

(** An executable reading of the browser's part, for lines of ASCII
    text and whole-numbered positions. *)
Module ReferenceBrowser.

Definition lower (c : ascii) : ascii :=
  let n := nat_of_ascii c in
  if ((65 <=? n) && (n <=? 90))%nat then ascii_of_nat (n + 32) else c.

Fixpoint lowercase (s : string) : string :=
  match s with
  | EmptyString => EmptyString
  | String c rest => String (lower c) (lowercase rest)
  end.

Definition blank (c : ascii) : bool :=
  let n := nat_of_ascii c in
  ((n =? 32) || ((9 <=? n) && (n <=? 13)))%nat.

Fixpoint trim_start (s : string) : string :=
  match s with
  | String c rest => if blank c then trim_start rest else s
  | EmptyString => EmptyString
  end.

Fixpoint trim_end (s : string) : string :=
  match s with
  | EmptyString => EmptyString
  | String c rest =>
      match trim_end rest with
      | EmptyString => if blank c then EmptyString else String c EmptyString
      | kept => String c kept
      end
  end.

#[export] Instance browser : Browser :=
  {| toLowerCase := lowercase; trim := fun s => trim_end (trim_start s);
     number := Z; moveAmount := 100%Z; add := Z.add; sub := Z.sub |}.

(** The scene as [create] leaves it, the player at (400, 480). *)
Definition scene : Scene :=
  {| descriptionText := "Click to move Dex."; player := (400%Z, 480%Z);
     parserInput := EmptyString; processed := []; requests := [] |}.

End ReferenceBrowser.

(** * Properties *)

(** ** The backoff delay *)

Lemma delay_le (n m : nat) : (n <= m)%nat -> (delay n <= delay m)%Q.
Proof.
  intros Hnm. unfold delay.
  apply Q.min_le_compat_r.
  apply Qmult_le_l; [reflexivity|].
  apply Qpower_le_compat_l; [lia|].
  unfold Qle; simpl; lia.
Qed.

Lemma delay_cap (n : nat) : (delay n <= 30000)%Q.
Proof. unfold delay. apply Q.le_min_r. Qed.

Lemma delay_plateau (n : nat) : (7 <= n)%nat -> (delay n == 30000)%Q.
Proof.
  intros Hn. apply Qle_antisym; [apply delay_cap|].
  apply Qle_trans with (delay 7); [|by apply delay_le].
  unfold Qle; vm_compute; discriminate.
Qed.

(** When [scheduleReconnect] does schedule, the timer it sets is the one
    of the incremented counter. *)
Lemma scheduleReconnect_schedules (st : State) :
  (reconnectAttempts st < maxReconnectAttempts)%nat ->
  reconnectTimeoutId st = None ->
  let n := S (reconnectAttempts st) in
  let st' := scheduleReconnect st in
  reconnectAttempts st' = n /\
  reconnectTimeoutId st' = Some (nextTimer st) /\
  timers st' = <[nextTimer st := delay n]> (timers st) /\
  console st' = console st ++ [Log_scheduling n (delay n)].
Proof.
  intros Hlt Hnone. unfold scheduleReconnect.
  destruct (Nat.leb_spec maxReconnectAttempts (reconnectAttempts st)); [lia|].
  rewrite Hnone. simpl. done.
Qed.

(** C6. For every attempt count [n >= 1] the reconnect delay is
    [min(3000 * 1.5^(n-1), 30000)] milliseconds, and this is the delay of
    the timer [scheduleReconnect] sets for attempt [n]; as a function of
    [n] it is non-decreasing and never above 30000. *)
Theorem backoff_delay (n : nat) :
  (1 <= n)%nat ->
  (delay n == spec_delay n)%Q /\
  (forall m, (n <= m)%nat -> (delay n <= delay m)%Q) /\
  (delay n <= 30000)%Q /\
  (forall st, reconnectAttempts st = (n - 1)%nat ->
     (n <= maxReconnectAttempts)%nat -> reconnectTimeoutId st = None ->
     timers (scheduleReconnect st) !! nextTimer st = Some (delay n)).
Proof.
  intros Hn. split; [|split; [|split]].
  - unfold delay, spec_delay.
    replace (Z.of_nat n - 1)%Z with (Z.of_nat (n - 1)) by lia. reflexivity.
  - intros m Hm. by apply delay_le.
  - apply delay_cap.
  - intros st Hc Hmax Hnone.
    destruct (scheduleReconnect_schedules st) as (_ & _ & Ht & _);
      [lia | done |].
    rewrite Ht, Hc. replace (S (n - 1)) with n by lia.
    apply lookup_insert_eq.
Qed.

Lemma backoff_delay_witness :
  (delay 3 == spec_delay 3)%Q /\ (delay 3 <= delay 9)%Q /\
  timers (scheduleReconnect
            (set_reconnectAttempts 2 initial)) !! 1%positive = Some (delay 3).
Proof.
  destruct (backoff_delay 3 ltac:(lia)) as (H1 & H2 & _ & H4).
  split; [exact H1|]. split; [apply H2; lia|].
  apply (H4 (set_reconnectAttempts 2 initial)); [reflexivity | | reflexivity].
  unfold maxReconnectAttempts; lia.
Defined.

(** The five delays the service can ask for: the counter never exceeds
    five, and the cap would first be reached at a seventh attempt. *)
Example delays :
  (delay 1 == 3000 /\ delay 2 == 4500 /\ delay 3 == 6750 /\
   delay 4 == 10125 /\ delay 5 == 15187.5 /\ delay 7 == 30000)%Q.
Proof. by vm_compute. Qed.

(** ** What the parts of the service leave alone *)

Lemma state_of_settle p o st s : state_of (settle p o st) s = state_of st s.
Proof. unfold settle. by repeat case_match. Qed.

Lemma settle_promises p o st q :
  promises (settle p o st) !! q =
    if decide (p = q) then
      match promises st !! p with
      | Some Pending => Some o
      | other => other
      end
    else promises st !! q.
Proof.
  unfold settle. destruct (promises st !! p) as [[]|] eqn:E; simpl.
  - case_decide; subst.
    + apply list_lookup_insert_eq. by eapply lookup_lt_Some.
    + by apply list_lookup_insert_ne.
  - case_decide; subst; done.
  - case_decide; subst; done.
  - case_decide; subst; done.
Qed.


(** [settle] touches the promise and the queues, [scheduleReconnect] the
    counter, the timer and the console, and neither anything else. *)

Lemma settle_ws p o st : ws (settle p o st) = ws st.
Proof. unfold settle. by repeat case_match. Qed.

Lemma settle_connectionPromise p o st :
  connectionPromise (settle p o st) = connectionPromise st.
Proof. unfold settle. by repeat case_match. Qed.

Lemma settle_resolveConnectionPromise p o st :
  resolveConnectionPromise (settle p o st) = resolveConnectionPromise st.
Proof. unfold settle. by repeat case_match. Qed.

Lemma settle_rejectConnectionPromise p o st :
  rejectConnectionPromise (settle p o st) = rejectConnectionPromise st.
Proof. unfold settle. by repeat case_match. Qed.

Lemma settle_reconnectAttempts p o st :
  reconnectAttempts (settle p o st) = reconnectAttempts st.
Proof. unfold settle. by repeat case_match. Qed.

Lemma settle_reconnectTimeoutId p o st :
  reconnectTimeoutId (settle p o st) = reconnectTimeoutId st.
Proof. unfold settle. by repeat case_match. Qed.

Lemma settle_listeners p o st : listeners (settle p o st) = listeners st.
Proof. unfold settle. by repeat case_match. Qed.

Lemma settle_sockets p o st : sockets (settle p o st) = sockets st.
Proof. unfold settle. by repeat case_match. Qed.

Lemma settle_timers p o st : timers (settle p o st) = timers st.
Proof. unfold settle. by repeat case_match. Qed.

Lemma settle_nextTimer p o st : nextTimer (settle p o st) = nextTimer st.
Proof. unfold settle. by repeat case_match. Qed.

Lemma settle_console p o st : console (settle p o st) = console st.
Proof. unfold settle. by repeat case_match. Qed.

Lemma settle_emitted p o st : emitted (settle p o st) = emitted st.
Proof. unfold settle. by repeat case_match. Qed.

Lemma settle_invoked p o st : invoked (settle p o st) = invoked st.
Proof. unfold settle. by repeat case_match. Qed.

Lemma scheduleReconnect_ws st :
  ws (scheduleReconnect st) = ws st.
Proof. unfold scheduleReconnect, setTimeout. by repeat case_match. Qed.

Lemma scheduleReconnect_connectionPromise st :
  connectionPromise (scheduleReconnect st) = connectionPromise st.
Proof. unfold scheduleReconnect, setTimeout. by repeat case_match. Qed.

Lemma scheduleReconnect_resolveConnectionPromise st :
  resolveConnectionPromise (scheduleReconnect st) = resolveConnectionPromise st.
Proof. unfold scheduleReconnect, setTimeout. by repeat case_match. Qed.

Lemma scheduleReconnect_rejectConnectionPromise st :
  rejectConnectionPromise (scheduleReconnect st) = rejectConnectionPromise st.
Proof. unfold scheduleReconnect, setTimeout. by repeat case_match. Qed.

Lemma scheduleReconnect_listeners st :
  listeners (scheduleReconnect st) = listeners st.
Proof. unfold scheduleReconnect, setTimeout. by repeat case_match. Qed.

Lemma scheduleReconnect_sockets st :
  sockets (scheduleReconnect st) = sockets st.
Proof. unfold scheduleReconnect, setTimeout. by repeat case_match. Qed.

Lemma scheduleReconnect_promises st :
  promises (scheduleReconnect st) = promises st.
Proof. unfold scheduleReconnect, setTimeout. by repeat case_match. Qed.

Lemma scheduleReconnect_reactions st :
  reactions (scheduleReconnect st) = reactions st.
Proof. unfold scheduleReconnect, setTimeout. by repeat case_match. Qed.

Lemma scheduleReconnect_jobs st :
  jobs (scheduleReconnect st) = jobs st.
Proof. unfold scheduleReconnect, setTimeout. by repeat case_match. Qed.

Lemma scheduleReconnect_emitted st :
  emitted (scheduleReconnect st) = emitted st.
Proof. unfold scheduleReconnect, setTimeout. by repeat case_match. Qed.

Lemma scheduleReconnect_invoked st :
  invoked (scheduleReconnect st) = invoked st.
Proof. unfold scheduleReconnect, setTimeout. by repeat case_match. Qed.

Lemma state_of_scheduleReconnect st s :
  state_of (scheduleReconnect st) s = state_of st s.
Proof. unfold state_of. by rewrite scheduleReconnect_sockets. Qed.

(** [log] and [emit] only add to what the outside observes. *)

Lemma log_ws e st : ws (log e st) = ws st.
Proof. reflexivity. Qed.

Lemma log_connectionPromise e st :
  connectionPromise (log e st) = connectionPromise st.
Proof. reflexivity. Qed.

Lemma log_resolveConnectionPromise e st :
  resolveConnectionPromise (log e st) = resolveConnectionPromise st.
Proof. reflexivity. Qed.

Lemma log_rejectConnectionPromise e st :
  rejectConnectionPromise (log e st) = rejectConnectionPromise st.
Proof. reflexivity. Qed.

Lemma log_reconnectAttempts e st :
  reconnectAttempts (log e st) = reconnectAttempts st.
Proof. reflexivity. Qed.

Lemma log_reconnectTimeoutId e st :
  reconnectTimeoutId (log e st) = reconnectTimeoutId st.
Proof. reflexivity. Qed.

Lemma log_listeners e st : listeners (log e st) = listeners st.
Proof. reflexivity. Qed.

Lemma log_sockets e st : sockets (log e st) = sockets st.
Proof. reflexivity. Qed.

Lemma log_promises e st : promises (log e st) = promises st.
Proof. reflexivity. Qed.

Lemma log_timers e st : timers (log e st) = timers st.
Proof. reflexivity. Qed.

Lemma log_nextTimer e st : nextTimer (log e st) = nextTimer st.
Proof. reflexivity. Qed.

Lemma log_reactions e st : reactions (log e st) = reactions st.
Proof. reflexivity. Qed.

Lemma log_jobs e st : jobs (log e st) = jobs st.
Proof. reflexivity. Qed.

Lemma log_emitted e st : emitted (log e st) = emitted st.
Proof. reflexivity. Qed.

Lemma log_invoked e st : invoked (log e st) = invoked st.
Proof. reflexivity. Qed.

Lemma emit_ws type arg st : ws (emit type arg st) = ws st.
Proof. reflexivity. Qed.

Lemma emit_connectionPromise type arg st :
  connectionPromise (emit type arg st) = connectionPromise st.
Proof. reflexivity. Qed.

Lemma emit_resolveConnectionPromise type arg st :
  resolveConnectionPromise (emit type arg st) = resolveConnectionPromise st.
Proof. reflexivity. Qed.

Lemma emit_rejectConnectionPromise type arg st :
  rejectConnectionPromise (emit type arg st) = rejectConnectionPromise st.
Proof. reflexivity. Qed.

Lemma emit_reconnectAttempts type arg st :
  reconnectAttempts (emit type arg st) = reconnectAttempts st.
Proof. reflexivity. Qed.

Lemma emit_reconnectTimeoutId type arg st :
  reconnectTimeoutId (emit type arg st) = reconnectTimeoutId st.
Proof. reflexivity. Qed.

Lemma emit_listeners type arg st : listeners (emit type arg st) = listeners st.
Proof. reflexivity. Qed.

Lemma emit_sockets type arg st : sockets (emit type arg st) = sockets st.
Proof. reflexivity. Qed.

Lemma emit_promises type arg st : promises (emit type arg st) = promises st.
Proof. reflexivity. Qed.

Lemma emit_timers type arg st : timers (emit type arg st) = timers st.
Proof. reflexivity. Qed.

Lemma emit_nextTimer type arg st : nextTimer (emit type arg st) = nextTimer st.
Proof. reflexivity. Qed.

Lemma emit_reactions type arg st : reactions (emit type arg st) = reactions st.
Proof. reflexivity. Qed.

Lemma emit_jobs type arg st : jobs (emit type arg st) = jobs st.
Proof. reflexivity. Qed.

Lemma emit_console type arg st : console (emit type arg st) = console st.
Proof. reflexivity. Qed.

Lemma state_of_log e st s : state_of (log e st) s = state_of st s.
Proof. reflexivity. Qed.

Lemma state_of_emit type arg st s :
  state_of (emit type arg st) s = state_of st s.
Proof. reflexivity. Qed.

Create Rewrite HintDb fields.

#[local] Hint Rewrite
  settle_ws settle_connectionPromise settle_resolveConnectionPromise
  settle_rejectConnectionPromise settle_reconnectAttempts
  settle_reconnectTimeoutId settle_listeners settle_sockets settle_timers
  settle_nextTimer settle_console settle_emitted settle_invoked
  scheduleReconnect_ws scheduleReconnect_connectionPromise
  scheduleReconnect_resolveConnectionPromise
  scheduleReconnect_rejectConnectionPromise scheduleReconnect_listeners
  scheduleReconnect_sockets scheduleReconnect_promises
  scheduleReconnect_reactions scheduleReconnect_jobs
  scheduleReconnect_emitted scheduleReconnect_invoked state_of_settle
  state_of_scheduleReconnect
  log_ws log_connectionPromise log_resolveConnectionPromise
  log_rejectConnectionPromise log_reconnectAttempts log_reconnectTimeoutId
  log_listeners log_sockets log_promises log_timers log_nextTimer
  log_reactions log_jobs log_emitted log_invoked emit_ws
  emit_connectionPromise emit_resolveConnectionPromise
  emit_rejectConnectionPromise emit_reconnectAttempts
  emit_reconnectTimeoutId emit_listeners emit_sockets emit_promises
  emit_timers emit_nextTimer emit_reactions emit_jobs emit_console
  state_of_log state_of_emit
  : fields.

Ltac fields := repeat (progress (simpl; autorewrite with fields)).

(** ** The methods, by cases *)

Lemma connect_busy ok st :
  busy (cancelled st) = true ->
  connect ok st =
    match connectionPromise st with
    | Some p => (p, log Log_already_connected (cancelled st))
    | None => (length (promises st),
               set_promises (promises st ++ [Fulfilled])
                 (log Log_already_connected (cancelled st)))
    end.
Proof.
  unfold connect, busy, cancelled. intros ->.
  by destruct (reconnectTimeoutId st).
Qed.

Lemma connect_idle ok st :
  busy (cancelled st) = false ->
  connect ok st =
    (length (promises st),
     if ok then opened (attempt (cancelled st))
     else refused (attempt (cancelled st))).
Proof.
  unfold connect, busy, cancelled. intros ->.
  destruct (reconnectTimeoutId st), ok; simpl;
    unfold refused, attempt, opened; simpl;
    rewrite ?length_app; simpl;
    rewrite ?Nat.add_sub; reflexivity.
Qed.


Lemma onclose_eq code st :
  onclose code st =
    if bool_decide (code <> 1000%Z) then scheduleReconnect (hung_up code st)
    else hung_up code st.
Proof. reflexivity. Qed.

(** ** Invariants of the event loop *)

(** *** The reconnect timer *)

Lemma timers_tracked_ext st st' :
  reconnectTimeoutId st' = reconnectTimeoutId st -> timers st' = timers st ->
  timers_tracked st -> timers_tracked st'.
Proof. unfold timers_tracked. by intros -> ->. Qed.

Lemma timers_tracked_scheduleReconnect st :
  timers_tracked st -> timers_tracked (scheduleReconnect st).
Proof.
  unfold scheduleReconnect. intros H.
  destruct (_ <=? _)%nat; [exact H|].
  destruct (reconnectTimeoutId st) eqn:E; [exact H|].
  unfold timers_tracked in *; simpl. rewrite E in H. rewrite H. by eexists.
Qed.

Lemma timers_tracked_cancelled st :
  timers_tracked st -> timers_tracked (cancelled st).
Proof.
  unfold timers_tracked, cancelled. intros H.
  destruct (reconnectTimeoutId st) eqn:E; simpl; [|by rewrite E].
  destruct H as [d ->]. apply delete_singleton_eq.
Qed.

Lemma timers_tracked_connect ok st :
  timers_tracked st -> timers_tracked (connect ok st).2.
Proof.
  intros H%timers_tracked_cancelled.
  destruct (busy (cancelled st)) eqn:B.
  - rewrite connect_busy by done. by destruct (connectionPromise st).
  - rewrite connect_idle by done. destruct ok; simpl; [done|].
    apply timers_tracked_scheduleReconnect.
    eapply timers_tracked_ext; [| |exact H]; by fields.
Qed.

Lemma timers_tracked_onopen st :
  timers_tracked st -> timers_tracked (onopen st).
Proof.
  apply timers_tracked_ext; unfold onopen; by case_match; fields.
Qed.

Lemma timers_tracked_onerror s st :
  timers_tracked st -> timers_tracked (onerror s st).
Proof.
  apply timers_tracked_ext; unfold onerror; by case_match; fields.
Qed.

Lemma timers_tracked_onclose code st :
  timers_tracked st -> timers_tracked (onclose code st).
Proof.
  intros H. rewrite onclose_eq.
  assert (timers_tracked (hung_up code st)) as H'.
  { eapply timers_tracked_ext; [| |exact H]; unfold hung_up;
      by case_match; fields. }
  case_bool_decide; [|exact H'].
  by apply timers_tracked_scheduleReconnect.
Qed.

Lemma timers_tracked_disconnect reason st :
  timers_tracked st -> timers_tracked (final (disconnect reason st)).
Proof.
  intros H%timers_tracked_cancelled. unfold disconnect. fold (cancelled st).
  destruct (ws _); [|exact H].
  destruct (close_accepts reason); exact H.
Qed.

Lemma timers_tracked_fired id st :
  timers_tracked st -> is_Some (timers st !! id) ->
  timers_tracked (set_reconnectTimeoutId None (clearTimeout id st)).
Proof.
  unfold timers_tracked. intros H [d Hd]. simpl.
  destruct (reconnectTimeoutId st) as [id'|].
  - destruct H as [d' H]. rewrite H in *.
    apply lookup_singleton_Some in Hd as [-> _]. apply delete_singleton_eq.
  - rewrite H in Hd. by rewrite lookup_empty in Hd.
Qed.

(** *** The promise of the attempt *)

Lemma gate_tracked_ext st st' :
  ws st' = ws st -> (forall s, state_of st' s = state_of st s) ->
  connectionPromise st' = connectionPromise st ->
  promises st' = promises st ->
  resolveConnectionPromise st' = resolveConnectionPromise st ->
  gate_tracked st -> gate_tracked st'.
Proof.
  intros Hws Hs Hp Hps Hr H s. rewrite Hws, Hs, Hp, Hps, Hr. apply H.
Qed.

Lemma gate_tracked_idle st : ws st = None -> gate_tracked st.
Proof. intros H s. by rewrite H. Qed.

Lemma gate_tracked_not_busy st st' :
  busy st = false -> ws st' = ws st ->
  (forall s, state_of st' s = state_of st s) -> gate_tracked st'.
Proof.
  unfold busy. intros Hb Hws Hs s. rewrite Hws, Hs. intros E. rewrite E in Hb.
  apply orb_false_iff in Hb as [H1%bool_decide_eq_false H2%bool_decide_eq_false].
  done.
Qed.

Lemma gate_tracked_scheduleReconnect st :
  gate_tracked st -> gate_tracked (scheduleReconnect st).
Proof. apply gate_tracked_ext; intros; by fields. Qed.

Lemma gate_tracked_cancelled st : gate_tracked st -> gate_tracked (cancelled st).
Proof.
  apply gate_tracked_ext; intros; unfold cancelled; by case_match.
Qed.

Lemma state_of_opened st :
  state_of (opened st) (length (sockets st)) = Some CONNECTING.
Proof.
  unfold state_of, opened; simpl.
  rewrite list_lookup_alter_eq, lookup_app_r by done.
  by rewrite Nat.sub_diag.
Qed.

Lemma gate_tracked_opened st p :
  connectionPromise st = Some p -> promises st !! p = Some Pending ->
  resolveConnectionPromise st = Some p -> gate_tracked (opened st).
Proof.
  intros Hp Hps Hr s Hs.
  change (ws (opened st)) with (Some (length (sockets st))) in Hs.
  injection Hs as <-. rewrite state_of_opened. split; [done|]. intros _.
  exists p. split; [done|]. by right.
Qed.

Lemma gate_tracked_connect ok st :
  gate_tracked st -> gate_tracked (connect ok st).2.
Proof.
  intros H%gate_tracked_cancelled.
  destruct (busy (cancelled st)) eqn:B.
  - rewrite connect_busy by done.
    destruct (connectionPromise st) eqn:E; [exact H|].
    exfalso. unfold busy in B.
    destruct (ws (cancelled st)) as [s|] eqn:Hws; [|done].
    destruct (H s Hws) as [H1 H2].
    assert (connectionPromise (cancelled st) = None) as E'
      by (unfold cancelled; by case_match).
    apply orb_true_iff in B as [B%bool_decide_eq_true|B%bool_decide_eq_true].
    + destruct (H1 B) as (p & Hp & _). congruence.
    + destruct (H2 B) as (p & Hp & _). congruence.
  - rewrite connect_idle by done. destruct ok; simpl.
    + apply (gate_tracked_opened _ (length (promises (cancelled st)))); simpl;
        [done| |done].
      by rewrite lookup_app_r, Nat.sub_diag.
    + apply (gate_tracked_not_busy (cancelled st)); [done| |];
        intros; unfold refused; by fields.
Qed.

Lemma state_of_set_socket_state st s r s' :
  state_of (set_socket_state s r st) s' =
    if decide (s = s') then
      match state_of st s with Some _ => Some r | None => None end
    else state_of st s'.
Proof.
  unfold state_of, set_socket_state; simpl. case_decide; subst.
  - rewrite list_lookup_alter_eq. by destruct (sockets st !! s').
  - by rewrite list_lookup_alter_ne.
Qed.

(** What [onopen] does to the promise it finds installed. *)
Lemma onopen_promises st q :
  promises (onopen st) !! q =
    match resolveConnectionPromise st with
    | Some p =>
        if decide (p = q) then
          match promises st !! p with
          | Some Pending => Some Fulfilled
          | other => other
          end
        else promises st !! q
    | None => promises st !! q
    end.
Proof.
  unfold onopen; simpl. destruct (resolveConnectionPromise st); fields; [|done].
  by rewrite settle_promises.
Qed.

Lemma onopen_fulfilled st p :
  promises st !! p = Some Fulfilled \/
  (promises st !! p = Some Pending /\ resolveConnectionPromise st = Some p) ->
  promises (onopen st) !! p = Some Fulfilled.
Proof.
  rewrite onopen_promises. intros [H|[H ->]].
  - destruct (resolveConnectionPromise st) as [p'|]; [|done].
    case_decide; subst; [by rewrite H|done].
  - rewrite decide_True by done. by rewrite H.
Qed.

Lemma state_of_ext st st' s :
  sockets st' = sockets st -> state_of st' s = state_of st s.
Proof. unfold state_of. by intros ->. Qed.

Lemma onopen_ws st : ws (onopen st) = ws st.
Proof. unfold onopen. case_match; by fields. Qed.

Lemma onopen_connectionPromise st :
  connectionPromise (onopen st) = connectionPromise st.
Proof. unfold onopen. case_match; by fields. Qed.

Lemma onopen_sockets st : sockets (onopen st) = sockets st.
Proof. unfold onopen. case_match; by fields. Qed.

Lemma gate_tracked_onopen st s :
  state_of st s = Some CONNECTING -> gate_tracked st ->
  gate_tracked (onopen (set_socket_state s OPEN st)).
Proof.
  intros Hs H s' Hws. rewrite onopen_ws in Hws.
  rewrite onopen_connectionPromise, (state_of_ext _ _ _ (onopen_sockets _)).
  change (ws st = Some s') in Hws.
  change (connectionPromise (set_socket_state s OPEN st))
    with (connectionPromise st).
  destruct (H s' Hws) as [H1 H2].
  rewrite state_of_set_socket_state, Hs.
  assert (forall p, connectionPromise st = Some p ->
            promises st !! p = Some Fulfilled \/
            promises st !! p = Some Pending /\
            resolveConnectionPromise st = Some p ->
            exists p, connectionPromise st = Some p /\
              promises (onopen (set_socket_state s OPEN st)) !! p
              = Some Fulfilled) as Hdone.
  { intros p Hp Hg. exists p. split; [done|]. by apply onopen_fulfilled. }
  case_decide as Hne; [subst s'|].
  - split; [|done]. intros _.
    destruct (H2 Hs) as (p & Hp & Hg). by eapply Hdone.
  - split.
    + intros E. destruct (H1 E) as (p & Hp & Hg). eapply Hdone; eauto.
    + intros E. destruct (H2 E) as (p & Hp & Hg).
      destruct (Hdone p Hp Hg) as (p' & ? & ?). eauto.
Qed.

Lemma hung_up_ws code st : ws (hung_up code st) = None.
Proof. unfold hung_up. case_match; by fields. Qed.

Lemma onclose_ws code st : ws (onclose code st) = None.
Proof.
  rewrite onclose_eq. case_bool_decide; fields; apply hung_up_ws.
Qed.

Lemma cancelled_ws st : ws (cancelled st) = ws st.
Proof. unfold cancelled. by case_match. Qed.

Lemma disconnect_eq reason st :
  disconnect reason st =
    let st1 := set_reconnectAttempts maxReconnectAttempts (cancelled st) in
    match ws st with
    | Some s =>
        if close_accepts reason then
          Returns
            (emit "disconnected" NoArg
               (set_ws None
                  (set_sockets (alter (socket_close 1000 reason) s (sockets st))
                     (log (Log_disconnecting reason) st1))))
        else Throws (log (Log_disconnecting reason) st1)
    | None => Returns (emit "disconnected" NoArg st1)
    end.
Proof.
  unfold disconnect. fold (cancelled st). simpl. rewrite cancelled_ws.
  assert (sockets (cancelled st) = sockets st) as ->
    by (unfold cancelled; by case_match).
  reflexivity.
Qed.

Lemma gate_tracked_disconnect reason st :
  gate_tracked st -> gate_tracked (final (disconnect reason st)).
Proof.
  intros H%gate_tracked_cancelled. rewrite disconnect_eq. simpl.
  destruct (ws st) eqn:E.
  - destruct (close_accepts reason); [by apply gate_tracked_idle|exact H].
  - apply gate_tracked_idle. simpl. by rewrite cancelled_ws.
Qed.

Lemma gate_tracked_closing st s :
  gate_tracked st -> gate_tracked (set_socket_state s CLOSING st).
Proof.
  intros H s' Hws. rewrite state_of_set_socket_state.
  case_decide; [by case_match|]. by apply H.
Qed.

Lemma gate_tracked_fired id st :
  gate_tracked st ->
  gate_tracked (set_reconnectTimeoutId None (clearTimeout id st)).
Proof. by apply gate_tracked_ext. Qed.

Lemma attempts_bounded_scheduleReconnect st :
  attempts_bounded st -> attempts_bounded (scheduleReconnect st).
Proof.
  unfold attempts_bounded, scheduleReconnect, setTimeout. intros H.
  destruct (Nat.leb_spec maxReconnectAttempts (reconnectAttempts st)); [done|].
  case_match; simpl; lia.
Qed.

Lemma cancelled_reconnectAttempts st :
  reconnectAttempts (cancelled st) = reconnectAttempts st.
Proof. unfold cancelled. by case_match. Qed.

Lemma attempts_bounded_connect ok st :
  attempts_bounded st -> attempts_bounded (connect ok st).2.
Proof.
  intros H. assert (attempts_bounded (cancelled st)) as H'
    by (unfold attempts_bounded; by rewrite cancelled_reconnectAttempts).
  destruct (busy (cancelled st)) eqn:B.
  - rewrite connect_busy by done. by case_match.
  - rewrite connect_idle by done. destruct ok; [done|].
    apply attempts_bounded_scheduleReconnect.
    unfold attempts_bounded. by fields.
Qed.

Lemma attempts_bounded_onopen st : attempts_bounded (onopen st).
Proof.
  unfold attempts_bounded, onopen. case_match; fields; lia.
Qed.

Lemma attempts_bounded_onerror s st :
  attempts_bounded st -> attempts_bounded (onerror s st).
Proof. unfold attempts_bounded, onerror. case_match; by fields. Qed.

Lemma attempts_bounded_onclose code st :
  attempts_bounded st -> attempts_bounded (onclose code st).
Proof.
  intros H. rewrite onclose_eq.
  assert (attempts_bounded (hung_up code st)) as H'
    by (unfold attempts_bounded, hung_up; case_match; by fields).
  case_bool_decide; [|exact H'].
  by apply attempts_bounded_scheduleReconnect.
Qed.

Lemma attempts_bounded_disconnect reason st :
  attempts_bounded (final (disconnect reason st)).
Proof.
  rewrite disconnect_eq. unfold attempts_bounded.
  repeat case_match; simpl; lia.
Qed.

Lemma connect_listeners ok st : listeners (connect ok st).2 = listeners st.
Proof.
  assert (listeners (cancelled st) = listeners st) as H
    by (unfold cancelled; by case_match).
  destruct (busy (cancelled st)) eqn:B.
  - rewrite connect_busy by done. by case_match.
  - rewrite connect_idle by done. destruct ok; [done|].
    unfold refused. by fields.
Qed.

Lemma onopen_listeners st : listeners (onopen st) = listeners st.
Proof. unfold onopen. case_match; by fields. Qed.

Lemma onerror_listeners s st : listeners (onerror s st) = listeners st.
Proof. unfold onerror. case_match; by fields. Qed.

Lemma onclose_listeners code st : listeners (onclose code st) = listeners st.
Proof.
  rewrite onclose_eq.
  assert (listeners (hung_up code st) = listeners st) as H
    by (unfold hung_up; case_match; by fields).
  case_bool_decide; by fields.
Qed.

Lemma disconnect_listeners reason st :
  listeners (final (disconnect reason st)) = listeners st.
Proof.
  rewrite disconnect_eq. repeat case_match; simpl;
    unfold cancelled; by case_match.
Qed.

Lemma on_NoDup type fn ctx st :
  NoDup (listeners st) -> NoDup (listeners (on type fn ctx st)).
Proof.
  intros H. unfold on. case_bool_decide; [done|]. simpl.
  apply NoDup_app. split; [done|]. split.
  - intros x Hx ->%list_elem_of_singleton. done.
  - apply NoDup_singleton.
Qed.

Lemma off_NoDup type fn ctx st :
  NoDup (listeners st) -> NoDup (listeners (off type fn ctx st)).
Proof. intros H. unfold off; simpl. by apply NoDup_filter. Qed.

Section Invariants.

Context `{rt : Runtime}.

Lemma same_connection_refl st : same_connection st st.
Proof. by split. Qed.

Lemma same_connection_trans st1 st2 st3 :
  same_connection st1 st2 -> same_connection st2 st3 ->
  same_connection st1 st3.
Proof.
  intros [] []; split; congruence.
Qed.

Lemma same_connection_log e st : same_connection st (log e st).
Proof. by split. Qed.

Lemma same_connection_emit type arg st : same_connection st (emit type arg st).
Proof. by split. Qed.

Lemma same_connection_await gate k st : same_connection st (await gate k st).
Proof. unfold await. repeat case_match; by split. Qed.

Lemma state_of_insert st s sk sk' s' :
  sockets st !! s = Some sk -> readyState sk' = readyState sk ->
  state_of (set_sockets (<[s := sk']> (sockets st)) st) s' = state_of st s'.
Proof.
  intros Hs Hr. unfold state_of; simpl.
  destruct (decide (s = s')) as [->|Hne].
  - rewrite list_lookup_insert_eq by (by eapply lookup_lt_Some).
    by rewrite Hs, Hr.
  - by rewrite list_lookup_insert_ne.
Qed.

Lemma same_connection_transmit command payload st :
  same_connection st (transmit command payload st).
Proof.
  unfold transmit. destruct (isConnected st); [|by split].
  destruct (ws st) as [s|] eqn:Hws; simpl; rewrite Hws; [|by split].
  destruct payload as [v|]; [|by split].
  destruct (sockets st !! s) as [sk|] eqn:Hsk; simpl; rewrite ?Hsk; [|by split].
  unfold socket_send.
  destruct (readyState sk) eqn:Hr; try (by split);
    (split; try done; simpl;
     [ by rewrite length_insert
     | intros s'; by apply (state_of_insert (log (Log_sending command) st) s sk) ]).
Qed.

Lemma same_connection_resume job st : same_connection st (resume job st).
Proof.
  destruct job as [k []]; unfold resume.
  - apply (same_connection_trans _ (log Log_ready st));
      [apply same_connection_log | apply same_connection_transmit].
  - by split.
Qed.

Lemma same_connection_foldl js st :
  same_connection st (foldl (fun st job => resume job st) st js).
Proof.
  revert st. induction js as [|j js IH]; intros st; simpl.
  - apply same_connection_refl.
  - apply (same_connection_trans _ (resume j st));
      [apply same_connection_resume | apply IH].
Qed.

Lemma same_connection_drain st : same_connection st (drain st).
Proof.
  unfold drain.
  apply (same_connection_trans _ (set_jobs [] st));
    [by split | apply same_connection_foldl].
Qed.

Lemma timers_tracked_same st st' :
  same_connection st st' -> timers_tracked st -> timers_tracked st'.
Proof.
  intros Hs H. unfold timers_tracked in *.
  by rewrite (sc_timeout _ _ Hs), (sc_timers _ _ Hs).
Qed.

Lemma gate_tracked_same st st' :
  same_connection st st' -> gate_tracked st -> gate_tracked st'.
Proof.
  intros Hs H s.
  rewrite (sc_ws _ _ Hs), (sc_states _ _ Hs), (sc_promise _ _ Hs),
    (sc_promises _ _ Hs), (sc_resolve _ _ Hs).
  apply H.
Qed.

Lemma consistent_same st st' :
  same_connection st st' -> consistent st -> consistent st'.
Proof.
  intros Hs []. split.
  - by eapply timers_tracked_same.
  - by eapply gate_tracked_same.
  - unfold attempts_bounded. by rewrite (sc_attempts _ _ Hs).
  - by rewrite (sc_listeners _ _ Hs).
Qed.


(** The turns of the host, read backwards. *)
Lemma step_opens s st st' :
  step (Socket_opens s) st = Some st' ->
  state_of st s = Some CONNECTING /\
  st' = drain (onopen (set_socket_state s OPEN (drain st))).
Proof.
  unfold state_of; simpl. destruct (sockets st !! s) as [[[] [] ? ?]|]; try done.
  by intros [= <-].
Qed.

Lemma step_message s data st st' :
  step (Socket_message s data) st = Some st' ->
  state_of st s = Some OPEN /\ st' = drain (onmessage data (drain st)).
Proof.
  unfold state_of; simpl. destruct (sockets st !! s) as [[[] [] ? ?]|]; try done.
  by intros [= <-].
Qed.

Lemma step_closing s st st' :
  step (Socket_closing s) st = Some st' ->
  state_of st s = Some OPEN /\ st' = set_socket_state s CLOSING (drain st).
Proof.
  unfold state_of; simpl. destruct (sockets st !! s) as [[[] ? ? ?]|]; try done.
  by intros [= <-].
Qed.

Lemma step_closes s failed code st st' :
  step (Socket_closes s failed code) st = Some st' ->
  (exists r, state_of st s = Some r /\ r <> CLOSED) /\
  st' = drain (onclose code
                 (let st := set_socket_state s CLOSED (drain st) in
                  if failed then drain (onerror s st) else st)).
Proof.
  unfold state_of; simpl.
  destruct (sockets st !! s) as [[[] [] ? ?]|]; try done;
    intros [= <-]; (split; [eexists; split; [reflexivity|done] | done]).
Qed.

Lemma step_fires id ok st st' :
  step (Timer_fires id ok) st = Some st' ->
  is_Some (timers st !! id) /\
  st' = drain (connect ok (set_reconnectTimeoutId None
                             (clearTimeout id (drain st)))).2.
Proof.
  simpl. destruct (timers st !! id); [|done]. intros [= <-]. eauto.
Qed.


Lemma timers_tracked_drain st : timers_tracked st -> timers_tracked (drain st).
Proof. apply timers_tracked_same, same_connection_drain. Qed.

Lemma timers_tracked_onmessage data st :
  timers_tracked st -> timers_tracked (onmessage data st).
Proof. unfold onmessage. intros H. by repeat case_match. Qed.

Lemma timers_tracked_sendCommand ok command payload st :
  timers_tracked st -> timers_tracked (sendCommand ok command payload st).
Proof.
  intros H. unfold sendCommand.
  destruct (negb (isConnected st)).
  - eapply timers_tracked_same; [apply same_connection_await|].
    destruct (connectionPromise _).
    + destruct (match ws _ with Some _ => _ | None => _ end); [|exact H].
      by apply (timers_tracked_connect ok (log Log_triggering (log Log_waiting st))).
    + by apply (timers_tracked_connect ok (log Log_triggering (log Log_waiting st))).
  - eapply timers_tracked_same; [apply same_connection_transmit|done].
Qed.

Lemma timers_tracked_step l st st' :
  timers_tracked st -> step l st = Some st' -> timers_tracked st'.
Proof.
  intros H Hstep. destruct l.
  - injection Hstep as <-. by apply timers_tracked_connect.
  - injection Hstep as <-. by apply timers_tracked_disconnect.
  - injection Hstep as <-. by apply timers_tracked_sendCommand.
  - injection Hstep as <-. unfold on. by case_match.
  - injection Hstep as <-. exact H.
  - injection Hstep as <-. by apply timers_tracked_drain.
  - apply step_opens in Hstep as [_ ->].
    by apply timers_tracked_drain, timers_tracked_onopen, timers_tracked_drain.
  - apply step_message in Hstep as [_ ->].
    by apply timers_tracked_drain, timers_tracked_onmessage,
      timers_tracked_drain.
  - apply step_closing in Hstep as [_ ->].
    by apply timers_tracked_drain.
  - apply step_closes in Hstep as [_ ->].
    apply timers_tracked_drain, timers_tracked_onclose.
    destruct failed.
    + by apply timers_tracked_drain, timers_tracked_onerror,
        timers_tracked_drain.
    + by apply timers_tracked_drain.
  - apply step_fires in Hstep as [Hid ->].
    apply timers_tracked_drain, timers_tracked_connect, timers_tracked_fired.
    + by apply timers_tracked_drain.
    + by rewrite (sc_timers _ _ (same_connection_drain st)).
Qed.


Lemma same_connection_onmessage data st :
  same_connection st (onmessage data st).
Proof. unfold onmessage. repeat case_match; by split. Qed.

Lemma gate_tracked_drain st : gate_tracked st -> gate_tracked (drain st).
Proof. apply gate_tracked_same, same_connection_drain. Qed.

Lemma gate_tracked_sendCommand ok command payload st :
  gate_tracked st -> gate_tracked (sendCommand ok command payload st).
Proof.
  intros H. unfold sendCommand.
  destruct (negb (isConnected st)).
  - eapply gate_tracked_same; [apply same_connection_await|].
    destruct (connectionPromise _).
    + destruct (match ws _ with Some _ => _ | None => _ end); [|exact H].
      by apply (gate_tracked_connect ok (log Log_triggering (log Log_waiting st))).
    + by apply (gate_tracked_connect ok (log Log_triggering (log Log_waiting st))).
  - eapply gate_tracked_same; [apply same_connection_transmit|done].
Qed.

Lemma attempts_bounded_sendCommand ok command payload st :
  attempts_bounded st -> attempts_bounded (sendCommand ok command payload st).
Proof.
  intros H. unfold sendCommand. unfold attempts_bounded.
  destruct (negb (isConnected st)).
  - rewrite (sc_attempts _ _ (same_connection_await _ _ _)).
    destruct (connectionPromise _).
    + destruct (match ws _ with Some _ => _ | None => _ end); [|exact H].
      by apply (attempts_bounded_connect ok (log Log_triggering (log Log_waiting st))).
    + by apply (attempts_bounded_connect ok (log Log_triggering (log Log_waiting st))).
  - by rewrite (sc_attempts _ _ (same_connection_transmit _ _ _)).
Qed.

Lemma sendCommand_listeners ok command payload st :
  listeners (sendCommand ok command payload st) = listeners st.
Proof.
  unfold sendCommand.
  destruct (negb (isConnected st)).
  - rewrite (sc_listeners _ _ (same_connection_await _ _ _)).
    destruct (connectionPromise _).
    + destruct (match ws _ with Some _ => _ | None => _ end); [|done].
      by rewrite connect_listeners.
    + by rewrite connect_listeners.
  - by rewrite (sc_listeners _ _ (same_connection_transmit _ _ _)).
Qed.

Lemma gate_tracked_step l st st' :
  gate_tracked st -> step l st = Some st' -> gate_tracked st'.
Proof.
  intros H Hstep. destruct l.
  - injection Hstep as <-. by apply gate_tracked_connect.
  - injection Hstep as <-. by apply gate_tracked_disconnect.
  - injection Hstep as <-. by apply gate_tracked_sendCommand.
  - injection Hstep as <-. unfold on. by case_match.
  - injection Hstep as <-. exact H.
  - injection Hstep as <-. by apply gate_tracked_drain.
  - apply step_opens in Hstep as [Hs ->].
    apply gate_tracked_drain, gate_tracked_onopen.
    + by rewrite (sc_states _ _ (same_connection_drain st)).
    + by apply gate_tracked_drain.
  - apply step_message in Hstep as [_ ->].
    apply gate_tracked_drain.
    eapply gate_tracked_same; [apply same_connection_onmessage|].
    by apply gate_tracked_drain.
  - apply step_closing in Hstep as [_ ->].
    by apply gate_tracked_closing, gate_tracked_drain.
  - apply step_closes in Hstep as [_ ->].
    apply gate_tracked_drain, gate_tracked_idle, onclose_ws.
  - apply step_fires in Hstep as [Hid ->].
    by apply gate_tracked_drain, gate_tracked_connect, gate_tracked_fired,
      gate_tracked_drain.
Qed.

Lemma attempts_bounded_drain st :
  attempts_bounded st -> attempts_bounded (drain st).
Proof.
  unfold attempts_bounded.
  by rewrite (sc_attempts _ _ (same_connection_drain st)).
Qed.

Lemma attempts_bounded_step l st st' :
  attempts_bounded st -> step l st = Some st' -> attempts_bounded st'.
Proof.
  intros H Hstep. destruct l.
  - injection Hstep as <-. by apply attempts_bounded_connect.
  - injection Hstep as <-. by apply attempts_bounded_disconnect.
  - injection Hstep as <-. by apply attempts_bounded_sendCommand.
  - injection Hstep as <-. unfold on. by case_match.
  - injection Hstep as <-. exact H.
  - injection Hstep as <-. by apply attempts_bounded_drain.
  - apply step_opens in Hstep as [Hs ->].
    apply attempts_bounded_drain, attempts_bounded_onopen.
  - apply step_message in Hstep as [_ ->].
    apply attempts_bounded_drain. unfold attempts_bounded.
    rewrite (sc_attempts _ _ (same_connection_onmessage _ _)).
    by apply attempts_bounded_drain.
  - apply step_closing in Hstep as [_ ->]. by apply attempts_bounded_drain.
  - apply step_closes in Hstep as [_ ->].
    apply attempts_bounded_drain, attempts_bounded_onclose.
    destruct failed.
    + by apply attempts_bounded_drain, attempts_bounded_onerror,
        attempts_bounded_drain.
    + by apply attempts_bounded_drain.
  - apply step_fires in Hstep as [Hid ->].
    by apply attempts_bounded_drain, attempts_bounded_connect,
      attempts_bounded_drain.
Qed.

Lemma drain_listeners st : listeners (drain st) = listeners st.
Proof. apply (sc_listeners _ _ (same_connection_drain st)). Qed.

Lemma listeners_step l st st' :
  NoDup (listeners st) -> step l st = Some st' -> NoDup (listeners st').
Proof.
  intros H Hstep. destruct l.
  - injection Hstep as <-. by rewrite connect_listeners.
  - injection Hstep as <-. by rewrite disconnect_listeners.
  - injection Hstep as <-. by rewrite sendCommand_listeners.
  - injection Hstep as <-. by apply on_NoDup.
  - injection Hstep as <-. by apply off_NoDup.
  - injection Hstep as <-. by rewrite drain_listeners.
  - apply step_opens in Hstep as [Hs ->].
    by rewrite drain_listeners, onopen_listeners; simpl;
      rewrite drain_listeners.
  - apply step_message in Hstep as [_ ->].
    by rewrite drain_listeners,
      (sc_listeners _ _ (same_connection_onmessage _ _)), drain_listeners.
  - apply step_closing in Hstep as [_ ->]. simpl. by rewrite drain_listeners.
  - apply step_closes in Hstep as [_ ->].
    rewrite drain_listeners, onclose_listeners.
    destruct failed.
    + by rewrite drain_listeners, onerror_listeners; simpl;
        rewrite drain_listeners.
    + simpl. by rewrite drain_listeners.
  - apply step_fires in Hstep as [Hid ->].
    rewrite drain_listeners, connect_listeners. simpl.
    by rewrite drain_listeners.
Qed.

Lemma consistent_initial : consistent initial.
Proof.
  split.
  - done.
  - by apply gate_tracked_idle.
  - unfold attempts_bounded, maxReconnectAttempts; simpl; lia.
  - apply NoDup_nil_2.
Qed.

Lemma consistent_step l st st' :
  consistent st -> step l st = Some st' -> consistent st'.
Proof.
  intros [] Hstep. split.
  - by eapply timers_tracked_step.
  - by eapply gate_tracked_step.
  - by eapply attempts_bounded_step.
  - by eapply listeners_step.
Qed.

Lemma reachable_consistent st : reachable st -> consistent st.
Proof.
  induction 1 as [|l st st' _ IH Hstep].
  - apply consistent_initial.
  - by eapply consistent_step.
Qed.

Lemma reachable_run trace st st' :
  reachable st -> run trace st = Some st' -> reachable st'.
Proof.
  revert st. induction trace as [|l trace IH]; simpl; intros st Hr Hrun.
  - by injection Hrun as <-.
  - destruct (step l st) as [st1|] eqn:E; [|done].
    eapply IH; [|done]. by eapply reachable_step.
Qed.

End Invariants.

(** ** Inbound frames *)

Section Frames.

Context `{rt : Runtime}.

Lemma emit_invoked type arg st :
  invoked (emit type arg st)
  = invoked st ++ calls type arg (isConnected st) (listeners st).
Proof. reflexivity. Qed.

Lemma emit_emitted type arg st :
  emitted (emit type arg st)
  = emitted st ++ [{| em_event := type; em_arg := arg; em_handle := ws st |}].
Proof. reflexivity. Qed.

Lemma onmessage_well_formed data type payload frame st :
  well_formed data type payload frame ->
  onmessage data st =
    emit type (Value payload)
      (emit "message" (Value frame) (log (Log_received frame) st)).
Proof.
  intros (Hparse & Htype & Hpayload). unfold onmessage.
  by rewrite Hparse, Htype, Hpayload.
Qed.

Lemma Listener_eq l l' :
  l_type l' = l_type l -> l_fn l' = l_fn l -> l_ctx l' = l_ctx l -> l' = l.
Proof. destruct l, l'; simpl. by intros -> -> ->. Qed.

Lemma times_called_calls_count l type arg connected registry :
  times_called l (calls type arg connected registry)
  = length (filter (fun l' => l' = l /\ l_type l = type) registry).
Proof.
  unfold times_called, calls, listeners_for.
  induction registry as [|l' registry IH]; [done|].
  rewrite !filter_cons. destruct (decide (l_type l' = type)) as [Ht|Ht].
  - simpl. rewrite filter_cons. simpl.
    destruct (decide (type = l_type l /\ l_fn l' = l_fn l /\ l_ctx l' = l_ctx l))
      as [(Ht' & Hfn & Hctx)|Hi].
    + rewrite decide_True; [simpl; by f_equal|].
      split; [|done]. apply Listener_eq; congruence.
    + rewrite decide_False; [done|].
      intros [-> Ht']. by apply Hi.
  - rewrite decide_False; [done|].
    intros [-> Ht']. by apply Ht.
Qed.

Lemma filter_none {A} (P : A -> Prop) `{forall x, Decision (P x)} (xs : list A) :
  (forall x, x ∈ xs -> ~ P x) -> filter P xs = [].
Proof.
  induction xs as [|x xs IH]; intros Hno; [done|].
  rewrite filter_cons_False by (apply Hno; left).
  apply IH. intros y Hy. apply Hno. by right.
Qed.

Lemma count_NoDup (l : Listener) registry :
  NoDup registry -> l ∈ registry ->
  length (filter (fun l' => l' = l) registry) = 1%nat.
Proof.
  induction registry as [|l' registry IH]; intros Hnd Hl.
  - by apply elem_of_nil in Hl.
  - apply NoDup_cons in Hnd as [Hnotin Hnd]. rewrite filter_cons.
    apply elem_of_cons in Hl as [->|Hl].
    + rewrite decide_True by done. simpl. f_equal.
      rewrite filter_none; [done|]. by intros x Hx ->.
    + rewrite decide_False by (by intros ->). by apply IH.
Qed.

Lemma times_called_once l arg connected registry :
  NoDup registry -> l ∈ registry ->
  times_called l (calls (l_type l) arg connected registry) = 1%nat.
Proof.
  intros Hnd Hl. rewrite times_called_calls_count.
  rewrite <- (count_NoDup l registry Hnd Hl). f_equal.
  apply list_filter_iff. intros x. split; [by intros [E _]|intros E; by split].
Qed.

Lemma times_called_other l type arg connected registry :
  l_type l <> type ->
  times_called l (calls type arg connected registry) = 0%nat.
Proof.
  intros Hne. rewrite times_called_calls_count.
  rewrite filter_none; [done|]. by intros x _ [_ ?].
Qed.

Lemma times_called_app l run run' :
  times_called l (run ++ run')
  = (times_called l run + times_called l run')%nat.
Proof. unfold times_called. by rewrite filter_app, length_app. Qed.

(** C7, amended. For every well-formed inbound frame the router emits a
    generic ['message'] event carrying the full frame and then an event
    named by the frame's type carrying only the payload; the callbacks
    registered for a type are invoked in registration order; and a callback
    registered for the frame's type is invoked exactly once for that type
    per frame, unless the type is the reserved name ['message'], for which
    each subscriber is invoked twice: with the frame, then with the
    payload. *)
Theorem frame_routed (data type : string) (payload frame : JSValue)
    (st : State) :
  well_formed data type payload frame ->
  let st' := onmessage data st in
  let generic := calls "message" (Value frame) (isConnected st) (listeners st) in
  let typed := calls type (Value payload) (isConnected st) (listeners st) in
  emitted st' =
    emitted st ++
      [ {| em_event := "message"; em_arg := Value frame; em_handle := ws st |};
        {| em_event := type; em_arg := Value payload; em_handle := ws st |} ] /\
  invoked st' = invoked st ++ generic ++ typed /\
  map (fun i => (inv_fn i, inv_ctx i)) typed =
    map (fun l => (l_fn l, l_ctx l)) (listeners_for type (listeners st)) /\
  same_connection st st' /\
  (forall l, NoDup (listeners st) -> l ∈ listeners st -> l_type l = type ->
     times_called l (generic ++ typed)
     = if decide (type = "message") then 2%nat else 1%nat).
Proof.
  intros Hwf st' generic typed. subst st'.
  rewrite (onmessage_well_formed _ _ _ _ _ Hwf).
  split; [|split; [|split; [|split]]].
  - rewrite !emit_emitted. simpl. by rewrite <- app_assoc.
  - rewrite !emit_invoked. simpl. by rewrite <- app_assoc.
  - unfold typed, calls. rewrite map_map. done.
  - by split.
  - intros l Hnd Hl <-. rewrite times_called_app.
    unfold typed. rewrite times_called_once by done.
    unfold generic. case_decide as Hm.
    + rewrite <- Hm. by rewrite times_called_once.
    + by rewrite times_called_other.
Qed.

(** C8. A frame whose text is not valid JSON reaches no subscriber: the
    only trace of it is one diagnostic entry on the console; the socket
    handle, the counter and the promise are as before. *)
Theorem malformed_frame_dropped (data : string) (st : State) :
  JSON_parse data = None ->
  let st' := onmessage data st in
  invoked st' = invoked st /\ emitted st' = emitted st /\
  console st' = console st ++ [Err_parse_failed data] /\
  ws st' = ws st /\ sockets st' = sockets st /\
  reconnectAttempts st' = reconnectAttempts st /\
  reconnectTimeoutId st' = reconnectTimeoutId st /\
  timers st' = timers st /\
  connectionPromise st' = connectionPromise st /\
  resolveConnectionPromise st' = resolveConnectionPromise st /\
  rejectConnectionPromise st' = rejectConnectionPromise st /\
  promises st' = promises st /\
  st' = log (Err_parse_failed data) st.
Proof. intros Hparse. unfold onmessage. rewrite Hparse. by repeat split. Qed.

End Frames.

(** C7 as it was stated, refuted: with one callback registered for
    ['message'], a well-formed frame of type ['message'] calls it twice. *)
Lemma message_frame_calls_twice :
  let f := {| l_type := "message"; l_fn := 7; l_ctx := 0 |} in
  let frame := JObject [("type", JString "message"); ("payload", JNull)] in
  let data := Reference.stringify frame in
  let st := on "message" 7 0 initial in
  well_formed (rt := Reference.runtime) data "message" JNull frame /\
  f ∈ listeners st /\
  invoked (onmessage (rt := Reference.runtime) data st) =
    [ {| inv_event := "message"; inv_fn := 7; inv_ctx := 0;
         inv_arg := Value frame; inv_isConnected := false |};
      {| inv_event := "message"; inv_fn := 7; inv_ctx := 0;
         inv_arg := Value JNull; inv_isConnected := false |} ] /\
  times_called f (invoked (onmessage (rt := Reference.runtime) data st))
  = 2%nat.
Proof.
  split; [by vm_compute|]. split; [apply list_elem_of_singleton; reflexivity|].
  split; by vm_compute.
Qed.

Lemma frame_routed_witness :
  let frame :=
    JObject [("type", JString "description");
             ("payload", JObject [("description", JString "A dark room.")])] in
  let st := on "description" 1 0 (on "message" 2 0 initial) in
  invoked (onmessage (rt := Reference.runtime) Reference.description_frame st) =
    [ {| inv_event := "message"; inv_fn := 2; inv_ctx := 0;
         inv_arg := Value frame; inv_isConnected := false |};
      {| inv_event := "description"; inv_fn := 1; inv_ctx := 0;
         inv_arg := Value (JObject [("description", JString "A dark room.")]);
         inv_isConnected := false |} ].
Proof.
  intros frame st.
  destruct (frame_routed (rt := Reference.runtime) Reference.description_frame
              "description"
              (JObject [("description", JString "A dark room.")]) frame st)
    as (_ & Hinv & _).
  - by vm_compute.
  - rewrite Hinv. by vm_compute.
Defined.

Lemma malformed_frame_dropped_witness :
  invoked (onmessage (rt := Reference.runtime) "not json" initial) = [] /\
  console (onmessage (rt := Reference.runtime) "not json" initial)
  = [Err_parse_failed "not json"].
Proof.
  destruct (malformed_frame_dropped (rt := Reference.runtime) "not json" initial)
    as (Hi & _ & Hc & _); [by vm_compute|].
  by rewrite Hi, Hc.
Defined.

(** ** The ['disconnected'] event *)

(** C10. Both in the socket's close callback and in [disconnect], the
    handle is already [null] when ['disconnected'] is emitted, and every
    subscriber of the event is called with [isConnected()] false. When
    [disconnect] throws it has emitted nothing. *)
Theorem disconnected_after_handle_cleared (st : State) (code : Z)
    (reason : string) :
  let gone := {| em_event := "disconnected"; em_arg := NoArg;
                 em_handle := None |} in
  let told := calls "disconnected" NoArg false (listeners st) in
  (emitted (onclose code st) = emitted st ++ [gone] /\
   invoked (onclose code st) = invoked st ++ told) /\
  match disconnect reason st with
  | Returns st' =>
      emitted st' = emitted st ++ [gone] /\ invoked st' = invoked st ++ told
  | Throws st' => emitted st' = emitted st /\ invoked st' = invoked st
  end.
Proof.
  intros gone told. split.
  - rewrite onclose_eq.
    assert (emitted (hung_up code st) = emitted st ++ [gone] /\
            invoked (hung_up code st) = invoked st ++ told) as [He Hi]
      by (unfold hung_up; case_match; by fields).
    case_bool_decide; fields; by rewrite ?He, ?Hi.
  - rewrite disconnect_eq. simpl.
    assert (emitted (cancelled st) = emitted st) as He
      by (unfold cancelled; by case_match).
    assert (invoked (cancelled st) = invoked st) as Hi
      by (unfold cancelled; by case_match).
    assert (listeners (cancelled st) = listeners st) as Hl
      by (unfold cancelled; by case_match).
    destruct (ws st) eqn:Hws.
    + destruct (close_accepts reason); simpl; by rewrite He, Hi, ?Hl.
    + unfold emit, isConnected; simpl.
      by rewrite cancelled_ws, Hws, He, Hi, Hl.
Qed.

(** ** Opening, and connecting again *)

Section Connecting.

Context `{rt : Runtime}.

Lemma isConnected_same st st' :
  same_connection st st' -> isConnected st' = isConnected st.
Proof.
  intros Hs. unfold isConnected. rewrite (sc_ws _ _ Hs).
  destruct (ws st); [|done]. by rewrite (sc_states _ _ Hs).
Qed.

Lemma onopen_reconnectAttempts st : reconnectAttempts (onopen st) = 0%nat.
Proof. unfold onopen. case_match; by fields. Qed.

Lemma onopen_emitted st :
  emitted (onopen st)
  = emitted st ++ [{| em_event := "connected"; em_arg := NoArg;
                      em_handle := ws st |}].
Proof. unfold onopen. case_match; by fields. Qed.

Lemma onopen_invoked st :
  invoked (onopen st)
  = invoked st ++ calls "connected" NoArg (isConnected st) (listeners st).
Proof. unfold onopen. case_match; by fields. Qed.

(** The part of C9 that holds in every reachable state. When the socket
    the service holds goes from CONNECTING to OPEN, the callback leaves
    the counter at 0, the promise of the attempt fulfilled, and has
    emitted ['connected'] to the subscribers, who see the service
    connected. The checkpoint that follows changes none of this. *)
Theorem open_resets_and_resolves (st st' : State) (s : nat) :
  reachable st -> ws st = Some s ->
  step (Socket_opens s) st = Some st' ->
  let before := set_socket_state s OPEN (drain st) in
  st' = drain (onopen before) /\
  reconnectAttempts (onopen before) = 0%nat /\
  reconnectAttempts st' = 0%nat /\
  (exists p, connectionPromise st = Some p /\
             connectionPromise st' = Some p /\
             promises st' !! p = Some Fulfilled) /\
  emitted (onopen before) =
    emitted before ++ [{| em_event := "connected"; em_arg := NoArg;
                          em_handle := Some s |}] /\
  invoked (onopen before) =
    invoked before ++ calls "connected" NoArg true (listeners st) /\
  isConnected st' = true.
Proof.
  intros Hreach Hws Hstep.
  apply step_opens in Hstep as [Hs ->]. intros before. subst before.
  set (before := set_socket_state s OPEN (drain st)).
  pose proof (same_connection_drain st) as Hd.
  pose proof (same_connection_drain (onopen before)) as Hd'.
  assert (gate_tracked (drain st)) as Hg
    by (apply gate_tracked_drain, reachable_consistent, Hreach).
  assert (ws before = Some s) as Hwsb
    by (unfold before; simpl; by rewrite (sc_ws _ _ Hd)).
  assert (state_of before s = Some OPEN) as Hopen.
  { unfold before. rewrite state_of_set_socket_state, decide_True by done.
    by rewrite (sc_states _ _ Hd), Hs. }
  assert (isConnected before = true) as Hcon
    by (unfold isConnected; rewrite Hwsb; by apply bool_decide_eq_true).
  split; [done|]. split; [apply onopen_reconnectAttempts|].
  split; [by rewrite (sc_attempts _ _ Hd'), onopen_reconnectAttempts|].
  split.
  - destruct (Hg s) as [_ H2]; [by rewrite (sc_ws _ _ Hd)|].
    destruct H2 as (p & Hp & Hgate); [by rewrite (sc_states _ _ Hd)|].
    exists p. rewrite (sc_promise _ _ Hd) in Hp. split; [done|].
    rewrite (sc_promise _ _ Hd'), (sc_promises _ _ Hd'),
      onopen_connectionPromise.
    split; [unfold before; simpl; by rewrite (sc_promise _ _ Hd)|].
    by apply onopen_fulfilled.
  - split; [by rewrite onopen_emitted, Hwsb|].
    split.
    + rewrite onopen_invoked, Hcon. unfold before; simpl.
      by rewrite (sc_listeners _ _ Hd).
    + rewrite (isConnected_same _ _ Hd'). unfold isConnected.
      rewrite onopen_ws, Hwsb, (state_of_ext _ _ _ (onopen_sockets _)).
      by apply bool_decide_eq_true.
Qed.


Lemma busy_ext st st' :
  ws st' = ws st -> (forall x, state_of st' x = state_of st x) ->
  busy st' = busy st.
Proof.
  intros Hws Hs. unfold busy. rewrite Hws. destruct (ws st); [|done].
  by rewrite !Hs.
Qed.

Lemma bound_to_ext s p st st' :
  (length (sockets st) <= length (sockets st'))%nat -> ws st' = ws st ->
  (forall x, state_of st' x = state_of st x) ->
  connectionPromise st' = connectionPromise st ->
  bound_to s p st -> bound_to s p st'.
Proof.
  intros Hlen Hws Hs Hp [Hlt H]. split; [lia|].
  rewrite Hws, Hp, (busy_ext st st') by done. exact H.
Qed.

Lemma bound_to_same s p st st' :
  same_connection st st' -> bound_to s p st -> bound_to s p st'.
Proof.
  intros Hs. apply bound_to_ext; try apply Hs. by rewrite (sc_count _ _ Hs).
Qed.

Lemma bound_to_released s p st st' :
  (length (sockets st) <= length (sockets st'))%nat ->
  (ws st' = Some s -> busy st' = false) ->
  bound_to s p st -> bound_to s p st'.
Proof.
  intros Hlen Hfree [Hlt _]. split; [lia|].
  intros Hws Hb. rewrite Hfree in Hb; done.
Qed.

Lemma cancelled_same_gate st :
  ws (cancelled st) = ws st /\ sockets (cancelled st) = sockets st /\
  connectionPromise (cancelled st) = connectionPromise st /\
  promises (cancelled st) = promises st.
Proof. unfold cancelled. by case_match. Qed.

Lemma bound_to_cancelled s p st :
  bound_to s p st -> bound_to s p (cancelled st).
Proof.
  destruct (cancelled_same_gate st) as (Hws & Hs & Hp & _).
  apply bound_to_ext; try done; [by rewrite Hs|].
  intros x. by apply state_of_ext.
Qed.

Lemma bound_to_connect s p ok st :
  bound_to s p st -> bound_to s p (connect ok st).2.
Proof.
  intros H%bound_to_cancelled.
  destruct (busy (cancelled st)) eqn:B.
  - rewrite connect_busy by done.
    destruct (connectionPromise st); simpl; revert H;
      by apply bound_to_ext.
  - rewrite connect_idle by done. destruct ok; simpl.
    + destruct H as [Hlt _]. split.
      * unfold opened; simpl. rewrite length_alter, length_app. lia.
      * intros [= <-]. simpl in Hlt. lia.
    + revert H. apply bound_to_released.
      * unfold refused. by fields.
      * intros _. rewrite <- B. apply busy_ext; unfold refused; [by fields|].
        intros x. apply state_of_ext. by fields.
Qed.

Lemma bound_to_disconnect s p reason st :
  bound_to s p st -> bound_to s p (final (disconnect reason st)).
Proof.
  intros H%bound_to_cancelled. rewrite disconnect_eq. simpl.
  destruct (cancelled_same_gate st) as (Hws & Hs & Hp & _).
  destruct (ws st) eqn:E.
  - destruct (close_accepts reason); simpl.
    + revert H. apply bound_to_released; [|done].
      simpl. by rewrite length_alter, Hs.
    + revert H. by apply bound_to_ext.
  - revert H. by apply bound_to_ext.
Qed.

Lemma bound_to_sendCommand s p ok command payload st :
  bound_to s p st -> bound_to s p (sendCommand ok command payload st).
Proof.
  intros H. unfold sendCommand.
  destruct (negb (isConnected st)).
  - eapply bound_to_same; [apply same_connection_await|].
    destruct (connectionPromise _).
    + destruct (match ws _ with Some _ => _ | None => _ end); [|exact H].
      by apply (bound_to_connect s p ok (log Log_triggering (log Log_waiting st))).
    + by apply (bound_to_connect s p ok (log Log_triggering (log Log_waiting st))).
  - eapply bound_to_same; [apply same_connection_transmit|done].
Qed.

Lemma busy_true st s :
  ws st = Some s -> busy st = true ->
  state_of st s = Some OPEN \/ state_of st s = Some CONNECTING.
Proof.
  unfold busy. intros ->.
  intros [H%bool_decide_eq_true|H%bool_decide_eq_true]%orb_true_iff; eauto.
Qed.

Lemma busy_connecting st s :
  ws st = Some s -> state_of st s = Some CONNECTING -> busy st = true.
Proof.
  unfold busy. intros -> ->. apply orb_true_iff. right.
  by apply bool_decide_eq_true.
Qed.

Lemma busy_open st s :
  ws st = Some s -> state_of st s = Some OPEN -> busy st = true.
Proof.
  unfold busy. intros -> ->. apply orb_true_iff. left.
  by apply bool_decide_eq_true.
Qed.

Lemma bound_to_onopen s p s' st :
  state_of st s' = Some CONNECTING -> bound_to s p st ->
  bound_to s p (onopen (set_socket_state s' OPEN st)).
Proof.
  intros Hs' [Hlt H]. split.
  - rewrite onopen_sockets. simpl. by rewrite length_alter.
  - rewrite onopen_ws, onopen_connectionPromise.
    change (ws (set_socket_state s' OPEN st)) with (ws st).
    change (connectionPromise (set_socket_state s' OPEN st))
      with (connectionPromise st).
    intros Hws Hb. apply H; [done|].
    apply (busy_true _ s) in Hb; [|by rewrite onopen_ws].
    rewrite !(state_of_ext _ _ _ (onopen_sockets _)),
      !state_of_set_socket_state in Hb.
    destruct (decide (s' = s)) as [->|Hne].
    + by apply (busy_connecting _ s).
    + destruct Hb; [by apply (busy_open _ s)|by apply (busy_connecting _ s)].
Qed.

Lemma bound_to_closing s p s' st :
  bound_to s p st -> bound_to s p (set_socket_state s' CLOSING st).
Proof.
  intros [Hlt H]. split; [simpl; by rewrite length_alter|].
  change (ws (set_socket_state s' CLOSING st)) with (ws st).
  change (connectionPromise (set_socket_state s' CLOSING st))
    with (connectionPromise st).
  intros Hws Hb. apply H; [done|].
  apply (busy_true _ s) in Hb; [|done].
  rewrite !state_of_set_socket_state in Hb.
  destruct (decide (s' = s)) as [->|Hne].
  - destruct (state_of st s); by destruct Hb.
  - destruct Hb; [by apply (busy_open _ s)|by apply (busy_connecting _ s)].
Qed.

Lemma drain_length st : length (sockets (drain st)) = length (sockets st).
Proof. apply (sc_count _ _ (same_connection_drain st)). Qed.

Lemma onerror_sockets s st : sockets (onerror s st) = sockets st.
Proof. unfold onerror. case_match; by fields. Qed.

Lemma onclose_sockets code st : sockets (onclose code st) = sockets st.
Proof.
  rewrite onclose_eq.
  assert (sockets (hung_up code st) = sockets st) as H
    by (unfold hung_up; case_match; by fields).
  case_bool_decide; by fields.
Qed.

Lemma bound_to_step s p l st st' :
  bound_to s p st -> step l st = Some st' -> bound_to s p st'.
Proof.
  intros H Hstep. destruct l.
  - injection Hstep as <-. by apply bound_to_connect.
  - injection Hstep as <-. by apply bound_to_disconnect.
  - injection Hstep as <-. by apply bound_to_sendCommand.
  - injection Hstep as <-. unfold on. by case_match.
  - injection Hstep as <-. exact H.
  - injection Hstep as <-. by eapply bound_to_same, H; apply same_connection_drain.
  - apply step_opens in Hstep as [Hs ->].
    eapply bound_to_same; [apply same_connection_drain|].
    apply bound_to_onopen.
    + by rewrite (sc_states _ _ (same_connection_drain st)).
    + by eapply bound_to_same, H; apply same_connection_drain.
  - apply step_message in Hstep as [_ ->].
    eapply bound_to_same; [apply same_connection_drain|].
    eapply bound_to_same; [apply same_connection_onmessage|].
    by eapply bound_to_same, H; apply same_connection_drain.
  - apply step_closing in Hstep as [_ ->].
    apply bound_to_closing.
    by eapply bound_to_same, H; apply same_connection_drain.
  - apply step_closes in Hstep as [_ ->].
    revert H. apply bound_to_released.
    + rewrite drain_length, onclose_sockets.
      destruct failed; simpl.
      * by rewrite drain_length, onerror_sockets; simpl;
          rewrite length_alter, drain_length.
      * by rewrite length_alter, drain_length.
    + rewrite (sc_ws _ _ (same_connection_drain _)), onclose_ws. done.
  - apply step_fires in Hstep as [Hid ->].
    eapply bound_to_same; [apply same_connection_drain|].
    apply bound_to_connect.
    eapply (bound_to_ext _ _ (drain st)); try done.
    by eapply bound_to_same, H; apply same_connection_drain.
Qed.

Lemma bound_to_run s p trace st st' :
  bound_to s p st -> run trace st = Some st' -> bound_to s p st'.
Proof.
  revert st. induction trace as [|l trace IH]; simpl; intros st H Hrun.
  - by injection Hrun as <-.
  - destruct (step l st) as [st1|] eqn:E; [|done].
    eapply IH; [|done]. by eapply bound_to_step.
Qed.

(** A [connect] that goes ahead returns a new promise and holds a new
    socket, bound to each other. *)
Lemma connect_starts st :
  busy (cancelled st) = false ->
  let s := length (sockets st) in
  let p := length (promises st) in
  (connect true st).1 = p /\
  ws (connect true st).2 = Some s /\
  state_of (connect true st).2 s = Some CONNECTING /\
  promises (connect true st).2 !! p = Some Pending /\
  length (sockets (connect true st).2) = S (length (sockets st)) /\
  bound_to s p (connect true st).2.
Proof.
  intros B s p. rewrite connect_idle by done. simpl.
  destruct (cancelled_same_gate st) as (Hws & Hs & Hp & Hps).
  assert (length (sockets (opened (attempt (cancelled st))))
          = S (length (sockets st))) as Hlen.
  { unfold opened; simpl. rewrite length_alter, length_app, Hs. simpl. lia. }
  split; [done|]. split; [by unfold opened; simpl; rewrite Hs|].
  split.
  { unfold s. rewrite <- Hs. apply (state_of_opened (attempt (cancelled st))). }
  split; [simpl; by rewrite Hps, lookup_app_r, Nat.sub_diag|].
  split; [done|]. split; [rewrite Hlen; unfold s; lia|].
  intros _ _. simpl. by rewrite Hps.
Qed.


Lemma busy_cancelled st : busy (cancelled st) = busy st.
Proof.
  destruct (cancelled_same_gate st) as (Hws & Hs & _).
  apply busy_ext; [done|]. intros x. by apply state_of_ext.
Qed.

Lemma cancelled_reconnectTimeoutId st :
  reconnectTimeoutId (cancelled st) = None.
Proof. unfold cancelled. by destruct (reconnectTimeoutId st) eqn:E. Qed.

Lemma cancelled_idem st : cancelled (cancelled st) = cancelled st.
Proof.
  unfold cancelled. destruct (reconnectTimeoutId st) eqn:E; simpl; by rewrite ?E.
Qed.

Lemma cancelled_none st : reconnectTimeoutId st = None -> cancelled st = st.
Proof. unfold cancelled. by intros ->. Qed.

Lemma isConnected_busy st : isConnected st = true -> busy st = true.
Proof.
  unfold isConnected, busy. destruct (ws st); [|done].
  intros ->. done.
Qed.

(** [connect()] twice in a row: the second call returns the promise of
    the first, still pending, and creates nothing. *)
Lemma connect_twice st0 ok :
  busy (cancelled st0) = false ->
  (connect ok (connect true st0).2).1 = (connect true st0).1 /\
  promises (connect ok (connect true st0).2).2 !! (connect true st0).1
    = Some Pending /\
  sockets (connect ok (connect true st0).2).2 = sockets (connect true st0).2.
Proof.
  intros B.
  destruct (connect_starts st0 B) as (H1 & Hws & Hst & Hpend & _ & [_ Hb]).
  pose proof (busy_connecting _ _ Hws Hst) as Hbusy.
  specialize (Hb Hws Hbusy).
  destruct (cancelled_same_gate (connect true st0).2) as (_ & Hs & _ & Hps).
  rewrite connect_busy by (by rewrite busy_cancelled).
  rewrite Hb, H1. cbn. by rewrite Hps, Hs.
Qed.

(** The part of C2 that holds in every reachable state. While the
    service holds a socket that is open or connecting, [connect()]
    creates no socket and no promise and returns the promise it already
    has: fulfilled when the socket is open, and the very promise
    returned by the call that created the socket, whatever happened in
    between; called right after that call, it returns its promise still
    pending. Calling it again changes nothing but the console. *)
Theorem connect_idempotent (st : State) (ok : bool) :
  reachable st -> busy st = true ->
  exists p,
    connectionPromise st = Some p /\
    connect ok st = (p, log Log_already_connected (cancelled st)) /\
    sockets (connect ok st).2 = sockets st /\
    ws (connect ok st).2 = ws st /\
    promises (connect ok st).2 = promises st /\
    (isConnected st = true -> promises st !! p = Some Fulfilled) /\
    (forall ok',
       connect ok' (connect ok st).2
       = (p, log Log_already_connected (connect ok st).2)) /\
    (forall st0 trace,
       busy (cancelled st0) = false ->
       run trace (connect true st0).2 = Some st ->
       ws st = Some (length (sockets st0)) ->
       (connect true st0).1 = p) /\
    (forall st0 ok',
       busy (cancelled st0) = false ->
       (connect ok' (connect true st0).2).1 = (connect true st0).1 /\
       promises (connect ok' (connect true st0).2).2 !! (connect true st0).1
         = Some Pending /\
       sockets (connect ok' (connect true st0).2).2
         = sockets (connect true st0).2).
Proof.
  intros Hreach Hbusy.
  destruct (cancelled_same_gate st) as (Hws & Hs & Hp & Hps).
  pose proof (c_gate _ (reachable_consistent _ Hreach)) as Hg.
  destruct (ws st) as [s|] eqn:Es; [|unfold busy in Hbusy; by rewrite Es in Hbusy].
  destruct (Hg s Es) as [Hopen Hconn].
  assert (exists p, connectionPromise st = Some p) as [p Ep].
  { destruct (busy_true _ _ Es Hbusy) as [E|E].
    - destruct (Hopen E) as (p & ? & _); eauto.
    - destruct (Hconn E) as (p & ? & _); eauto. }
  assert (connect ok st = (p, log Log_already_connected (cancelled st))) as Ec.
  { rewrite connect_busy by (by rewrite busy_cancelled). by rewrite Ep. }
  exists p. rewrite Ec. simpl.
  do 5 (split; [done|]). split; [|split; [|split]].
  - intros Hc. unfold isConnected in Hc. rewrite Es in Hc.
    apply bool_decide_eq_true in Hc.
    destruct (Hopen Hc) as (p' & Ep' & Hf). congruence.
  - intros ok'. rewrite connect_busy.
    + rewrite (cancelled_none (log _ _)) by apply cancelled_reconnectTimeoutId.
      change (connectionPromise (log Log_already_connected (cancelled st)))
        with (connectionPromise (cancelled st)).
      by rewrite Hp, Ep.
    + rewrite busy_cancelled. rewrite <- Hbusy, <- (busy_cancelled st).
      by apply busy_ext.
  - intros st0 trace B Hrun Hws0.
    destruct (connect_starts st0 B) as (-> & _ & _ & _ & _ & Hb).
    destruct (bound_to_run _ _ _ _ _ Hb Hrun) as [_ H].
    rewrite Ep in H. injection Hws0 as ->. by injection (H Es Hbusy).
  - intros st0 ok' B. by apply connect_twice.
Qed.

End Connecting.

Lemma connect_idempotent_witness :
  let st := (connect true initial).2 in
  exists p, connectionPromise st = Some p /\
            connect true st = (p, log Log_already_connected (cancelled st)).
Proof.
  intros st.
  destruct (connect_idempotent (rt := Reference.runtime) st true)
    as (p & Hp & Hc & _).
  - apply (reachable_step (Call_connect true) initial); [constructor|done].
  - by vm_compute.
  - by exists p.
Defined.

Lemma open_resets_and_resolves_witness :
  exists st st',
    run (rt := Reference.runtime)
      [Call_connect true; Socket_closes 0 true 1006; Timer_fires 1 true]
      initial = Some st /\
    reconnectAttempts st = 1%nat /\
    step (rt := Reference.runtime) (Socket_opens 1) st = Some st' /\
    reconnectAttempts st' = 0%nat /\ isConnected st' = true.
Proof.
  destruct (run (rt := Reference.runtime)
              [Call_connect true; Socket_closes 0 true 1006;
               Timer_fires 1 true] initial) as [st|] eqn:E;
    [|by vm_compute in E].
  destruct (step (rt := Reference.runtime) (Socket_opens 1) st)
    as [st'|] eqn:E'.
  2: { vm_compute in E. injection E as <-. by vm_compute in E'. }
  exists st, st'. split; [done|].
  assert (reconnectAttempts st = 1%nat /\ ws st = Some 1%nat) as [Hn Hws]
    by (vm_compute in E; by injection E as <-).
  split; [done|]. split; [done|].
  destruct (open_resets_and_resolves (rt := Reference.runtime) st st' 1%nat)
    as (_ & _ & Hc & _ & _ & _ & Hi); [|done|done|by split].
  by apply (reachable_run _ initial _ (reachable_initial) E).
Defined.

(** C2, at the input on which the code fails it. An attempt is abandoned
    by [disconnect] and a second one is started; the first socket fails,
    which drops the handle of the second; a third attempt is started and
    returns promise 2, pending. Then the second socket opens: its
    [onopen] finds the resolver of the third attempt installed and calls
    it. The service now holds socket 2, still connecting, and
    [connect()] creates nothing and returns promise 2 as before, but
    fulfilled. A command that waits for it is told that the connection
    is ready and then that it is not. *)
Theorem connect_while_connecting_returns_fulfilled_promise :
  exists st0 st st',
    run (rt := Reference.runtime) abandoned_attempt initial = Some st0 /\
    (connect true st0).1 = 2%nat /\
    promises (connect true st0).2 !! 2%nat = Some Pending /\
    step (rt := Reference.runtime) (Socket_opens 1) (connect true st0).2
      = Some st /\
    ws st = Some 2%nat /\
    map readyState (sockets st) = [CLOSED; OPEN; CONNECTING] /\
    busy st = true /\ isConnected st = false /\
    (connect true st).1 = 2%nat /\
    sockets (connect true st).2 = sockets st /\
    promises (connect true st).2
      = [Pending; Rejected ErrorDuringAttempt; Fulfilled] /\
    run (rt := Reference.runtime) [look; Tick] st = Some st' /\
    map sentFrames (sockets st') = [[]; []; []] /\
    console st' = console st ++ [Log_waiting; Log_ready; Err_cannot_send] /\
    emitted st' =
      emitted st ++
        [{| em_event := "error";
            em_arg := ErrorMessage
                        "Cannot send command, WebSocket is not connected.";
            em_handle := Some 2%nat |}].
Proof.
  eexists. eexists. eexists. split; [by vm_compute|].
  do 2 (split; [by vm_compute|]). split; [by vm_compute|].
  do 7 (split; [by vm_compute|]). split; [by vm_compute|].
  by vm_compute.
Qed.

(** C9, at the input on which the code fails it. With the first attempt
    abandoned by [disconnect] and a second one under way, the first
    socket fails: its [onerror] rejects the promise of the second attempt
    and removes the resolver, its [onclose] drops the handle. Then the
    second socket opens. [onopen] resets the counter and emits
    ['connected'], but there is no resolver left to call: the promise of
    the attempt that has just succeeded stays rejected, and
    [isConnected()] answers false. *)
Theorem open_of_abandoned_socket_leaves_promise_rejected :
  exists st st',
    run (rt := Reference.runtime) abandoned_attempt initial = Some st /\
    map readyState (sockets st) = [CLOSED; CONNECTING] /\
    ws st = None /\ reconnectAttempts st = maxReconnectAttempts /\
    connectionPromise st = Some 1%nat /\
    resolveConnectionPromise st = None /\
    promises st = [Pending; Rejected ErrorDuringAttempt] /\
    step (rt := Reference.runtime) (Socket_opens 1) st = Some st' /\
    map readyState (sockets st') = [CLOSED; OPEN] /\
    reconnectAttempts st' = 0%nat /\
    emitted st' =
      emitted st ++ [{| em_event := "connected"; em_arg := NoArg;
                        em_handle := None |}] /\
    connectionPromise st' = Some 1%nat /\
    promises st' = [Pending; Rejected ErrorDuringAttempt] /\
    ws st' = None /\ isConnected st' = false.
Proof.
  eexists. eexists. split; [by vm_compute|].
  do 6 (split; [by vm_compute|]). split; [by vm_compute|].
  by vm_compute.
Qed.

(** ** Reconnecting *)

Section Reconnecting.

Context `{rt : Runtime}.

Lemma pacing_same st st' : same_connection st st' -> pacing st' = pacing st.
Proof. intros []. unfold pacing. congruence. Qed.

Lemma pacing_onerror s st : pacing (onerror s st) = pacing st.
Proof. unfold pacing, onerror. case_match; by fields. Qed.

Lemma pacing_hung_up code st : pacing (hung_up code st) = pacing st.
Proof. unfold pacing, hung_up. case_match; by fields. Qed.

Lemma pacing_closing_down s failed st :
  pacing (closing_down s failed st) = pacing st.
Proof.
  unfold closing_down. destruct failed.
  - rewrite (pacing_same _ _ (same_connection_drain _)), pacing_onerror.
    apply (pacing_same st (drain st)), same_connection_drain.
  - apply (pacing_same st (drain st)), same_connection_drain.
Qed.

Lemma step_closes_pacing s failed code st st' :
  step (Socket_closes s failed code) st = Some st' ->
  exists st1, pacing st1 = pacing st /\
    pacing st' = pacing (if bool_decide (code <> 1000%Z)
                         then scheduleReconnect st1 else st1).
Proof.
  intros [_ ->]%step_closes. fold (closing_down s failed st).
  exists (hung_up code (closing_down s failed st)). split.
  - by rewrite pacing_hung_up, pacing_closing_down.
  - by rewrite (pacing_same _ _ (same_connection_drain _)), onclose_eq.
Qed.

Lemma scheduleReconnect_exhausted st :
  (maxReconnectAttempts <= reconnectAttempts st)%nat ->
  scheduleReconnect st = log Err_max_attempts st.
Proof.
  intros H. unfold scheduleReconnect.
  by destruct (Nat.leb_spec maxReconnectAttempts (reconnectAttempts st)); [|lia].
Qed.

Lemma scheduleReconnect_pending st id :
  reconnectTimeoutId st = Some id ->
  scheduleReconnect st = st \/ scheduleReconnect st = log Err_max_attempts st.
Proof.
  intros H. unfold scheduleReconnect. rewrite H. case_match; eauto.
Qed.

Lemma scheduleReconnect_one st :
  timers_tracked st ->
  (reconnectAttempts st < maxReconnectAttempts)%nat ->
  exists id d, timers (scheduleReconnect st) = {[ id := d ]} /\
               reconnectTimeoutId (scheduleReconnect st) = Some id.
Proof.
  intros Ht Hlt. unfold timers_tracked in Ht.
  destruct (reconnectTimeoutId st) as [id|] eqn:E.
  - destruct Ht as [d Ht]. exists id, d.
    destruct (scheduleReconnect_pending st id E) as [->| ->]; by simpl.
  - destruct (scheduleReconnect_schedules st Hlt E) as (_ & Hid & Hti & _).
    rewrite Hti, Hid, Ht. eexists _, _. split; [|done].
    apply insert_empty.
Qed.

Lemma timers_tracked_pacing st st' :
  pacing st' = pacing st -> timers_tracked st -> timers_tracked st'.
Proof. intros [= Ht Hid _]. by apply timers_tracked_ext. Qed.

Lemma timers_at_most_one st : reachable st -> (size (timers st) <= 1)%nat.
Proof.
  intros Hreach.
  pose proof (c_timers _ (reachable_consistent _ Hreach)) as Ht.
  unfold timers_tracked in Ht. destruct (reconnectTimeoutId st).
  - destruct Ht as [d ->]. by rewrite map_size_singleton.
  - rewrite Ht, map_size_empty. lia.
Qed.

Lemma closure_schedules st s failed code st' :
  reachable st ->
  step (Socket_closes s failed code) st = Some st' -> code <> 1000%Z ->
  if decide (reconnectAttempts st < maxReconnectAttempts)%nat
  then size (timers st') = 1%nat /\
       exists id, reconnectTimeoutId st' = Some id /\
                  is_Some (timers st' !! id)
  else pacing st' = pacing st.
Proof.
  intros Hreach Hstep Hcode.
  pose proof (c_timers _ (reachable_consistent _ Hreach)) as Ht.
  destruct (step_closes_pacing _ _ _ _ _ Hstep) as (st1 & H1 & H').
  rewrite bool_decide_true in H' by done.
  assert (timers_tracked st1) as Ht1 by (by eapply timers_tracked_pacing).
  case_decide as Hlt.
  - injection H1 as Hti Hid Hn.
    destruct (scheduleReconnect_one st1 Ht1) as (id & d & Hs & Hi); [lia|].
    injection H' as -> -> _. rewrite Hs, Hi, map_size_singleton.
    split; [done|]. exists id. split; [done|].
    rewrite lookup_singleton_eq. by eexists.
  - rewrite H', <- H1. rewrite scheduleReconnect_exhausted; [done|].
    injection H1 as _ _ ->. lia.
Qed.

Lemma connect_cancels st ok :
  reachable st ->
  connect ok st = connect ok (cancelled st) /\
  timers (cancelled st) = ∅ /\ reconnectTimeoutId (cancelled st) = None /\
  timers (connect true st).2 = ∅.
Proof.
  intros Hreach.
  pose proof (c_timers _ (reachable_consistent _ Hreach)) as Ht.
  assert (timers (cancelled st) = ∅) as Hc.
  { pose proof (timers_tracked_cancelled _ Ht) as Ht'.
    unfold timers_tracked in Ht'.
    by rewrite cancelled_reconnectTimeoutId in Ht'. }
  split; [|split; [done|split; [apply cancelled_reconnectTimeoutId|]]].
  - destruct (busy (cancelled st)) eqn:B.
    + rewrite !connect_busy, cancelled_idem by (by rewrite ?cancelled_idem).
      destruct (cancelled_same_gate st) as (_ & _ & -> & ->). done.
    + rewrite !connect_idle, cancelled_idem by (by rewrite ?cancelled_idem).
      destruct (cancelled_same_gate st) as (_ & _ & _ & ->). done.
  - destruct (busy (cancelled st)) eqn:B.
    + rewrite connect_busy by done. by case_match.
    + rewrite connect_idle by done. done.
Qed.

(** C3, amended. At most one reconnect timer is outstanding at any time.
    After a closure with a code other than 1000 exactly one is
    outstanding provided the counter is below the maximum; at the
    maximum the closure schedules none. A [scheduleReconnect] while one
    is pending changes nothing but, at the maximum, the console. And
    [connect()] starts by cancelling the pending timer: it behaves as on
    the state without it, and when the socket is created no timer is
    left. *)
Theorem at_most_one_reconnect_timer (st : State) :
  reachable st ->
  (size (timers st) <= 1)%nat /\
  (forall s failed code st',
     step (Socket_closes s failed code) st = Some st' -> code <> 1000%Z ->
     if decide (reconnectAttempts st < maxReconnectAttempts)%nat
     then size (timers st') = 1%nat /\
          exists id, reconnectTimeoutId st' = Some id /\
                     is_Some (timers st' !! id)
     else pacing st' = pacing st) /\
  (forall id, reconnectTimeoutId st = Some id ->
     pacing (scheduleReconnect st) = pacing st /\
     (scheduleReconnect st = st \/
      scheduleReconnect st = log Err_max_attempts st)) /\
  (forall ok,
     connect ok st = connect ok (cancelled st) /\
     timers (cancelled st) = ∅ /\ reconnectTimeoutId (cancelled st) = None /\
     timers (connect true st).2 = ∅).
Proof.
  intros Hreach. split; [|split; [|split]].
  - by apply timers_at_most_one.
  - intros s failed code st'. by apply closure_schedules.
  - intros id Hid. pose proof (scheduleReconnect_pending st id Hid) as H.
    split; [|done]. by destruct H as [->| ->].
  - intros ok. by apply connect_cancels.
Qed.

Lemma connect_reconnectAttempts ok st :
  ok = true \/ (maxReconnectAttempts <= reconnectAttempts st)%nat ->
  reconnectAttempts (connect ok st).2 = reconnectAttempts st.
Proof.
  intros H. destruct (busy (cancelled st)) eqn:B.
  - rewrite connect_busy by done.
    case_match; simpl; apply cancelled_reconnectAttempts.
  - rewrite connect_idle by done. destruct ok; simpl.
    + apply cancelled_reconnectAttempts.
    + destruct H as [|H]; [done|]. unfold refused.
      rewrite scheduleReconnect_exhausted.
      * simpl. rewrite settle_reconnectAttempts. simpl.
        apply cancelled_reconnectAttempts.
      * rewrite settle_reconnectAttempts. simpl.
        by rewrite cancelled_reconnectAttempts.
Qed.


End Reconnecting.

(** C3 as it was stated, refuted: the sixth closure with code 1006 in a
    row finds the counter at the maximum and schedules no timer. *)
Lemma closure_at_maximum_schedules_nothing :
  exists st st',
    run (rt := Reference.runtime) (removelast five_failures) initial
      = Some st /\
    step (rt := Reference.runtime) (Socket_closes 5 true 1006) st = Some st' /\
    reconnectAttempts st' = maxReconnectAttempts /\
    reconnectTimeoutId st' = None /\ size (timers st') = 0%nat.
Proof.
  eexists. eexists. split; [by vm_compute|]. split; [by vm_compute|].
  by vm_compute.
Qed.

Lemma at_most_one_reconnect_timer_witness :
  exists st st',
    run (rt := Reference.runtime) [Call_connect true; Socket_opens 0] initial
      = Some st /\
    step (rt := Reference.runtime) (Socket_closes 0 true 1006) st = Some st' /\
    size (timers st') = 1%nat.
Proof.
  destruct (run (rt := Reference.runtime)
              [Call_connect true; Socket_opens 0] initial)
    as [st|] eqn:E; [|by vm_compute in E].
  destruct (step (rt := Reference.runtime) (Socket_closes 0 true 1006) st)
    as [st'|] eqn:E'.
  2: { vm_compute in E. injection E as <-. by vm_compute in E'. }
  exists st, st'. split; [done|]. split; [done|].
  destruct (at_most_one_reconnect_timer (rt := Reference.runtime) st)
    as (_ & Hc & _).
  - by apply (reachable_run _ initial _ (reachable_initial) E).
  - specialize (Hc 0%nat true 1006%Z st' E' ltac:(done)).
    rewrite decide_True in Hc; [by destruct Hc|].
    vm_compute in E. injection E as <-. vm_compute. lia.
Defined.



(** ** Sending *)

Section Sending.

Context `{rt : Runtime}.

(** A first [sendCommand], before any [connect]: it starts the one
    attempt and waits for its promise; nothing is sent yet. *)
Lemma sendCommand_first command payload st :
  ws st = None -> connectionPromise st = None ->
  let k := {| k_command := command; k_payload := payload |} in
  let p := length (promises st) in
  let st' := sendCommand true command payload st in
  ws st' = Some (length (sockets st)) /\
  length (sockets st') = S (length (sockets st)) /\
  connectionPromise st' = Some p /\ promises st' !! p = Some Pending /\
  reactions st' = reactions st ++ [(p, k)] /\ jobs st' = jobs st /\
  emitted st' = emitted st.
Proof.
  intros Hws Hp k p st'. subst st'. unfold sendCommand.
  assert (isConnected st = false) as -> by (unfold isConnected; by rewrite Hws).
  simpl. rewrite Hp.
  set (st1 := log Log_triggering (log Log_waiting st)).
  assert (busy (cancelled st1) = false) as B.
  { rewrite busy_cancelled. unfold busy.
    change (ws st1) with (ws st). by rewrite Hws. }
  destruct (connect_starts st1 B) as (_ & Hws' & _ & Hpend & Hlen & _).
  assert (connectionPromise (connect true st1).2 = Some p) as Hcp.
  { rewrite connect_idle by done. simpl. f_equal.
    unfold cancelled. by destruct (reconnectTimeoutId st). }
  change (length (promises st1)) with p in Hpend.
  change (length (sockets st1)) with (length (sockets st)) in Hws', Hlen.
  assert (reactions (connect true st1).2 = reactions st /\
          jobs (connect true st1).2 = jobs st /\
          emitted (connect true st1).2 = emitted st) as (Hr & Hj & He).
  { rewrite connect_idle by done. simpl. unfold cancelled.
    by destruct (reconnectTimeoutId st). }
  rewrite Hcp. unfold await. rewrite Hpend. simpl. by rewrite Hr.
Qed.

(** After its [await], the call sends on the open socket when the promise
    was fulfilled, and emits one ['error'] and sends nothing when it was
    rejected. *)
Lemma resume_rejected k st :
  let st' := resume (k, false) st in
  sockets st' = sockets st /\
  emitted st' =
    emitted st ++
      [{| em_event := "error";
          em_arg := ErrorMessage "Failed to connect to server to send command.";
          em_handle := ws st |}].
Proof. done. Qed.

Lemma resume_fulfilled command v st s sk :
  ws st = Some s -> sockets st !! s = Some sk -> readyState sk = OPEN ->
  let k := {| k_command := command; k_payload := Serializable v |} in
  let st' := resume (k, true) st in
  sockets st' !! s =
    Some {| readyState := OPEN; wired := wired sk; closeCalls := closeCalls sk;
            sentFrames := sentFrames sk ++
              [JSON_stringify (OutgoingCommand command v)] |} /\
  emitted st' = emitted st.
Proof.
  intros Hws Hsk Hr k st'. subst st'. unfold resume, k, transmit; simpl.
  unfold isConnected, state_of; simpl. rewrite Hws, Hsk, Hr.
  rewrite bool_decide_true by done. unfold socket_send. rewrite Hr. simpl.
  split; [|done]. apply list_lookup_insert_eq. by eapply lookup_lt_Some.
Qed.

(** Once an attempt was made and the handle is gone, [sendCommand] starts
    no attempt: it waits for the promise of the last one. *)
Lemma sendCommand_stale ok command payload st p :
  ws st = None -> connectionPromise st = Some p ->
  sendCommand ok command payload st =
    await (Some p) {| k_command := command; k_payload := payload |}
      (log Log_waiting st).
Proof.
  intros Hws Hp. unfold sendCommand.
  assert (isConnected st = false) as -> by (unfold isConnected; by rewrite Hws).
  cbn [negb]. rewrite log_connectionPromise, log_ws, Hp, Hws.
  by rewrite log_connectionPromise, Hp.
Qed.

End Sending.

(** C1, at the input on which the code fails it: the service was
    connected and has been disconnected, so the connection is not open
    and no attempt is in flight. [sendCommand] creates no socket and no
    promise; it waits for the promise of the old attempt, which is
    fulfilled, and then reports that it cannot send. *)
Theorem sendCommand_after_disconnect_starts_no_attempt :
  exists st st',
    run (rt := Reference.runtime)
      [Call_connect true; Socket_opens 0; Call_disconnect "x";
       Socket_closes 0 false 1000] initial = Some st /\
    isConnected st = false /\ busy st = false /\
    reconnectTimeoutId st = None /\
    run (rt := Reference.runtime) [look; Tick] st = Some st' /\
    sockets st' = sockets st /\ promises st' = promises st /\
    ws st' = None /\
    map sentFrames (sockets st') = [[]] /\
    emitted st' =
      emitted st ++
        [{| em_event := "error";
            em_arg := ErrorMessage
                        "Cannot send command, WebSocket is not connected.";
            em_handle := None |}] /\
    console st' = console st ++ [Log_waiting; Log_ready; Err_cannot_send].
Proof.
  eexists. eexists. split; [by vm_compute|].
  do 3 (split; [by vm_compute|]). split; [by vm_compute|].
  by vm_compute.
Qed.

(** ** Disconnecting *)

Section Disconnecting.

Context `{rt : Runtime}.

(** What [disconnect] does at once. With no socket held it returns; with
    one held it returns unless [close] refuses the reason. *)
Lemma disconnect_effects reason st :
  timers_tracked st ->
  let gone := {| em_event := "disconnected"; em_arg := NoArg;
                 em_handle := None |} in
  match disconnect reason st with
  | Returns st' =>
      ws st' = None /\ isConnected st' = false /\
      reconnectAttempts st' = maxReconnectAttempts /\
      reconnectTimeoutId st' = None /\ timers st' = ∅ /\
      sockets st' =
        match ws st with
        | Some s => alter (socket_close 1000 reason) s (sockets st)
        | None => sockets st
        end /\
      emitted st' = emitted st ++ [gone]
  | Throws st' =>
      close_accepts reason = false /\ ws st' = ws st /\ ws st <> None /\
      sockets st' = sockets st /\ emitted st' = emitted st /\
      reconnectAttempts st' = maxReconnectAttempts /\ timers st' = ∅
  end.
Proof.
  intros Ht gone. rewrite disconnect_eq.
  destruct (cancelled_same_gate st) as (Hws & Hs & _).
  assert (timers (cancelled st) = ∅) as Hti.
  { pose proof (timers_tracked_cancelled _ Ht) as Ht'.
    unfold timers_tracked in Ht'. by rewrite cancelled_reconnectTimeoutId in Ht'. }
  assert (emitted (cancelled st) = emitted st) as He
    by (unfold cancelled; by case_match).
  pose proof (cancelled_reconnectTimeoutId st) as Hid.
  cbn zeta. destruct (ws st) eqn:E.
  - destruct (close_accepts reason) eqn:Ha.
    + repeat split; try done. rewrite emit_emitted. cbn. by rewrite He.
    + by repeat split.
  - repeat split; try done.
    + unfold isConnected. rewrite emit_ws. cbn. by rewrite Hws.
    + rewrite emit_emitted. cbn. by rewrite He, Hws.
Qed.

Lemma quiet_ext st st' :
  pacing st' = pacing st -> (forall s, state_of st' s = state_of st s) ->
  quiet st -> quiet st'.
Proof. intros Hp Hs [H1 H2]. split; [congruence|]. intros s. by rewrite Hs. Qed.

Lemma state_of_alter_close st s reason x :
  state_of (set_sockets (alter (socket_close 1000 reason) s (sockets st)) st) x
    = Some CONNECTING ->
  state_of st x = Some CONNECTING /\ x <> s.
Proof.
  unfold state_of; cbn. destruct (decide (s = x)) as [->|Hne].
  - rewrite list_lookup_alter_eq.
    destruct (sockets st !! x) as [[[] ? ? ?]|]; by cbn.
  - by rewrite list_lookup_alter_ne.
Qed.

Lemma quiet_step l st st' :
  unattended l = true -> quiet st -> step l st = Some st' -> quiet st'.
Proof.
  intros Hl [Hp Hs] Hstep.
  assert (timers st = ∅ /\ reconnectTimeoutId st = None /\
          reconnectAttempts st = maxReconnectAttempts) as (Hti & Hid & Hn)
    by (by injection Hp).
  destruct l; try done.
  - injection Hstep as <-. rewrite disconnect_eq.
    assert (cancelled st = st) as -> by (by apply cancelled_none).
    cbn zeta. destruct (ws st) eqn:E.
    + destruct (close_accepts reason); cbn.
      * split; [unfold pacing; cbn; congruence|].
        intros x Hx. apply (Hs x).
        by apply (state_of_alter_close st n reason) in Hx as [Hx _].
      * split; [unfold pacing; cbn; congruence|done].
    + split; [unfold pacing; cbn; congruence|done].
  - injection Hstep as <-. unfold on. by case_match.
  - injection Hstep as <-. done.
  - injection Hstep as <-.
    pose proof (same_connection_drain st) as Hd.
    apply (quiet_ext st); [by apply pacing_same|apply (sc_states _ _ Hd)|done].
  - apply step_opens in Hstep as [Hc _]. by destruct (Hs s).
  - apply step_message in Hstep as [_ ->].
    pose proof (same_connection_trans _ _ _ (same_connection_drain st)
                  (same_connection_trans _ _ _
                     (same_connection_onmessage data (drain st))
                     (same_connection_drain _))) as Hd.
    apply (quiet_ext st); [by apply pacing_same|apply (sc_states _ _ Hd)|done].
  - apply step_closing in Hstep as [_ ->].
    pose proof (same_connection_drain st) as Hd. split.
    + rewrite <- Hp. apply (pacing_same st (drain st) Hd).
    + intros x. rewrite state_of_set_socket_state.
      destruct (decide (s = x)); [by destruct (state_of (drain st) s)|].
      rewrite (sc_states _ _ Hd). apply Hs.
  - destruct (step_closes_pacing _ _ _ _ _ Hstep) as (st1 & H1 & H').
    apply step_closes in Hstep as [_ ->]. split.
    + rewrite H'. case_bool_decide; [|congruence].
      rewrite scheduleReconnect_exhausted.
      * rewrite <- Hp, <- H1. done.
      * injection H1 as _ _ ->. by rewrite Hn.
    + intros x.
      rewrite (sc_states _ _ (same_connection_drain _)),
        (state_of_ext _ _ _ (onclose_sockets _ _)).
      fold (closing_down s failed st). unfold closing_down.
      pose proof (same_connection_drain st) as Hd.
      assert (state_of (set_socket_state s CLOSED (drain st)) x
              <> Some CONNECTING) as Hx.
      { rewrite state_of_set_socket_state.
        destruct (decide (s = x)); [by destruct (state_of (drain st) s)|].
        rewrite (sc_states _ _ Hd). apply Hs. }
      destruct failed; [|done].
      by rewrite (sc_states _ _ (same_connection_drain _)),
        (state_of_ext _ _ _ (onerror_sockets _ _)).
  - apply step_fires in Hstep as [[d Hd] _].
    by rewrite Hti, lookup_empty in Hd.
Qed.

Lemma quiet_run trace st st' :
  forallb unattended trace = true -> quiet st -> run trace st = Some st' ->
  quiet st'.
Proof.
  revert st. induction trace as [|l trace IH]; cbn; intros st Hu Hq Hrun.
  - by injection Hrun as <-.
  - apply andb_true_iff in Hu as [Hl Hu].
    destruct (step l st) as [st1|] eqn:E; [|done].
    eapply IH; [done| |done]. by eapply quiet_step.
Qed.

(** Where the claim holds: when the only socket still connecting is the
    one the service holds, [disconnect] leaves the service quiet, and
    nothing the host does afterwards schedules a reconnect. *)
Lemma disconnect_suppresses_reconnect reason st trace st' :
  reachable st -> close_accepts reason = true ->
  (forall s, state_of st s = Some CONNECTING -> ws st = Some s) ->
  forallb unattended trace = true ->
  run trace (final (disconnect reason st)) = Some st' ->
  timers st' = ∅ /\ reconnectTimeoutId st' = None /\
  reconnectAttempts st' = maxReconnectAttempts.
Proof.
  intros Hreach Ha Honly Hu Hrun.
  assert (quiet (final (disconnect reason st))) as Hq.
  { pose proof (c_timers _ (reachable_consistent _ Hreach)) as Ht.
    assert (pacing (set_reconnectAttempts maxReconnectAttempts (cancelled st))
            = (∅, None, maxReconnectAttempts)) as Hp.
    { pose proof (timers_tracked_cancelled _ Ht) as Ht'.
      unfold timers_tracked in Ht'.
      rewrite cancelled_reconnectTimeoutId in Ht'. unfold pacing. cbn.
      by rewrite Ht', cancelled_reconnectTimeoutId. }
    rewrite disconnect_eq. cbn zeta.
    destruct (ws st) as [s|] eqn:E.
    - rewrite Ha. split; [exact Hp|].
      intros x Hx.
      apply (state_of_alter_close st s reason) in Hx as [Hx Hne].
      apply Honly in Hx. congruence.
    - split; [exact Hp|]. intros x Hx.
      assert (state_of st x = Some CONNECTING) as Hx'.
      { rewrite <- Hx. symmetry. apply state_of_ext. cbn.
        by destruct (cancelled_same_gate st) as (_ & -> & _). }
      apply Honly in Hx'. congruence. }
  destruct (quiet_run _ _ _ Hu Hq Hrun) as [Hp _]. by injection Hp.
Qed.

End Disconnecting.

(** C5, at the input on which the code fails it. The close event of a
    socket that [disconnect] closed arrives after the next [connect()]
    and clears the handle of the new socket. A second [disconnect] then
    holds no socket: it closes nothing and sets the counter to the
    maximum, but the new socket is still connecting. When it opens the
    counter is back at 0; when it fails a reconnect timer is scheduled,
    and when the timer fires the service connects again on its own. *)
Theorem disconnect_misses_orphaned_socket :
  exists st st' st'',
    run (rt := Reference.runtime)
      [Call_connect true; Call_disconnect "a"; Call_connect true;
       Socket_closes 0 true 1006; Call_disconnect "b"] initial = Some st /\
    ws st = None /\ reconnectAttempts st = maxReconnectAttempts /\
    reconnectTimeoutId st = None /\ size (timers st) = 0%nat /\
    map readyState (sockets st) = [CLOSED; CONNECTING] /\
    map closeCalls (sockets st) = [[(1000%Z, "a")]; []] /\
    run (rt := Reference.runtime)
      [Socket_opens 1; Socket_closes 1 true 1006] st = Some st' /\
    reconnectAttempts st' = 1%nat /\
    reconnectTimeoutId st' = Some 1%positive /\
    map_to_list (timers st') = [(1%positive, delay 1)] /\
    step (rt := Reference.runtime) (Timer_fires 1 true) st' = Some st'' /\
    ws st'' = Some 2%nat /\ state_of st'' 2 = Some CONNECTING.
Proof.
  eexists. eexists. eexists. split; [by vm_compute|].
  do 6 (split; [by vm_compute|]). split; [by vm_compute|].
  do 3 (split; [by vm_compute|]). split; [by vm_compute|].
  by vm_compute.
Qed.

(** * Further properties of the service *)

Section Further.

Context `{rt : Runtime}.

(** ** Invariants, method by method *)

(** What holds before and after every method and callback holds before
    and after every turn of the event loop. A socket is set open from
    connecting, closing from open, and closed from anywhere. *)
Lemma step_invariant (P : State -> Prop) :
  (forall ok st, P st -> P (connect ok st).2) ->
  (forall reason st, P st -> P (final (disconnect reason st))) ->
  (forall ok command payload st,
     P st -> P (sendCommand ok command payload st)) ->
  (forall type fn ctx st, P st -> P (on type fn ctx st)) ->
  (forall type fn ctx st, P st -> P (off type fn ctx st)) ->
  (forall st, P st -> P (drain st)) ->
  (forall s st, state_of st s = Some CONNECTING -> P st ->
     P (set_socket_state s OPEN st)) ->
  (forall s st, state_of st s = Some OPEN -> P st ->
     P (set_socket_state s CLOSING st)) ->
  (forall s st, P st -> P (set_socket_state s CLOSED st)) ->
  (forall st, P st -> P (onopen st)) ->
  (forall data st, P st -> P (onmessage data st)) ->
  (forall s st, P st -> P (onerror s st)) ->
  (forall code st, P st -> P (onclose code st)) ->
  (forall id st,
     P st -> P (set_reconnectTimeoutId None (clearTimeout id st))) ->
  forall l st st', P st -> step l st = Some st' -> P st'.
Proof.
  intros Hconnect Hdisconnect Hsend Hon Hoff Hdrain Hopen Hclosing Hclosed
    Honopen Honmessage Honerror Honclose Hfired l st st' H Hstep.
  destruct l.
  - injection Hstep as <-. by apply Hconnect.
  - injection Hstep as <-. by apply Hdisconnect.
  - injection Hstep as <-. by apply Hsend.
  - injection Hstep as <-. by apply Hon.
  - injection Hstep as <-. by apply Hoff.
  - injection Hstep as <-. by apply Hdrain.
  - apply step_opens in Hstep as [Hs ->].
    apply Hdrain, Honopen, Hopen; [|by apply Hdrain].
    by rewrite (sc_states _ _ (same_connection_drain st)).
  - apply step_message in Hstep as [_ ->].
    by apply Hdrain, Honmessage, Hdrain.
  - apply step_closing in Hstep as [Hs ->].
    apply Hclosing; [|by apply Hdrain].
    by rewrite (sc_states _ _ (same_connection_drain st)).
  - apply step_closes in Hstep as [_ ->].
    apply Hdrain, Honclose. destruct failed.
    + by apply Hdrain, Honerror, Hclosed, Hdrain.
    + by apply Hclosed, Hdrain.
  - apply step_fires in Hstep as [_ ->].
    by apply Hdrain, Hconnect, Hfired, Hdrain.
Qed.

Lemma reachable_invariant (P : State -> Prop) :
  P initial ->
  (forall l st st', P st -> step l st = Some st' -> P st') ->
  forall st, reachable st -> P st.
Proof.
  intros H0 Hstep st. induction 1 as [|l st st' _ IH Hl]; [done|].
  by eapply Hstep.
Qed.

(** ** Sending while connected *)

Lemma transmit_open command payload st s sk :
  ws st = Some s -> sockets st !! s = Some sk -> readyState sk = OPEN ->
  transmit command payload st =
    match payload with
    | Serializable v =>
        set_sockets
          (<[s := {| readyState := OPEN; wired := wired sk;
                     closeCalls := closeCalls sk;
                     sentFrames := sentFrames sk ++
                       [JSON_stringify (OutgoingCommand command v)] |}]>
             (sockets st))
          (log (Log_sending command) st)
    | Unserializable =>
        emit "error" (ErrorMessage "Failed to send command via WebSocket.")
          (log Err_send_failed (log (Log_sending command) st))
    end.
Proof.
  intros Hws Hsk Hr. unfold transmit, isConnected, state_of.
  rewrite Hws, Hsk, Hr, bool_decide_true by done. simpl. rewrite Hws.
  destruct payload as [v|]; [|done].
  rewrite Hsk. unfold socket_send. by rewrite Hr.
Qed.

(** X1. While the connection is open, [sendCommand] completes within the
    call: it starts no attempt and waits for nothing. A payload that can
    be serialised puts exactly one frame, the serialised
    [{command, payload}], on the held socket and emits nothing; one that
    cannot puts nothing on the wire and emits one ['error'] event. *)
Theorem connected_send_is_immediate (ok : bool) (command : string)
    (payload : Payload) (st : State) (s : nat) (sk : Socket) :
  ws st = Some s -> sockets st !! s = Some sk -> readyState sk = OPEN ->
  let st' := sendCommand ok command payload st in
  same_connection st st' /\
  reactions st' = reactions st /\ jobs st' = jobs st /\
  invoked st' =
    invoked st ++ calls "error"
                    (ErrorMessage "Failed to send command via WebSocket.")
                    true
                    (match payload with
                     | Serializable _ => []
                     | Unserializable => listeners st
                     end) /\
  match payload with
  | Serializable v =>
      sockets st' =
        <[s := {| readyState := OPEN; wired := wired sk;
                  closeCalls := closeCalls sk;
                  sentFrames := sentFrames sk ++
                    [JSON_stringify (OutgoingCommand command v)] |}]>
          (sockets st) /\
      emitted st' = emitted st /\
      console st' = console st ++ [Log_sending command]
  | Unserializable =>
      sockets st' = sockets st /\
      emitted st' =
        emitted st ++
          [send_error "Failed to send command via WebSocket." (Some s)] /\
      console st' = console st ++ [Log_sending command; Err_send_failed]
  end.
Proof.
  intros Hws Hsk Hr st'. subst st'.
  assert (isConnected st = true) as Hc.
  { unfold isConnected, state_of. rewrite Hws, Hsk, Hr.
    by apply bool_decide_true. }
  assert (sendCommand ok command payload st = transmit command payload st)
    as -> by (unfold sendCommand; by rewrite Hc).
  split; [apply same_connection_transmit|].
  rewrite (transmit_open _ _ _ _ _ Hws Hsk Hr).
  destruct payload as [v|].
  - simpl. rewrite app_nil_r. by repeat split.
  - repeat split; try done.
    + rewrite emit_invoked.
      change (isConnected (log Err_send_failed (log (Log_sending command) st)))
        with (isConnected st). by rewrite Hc.
    + rewrite emit_emitted. simpl. by rewrite Hws.
    + simpl. by rewrite <- app_assoc.
Qed.

(** ** Commands that wait for the connection *)

Lemma drain_eq st :
  drain st = foldl (fun st job => resume job st) (set_jobs [] st) (jobs st).
Proof. reflexivity. Qed.

Lemma drain_idle st : jobs st = [] -> drain st = st.
Proof. intros H. unfold drain. rewrite H. simpl. by rewrite <- H. Qed.

(** While an attempt is pending, [sendCommand] joins the waiters of its
    promise and does nothing else. *)
Lemma sendCommand_waiting ok command payload st s p :
  ws st = Some s -> state_of st s = Some CONNECTING ->
  connectionPromise st = Some p -> promises st !! p = Some Pending ->
  sendCommand ok command payload st =
    set_reactions (reactions st ++ [(p, suspended (command, payload))])
      (log Log_waiting st).
Proof.
  intros Hws Hs Hp Hps. unfold sendCommand, isConnected.
  rewrite Hws, Hs, bool_decide_false by done. cbn [negb].
  rewrite log_ws, log_connectionPromise, Hws, Hp, state_of_log, Hs.
  rewrite bool_decide_false by done.
  rewrite log_connectionPromise, Hp. unfold await.
  by rewrite log_promises, Hps.
Qed.

Lemma run_app trace trace' st :
  run (trace ++ trace') st =
    match run trace st with
    | Some st1 => run trace' st1
    | None => None
    end.
Proof.
  revert st. induction trace as [|l trace IH]; intros st; simpl; [done|].
  by destruct (step l st).
Qed.

Lemma run_sends_waiting ok cs st s p :
  ws st = Some s -> state_of st s = Some CONNECTING ->
  connectionPromise st = Some p -> promises st !! p = Some Pending ->
  run (sends ok cs) st =
    Some (set_reactions
            (reactions st ++ map (fun c => (p, suspended c)) cs)
            (set_console (console st ++ map (fun _ => Log_waiting) cs) st)).
Proof.
  revert st. induction cs as [|[command payload] cs IH];
    intros st Hws Hs Hp Hps; simpl.
  - rewrite !app_nil_r. done.
  - rewrite (sendCommand_waiting _ _ _ _ _ _ Hws Hs Hp Hps).
    rewrite IH by done. simpl. by rewrite <- !app_assoc.
Qed.

Lemma settle_pending p outcome st :
  promises st !! p = Some Pending ->
  settle p outcome st =
    set_jobs
      (jobs st ++ map (fun r => (r.2, is_fulfilled outcome))
                    (filter (fun r => r.1 = p) (reactions st)))
      (set_reactions (filter (fun r => r.1 ≠ p) (reactions st))
         (set_promises (<[p := outcome]> (promises st)) st)).
Proof. intros H. unfold settle. by rewrite H. Qed.

Lemma waiters_woken p (cs : list (string * Payload)) :
  filter (fun r : nat * Continuation => r.1 = p)
    (map (fun c => (p, suspended c)) cs)
  = map (fun c => (p, suspended c)) cs.
Proof.
  induction cs as [|c cs IH]; [done|]. simpl.
  rewrite filter_cons_True by done. by rewrite IH.
Qed.

Lemma waiters_asleep p (cs : list (string * Payload)) :
  filter (fun r : nat * Continuation => r.1 ≠ p)
    (map (fun c => (p, suspended c)) cs) = [].
Proof.
  induction cs as [|c cs IH]; [done|]. simpl.
  rewrite filter_cons_False; [done|]. simpl. by intros H.
Qed.

(** The waiters of a fulfilled promise write their frames one after the
    other on the open socket. *)
Lemma resume_all_open cs st s sk :
  ws st = Some s -> sockets st !! s = Some sk -> readyState sk = OPEN ->
  let st' := foldl (fun st job => resume job st) st
               (map (fun c => (suspended c, true)) cs) in
  sockets st' =
    <[s := {| readyState := OPEN; wired := wired sk;
              closeCalls := closeCalls sk;
              sentFrames := sentFrames sk ++ frames_of cs |}]> (sockets st) /\
  emitted st' = emitted st ++ send_failures (Some s) cs /\
  reactions st' = reactions st /\ jobs st' = jobs st.
Proof.
  revert st sk. induction cs as [|[command payload] cs IH];
    intros st sk Hws Hsk Hr; cbn [map foldl frames_of send_failures flat_map].
  - rewrite !app_nil_r. split; [|done].
    symmetry. apply list_insert_id. rewrite Hsk. f_equal.
    destruct sk; simpl in *. by subst.
  - change (resume (suspended (command, payload), true) st)
      with (transmit command payload (log Log_ready st)).
    rewrite (transmit_open _ _ (log Log_ready st) s sk) by done.
    rewrite ?log_sockets.
    destruct payload as [v|].
    + set (sk1 := {| readyState := OPEN; wired := wired sk;
                     closeCalls := closeCalls sk;
                     sentFrames := sentFrames sk ++
                       [JSON_stringify (OutgoingCommand command v)] |}).
      destruct (IH (set_sockets (<[s := sk1]> (sockets st))
                      (log (Log_sending command) (log Log_ready st))) sk1)
        as (H1 & H2 & H3 & H4); [done| |done|].
      { simpl. apply list_lookup_insert_eq. by eapply lookup_lt_Some. }
      rewrite H1, H2, H3, H4. simpl.
      rewrite list_insert_insert_eq, <- app_assoc. done.
    + destruct (IH (emit "error"
                      (ErrorMessage "Failed to send command via WebSocket.")
                      (log Err_send_failed
                         (log (Log_sending command) (log Log_ready st)))) sk)
        as (H1 & H2 & H3 & H4); [done|done|done|].
      rewrite H1, H2, H3, H4. rewrite emit_emitted. simpl.
      rewrite Hws, <- app_assoc. done.
Qed.

(** The waiters of a rejected promise each report the failure. *)
Lemma resume_all_rejected (cs : list (string * Payload)) st :
  let st' := foldl (fun st job => resume job st) st
               (map (fun c => (suspended c, false)) cs) in
  sockets st' = sockets st /\
  emitted st' = emitted st ++ connect_failures (ws st) cs /\
  reactions st' = reactions st /\ jobs st' = jobs st /\
  promises st' = promises st /\ ws st' = ws st.
Proof.
  revert st. induction cs as [|c cs IH]; intros st; simpl.
  - by rewrite app_nil_r.
  - destruct (IH (emit "error"
                    (ErrorMessage "Failed to connect to server to send command.")
                    (log Err_connect_failed st)))
      as (H1 & H2 & H3 & H4 & H5 & H6).
    rewrite H1, H2, H3, H4, H5, H6. rewrite emit_emitted. simpl.
    by rewrite <- app_assoc.
Qed.

Lemma insert_alter_same {A} (f : A -> A) (l : list A) i x :
  <[i := x]> (alter f i l) = <[i := x]> l.
Proof.
  apply list_eq. intros j. destruct (decide (i = j)) as [<-|Hne].
  - destruct (decide (i < length l)%nat) as [Hlt|Hge].
    + by rewrite !list_lookup_insert_eq by (by rewrite ?length_alter).
    + rewrite !lookup_ge_None_2; [done| |];
        rewrite length_insert, ?length_alter; lia.
  - by rewrite !list_lookup_insert_ne, list_lookup_alter_ne.
Qed.


Lemma rescheduled (b : bool) st :
  let st' := if b then scheduleReconnect st else st in
  sockets st' = sockets st /\ promises st' = promises st /\
  emitted st' = emitted st /\ reactions st' = reactions st /\
  jobs st' = jobs st /\ ws st' = ws st.
Proof.
  destruct b; simpl; [|done].
  by rewrite scheduleReconnect_sockets, scheduleReconnect_promises,
    scheduleReconnect_emitted, scheduleReconnect_reactions,
    scheduleReconnect_jobs, scheduleReconnect_ws.
Qed.


(** ** When the constructor throws *)

Lemma settle_new outcome st st' :
  promises st' = promises st ++ [Pending] ->
  promises (settle (length (promises st)) outcome st')
  = promises st ++ [outcome].
Proof.
  intros H.
  assert (promises st' !! length (promises st) = Some Pending) as Hl
    by (by rewrite H, lookup_app_r, Nat.sub_diag).
  rewrite settle_pending by done. simpl. rewrite H.
  rewrite insert_app_r_alt, Nat.sub_diag by done. done.
Qed.

Lemma cancelled_emitted st : emitted (cancelled st) = emitted st.
Proof. unfold cancelled. by case_match. Qed.

(** The [catch] block of [connect]. *)
Lemma connect_refused st :
  busy st = false ->
  let p := length (promises st) in
  let st1 := settle p (Rejected ConstructorError)
               (emit "disconnected" NoArg
                  (log Err_constructor_failed (attempt (cancelled st)))) in
  connect false st = (p, scheduleReconnect st1) /\
  promises st1 = promises st ++ [Rejected ConstructorError] /\
  connectionPromise st1 = Some p /\
  resolveConnectionPromise st1 = Some p /\
  rejectConnectionPromise st1 = Some p /\
  ws st1 = ws st /\ sockets st1 = sockets st /\
  emitted st1 = emitted st ++ [gone (ws st)] /\
  reconnectAttempts st1 = reconnectAttempts st /\
  reconnectTimeoutId st1 = None /\ nextTimer st1 = nextTimer st /\
  timers st1 = timers (cancelled st) /\
  (reactions st = [] -> jobs st1 = jobs st /\ reactions st1 = []).
Proof.
  intros B p st1.
  destruct (cancelled_same_gate st) as (Hws & Hs & Hp & Hps).
  assert (reactions st = [] -> jobs st1 = jobs st /\ reactions st1 = [])
    as Hquiet.
  { intros Hre. unfold st1, p. rewrite <- Hps.
    rewrite settle_pending
      by (simpl; by rewrite lookup_app_r, Nat.sub_diag).
    simpl.
    assert (reactions (cancelled st) = [] /\ jobs (cancelled st) = jobs st)
      as [-> ->] by (unfold cancelled; by case_match).
    by rewrite app_nil_r. }
  rewrite connect_idle by (by rewrite busy_cancelled).
  assert (refused (attempt (cancelled st)) = scheduleReconnect st1) as ->.
  { unfold refused, st1, p. simpl. rewrite length_app, Hps. simpl.
    by rewrite Nat.add_sub. }
  split; [done|]. unfold st1, p. rewrite <- Hps at 2.
  rewrite settle_new by (by simpl; rewrite Hps).
  rewrite Hps. fields. rewrite Hws, Hs, cancelled_emitted, Hps.
  rewrite cancelled_reconnectAttempts, cancelled_reconnectTimeoutId.
  repeat split; try done; try (by apply Hquiet).
  unfold cancelled. by case_match.
Qed.

(** X4. When [new WebSocket] throws, [connect] keeps the handle and the
    sockets it had and emits ['disconnected']. The promise it returns is
    new and already rejected, and its rejecter stays installed. The
    failure counts as an attempt: below the maximum the counter goes up
    by one and a reconnect timer is set with the delay of the new count,
    at the maximum no timer is set. *)
Theorem constructor_failure (st : State) :
  busy st = false ->
  let p := length (promises st) in
  let st' := (connect false st).2 in
  (connect false st).1 = p /\
  promises st' = promises st ++ [Rejected ConstructorError] /\
  connectionPromise st' = Some p /\ rejectConnectionPromise st' = Some p /\
  ws st' = ws st /\ sockets st' = sockets st /\
  emitted st' = emitted st ++ [gone (ws st)] /\
  if decide (reconnectAttempts st < maxReconnectAttempts)%nat then
    reconnectAttempts st' = S (reconnectAttempts st) /\
    reconnectTimeoutId st' = Some (nextTimer st) /\
    timers st' !! nextTimer st = Some (delay (S (reconnectAttempts st)))
  else
    reconnectAttempts st' = reconnectAttempts st /\
    reconnectTimeoutId st' = None /\ timers st' = timers (cancelled st).
Proof.
  intros B p st'.
  destruct (connect_refused st B)
    as (Hc & Hps & Hp & _ & Hrej & Hws & Hs & He & Hn & Hid & Hnext & Hti & _).
  subst st'. rewrite Hc. cbn [fst snd]. split; [done|].
  rewrite scheduleReconnect_promises, scheduleReconnect_connectionPromise,
    scheduleReconnect_rejectConnectionPromise, scheduleReconnect_ws,
    scheduleReconnect_sockets, scheduleReconnect_emitted.
  do 6 (split; [done|]).
  case_decide as Hlt.
  - destruct (scheduleReconnect_schedules _ ltac:(by rewrite Hn) Hid)
      as (H1 & H2 & H3 & _).
    rewrite H1, H2, H3, Hn, Hnext. split; [done|]. split; [done|].
    apply lookup_insert_eq.
  - rewrite scheduleReconnect_exhausted by (rewrite Hn; lia).
    by rewrite log_reconnectAttempts, log_reconnectTimeoutId, log_timers.
Qed.

(** X5. A first [sendCommand] finds the constructor throwing: the
    command is not sent and not kept for the reconnect. Its caller hears
    ['disconnected'] at once and, at the next checkpoint, one ['error']
    saying that the connection failed. *)
Theorem sendCommand_when_constructor_throws (command : string)
    (payload : Payload) (st : State) :
  ws st = None -> connectionPromise st = None ->
  reactions st = [] -> jobs st = [] ->
  let st' := drain (sendCommand false command payload st) in
  emitted st' =
    emitted st ++
      [gone None;
       send_error "Failed to connect to server to send command." None] /\
  promises st' = promises st ++ [Rejected ConstructorError] /\
  sockets st' = sockets st /\ ws st' = None /\
  jobs st' = [] /\ reactions st' = [].
Proof.
  intros Hws Hp Hre Hj st'. subst st'. unfold sendCommand, isConnected.
  rewrite Hws. cbn [negb]. rewrite log_connectionPromise, Hp.
  set (st0 := log Log_triggering (log Log_waiting st)).
  assert (busy st0 = false) as B
    by (unfold busy; change (ws st0) with (ws st); by rewrite Hws).
  destruct (connect_refused st0 B)
    as (Hc & Hps & Hcp & _ & Hrej & Hws' & Hs & He & Hn & Hid & Hnext & Hti
        & Hq).
  destruct (Hq Hre) as [Hj' Hre'].
  rewrite Hc. cbn [fst snd].
  rewrite scheduleReconnect_connectionPromise, Hcp. unfold await.
  rewrite scheduleReconnect_promises, Hps.
  rewrite lookup_app_r, Nat.sub_diag by done. cbn [lookup list_lookup].
  set (S1 := scheduleReconnect _) in *.
  assert (jobs S1 = []) as HjS
    by (unfold S1; by rewrite scheduleReconnect_jobs, Hj').
  rewrite drain_eq. cbn [jobs set_jobs]. rewrite HjS. cbn [app foldl resume].
  rewrite emit_emitted. fields.
  unfold S1.
  rewrite scheduleReconnect_emitted, scheduleReconnect_promises,
    scheduleReconnect_sockets, scheduleReconnect_ws,
    scheduleReconnect_reactions.
  rewrite He, Hps, Hs, Hws', Hre'.
  change (ws st0) with (ws st). rewrite Hws.
  repeat split; try done. by rewrite <- app_assoc.
Qed.

(** ** The delays of the pending timers *)

Lemma timers_paced_sub st st' :
  (forall id d, timers st' !! id = Some d -> timers st !! id = Some d) ->
  timers_paced st -> timers_paced st'.
Proof. intros Hsub H id d Hd. by apply (H id d), Hsub. Qed.

Lemma timers_paced_ext st st' :
  timers st' = timers st -> timers_paced st -> timers_paced st'.
Proof. intros Ht. apply timers_paced_sub. by rewrite Ht. Qed.

Lemma timers_paced_scheduleReconnect st :
  timers_paced st -> timers_paced (scheduleReconnect st).
Proof.
  intros H. unfold scheduleReconnect.
  destruct (Nat.leb_spec maxReconnectAttempts (reconnectAttempts st));
    [exact H|].
  destruct (reconnectTimeoutId st); [exact H|].
  intros id d. simpl. intros [[_ <-]|[_ Hd]]%lookup_insert_Some.
  - exists (S (reconnectAttempts st)). split; [lia|done].
  - by apply (H id d).
Qed.

Lemma timers_paced_cancelled st :
  timers_paced st -> timers_paced (cancelled st).
Proof.
  apply timers_paced_sub. intros id d. unfold cancelled.
  destruct (reconnectTimeoutId st); [|done].
  simpl. by intros [_ ?]%lookup_delete_Some.
Qed.

Lemma timers_paced_connect ok st :
  timers_paced st -> timers_paced (connect ok st).2.
Proof.
  intros H%timers_paced_cancelled.
  destruct (busy (cancelled st)) eqn:B.
  - rewrite connect_busy by done. by destruct (connectionPromise st).
  - rewrite connect_idle by done. destruct ok; simpl; [done|].
    apply timers_paced_scheduleReconnect.
    eapply timers_paced_ext; [|exact H]. by fields.
Qed.

Lemma timers_paced_disconnect reason st :
  timers_paced st -> timers_paced (final (disconnect reason st)).
Proof.
  intros H%timers_paced_cancelled. rewrite disconnect_eq. cbn zeta.
  destruct (ws st); [|exact H].
  destruct (close_accepts reason); exact H.
Qed.

Lemma timers_paced_same st st' :
  same_connection st st' -> timers_paced st -> timers_paced st'.
Proof. intros Hs. apply timers_paced_ext, (sc_timers _ _ Hs). Qed.

Lemma timers_paced_sendCommand ok command payload st :
  timers_paced st -> timers_paced (sendCommand ok command payload st).
Proof.
  intros H. unfold sendCommand.
  destruct (negb (isConnected st)).
  - eapply timers_paced_same; [apply same_connection_await|].
    destruct (connectionPromise _).
    + destruct (match ws _ with Some _ => _ | None => _ end); [|exact H].
      by apply (timers_paced_connect ok
                  (log Log_triggering (log Log_waiting st))).
    + by apply (timers_paced_connect ok
                  (log Log_triggering (log Log_waiting st))).
  - eapply timers_paced_same; [apply same_connection_transmit|done].
Qed.

Lemma onopen_timers st : timers (onopen st) = timers st.
Proof. unfold onopen. case_match; by fields. Qed.

Lemma timers_paced_onclose code st :
  timers_paced st -> timers_paced (onclose code st).
Proof.
  intros H. rewrite onclose_eq.
  assert (timers_paced (hung_up code st)) as H'.
  { eapply timers_paced_ext; [|exact H].
    pose proof (pacing_hung_up code st) as Hp. by injection Hp. }
  case_bool_decide; [|exact H'].
  by apply timers_paced_scheduleReconnect.
Qed.

Lemma timers_paced_step l st st' :
  timers_paced st -> step l st = Some st' -> timers_paced st'.
Proof.
  apply (step_invariant timers_paced).
  - apply timers_paced_connect.
  - apply timers_paced_disconnect.
  - apply timers_paced_sendCommand.
  - intros type fn ctx st0. unfold on. by case_match.
  - done.
  - intros st0. apply timers_paced_same, same_connection_drain.
  - done.
  - done.
  - done.
  - intros st0. apply timers_paced_ext, onopen_timers.
  - intros data st0. apply timers_paced_same, same_connection_onmessage.
  - intros s st0. apply timers_paced_ext.
    pose proof (pacing_onerror s st0) as Hp. by injection Hp.
  - apply timers_paced_onclose.
  - intros id st0. apply timers_paced_sub. simpl.
    by intros id' d [_ ?]%lookup_delete_Some.
Qed.

(** X6. The cap of the backoff is never reached: every reconnect timer
    the service ever has pending waits for one of the delays of the
    attempts 1 to 5, so for 15187.5 ms at most. *)
Theorem reconnect_delay_below_cap (st : State) (id : positive) (d : Q) :
  reachable st -> timers st !! id = Some d ->
  (exists n, (1 <= n <= maxReconnectAttempts)%nat /\ d = delay n) /\
  (3000 <= d)%Q /\ (d <= 15187.5)%Q /\ (d < 30000)%Q.
Proof.
  intros Hreach Hd.
  assert (timers_paced st) as H.
  { apply (reachable_invariant timers_paced); [done| |done].
    intros l st0 st1. apply timers_paced_step. }
  destruct (H id d Hd) as (n & Hn & ->). split; [by exists n|].
  assert (delay 1 <= delay n)%Q as Hlo by (apply delay_le; lia).
  assert (delay n <= delay 5)%Q as Hhi
    by (apply delay_le; unfold maxReconnectAttempts in Hn; lia).
  split; [|split].
  - eapply Qle_trans; [|exact Hlo]. by vm_compute.
  - eapply Qle_trans; [exact Hhi|]. by vm_compute.
  - eapply Qle_lt_trans; [exact Hhi|]. by vm_compute.
Qed.

(** ** The settling functions *)

Lemma resolvers_paired_ext st st' :
  resolveConnectionPromise st' = resolveConnectionPromise st ->
  rejectConnectionPromise st' = rejectConnectionPromise st ->
  connectionPromise st' = connectionPromise st ->
  resolvers_paired st -> resolvers_paired st'.
Proof. unfold resolvers_paired. by intros -> -> ->. Qed.

Lemma resolvers_paired_same st st' :
  same_connection st st' -> resolvers_paired st -> resolvers_paired st'.
Proof.
  intros Hs.
  apply resolvers_paired_ext;
    [apply (sc_resolve _ _ Hs)|apply (sc_reject _ _ Hs)
    |apply (sc_promise _ _ Hs)].
Qed.

Lemma resolvers_paired_dropped st :
  resolveConnectionPromise st = None -> rejectConnectionPromise st = None ->
  resolvers_paired st.
Proof. unfold resolvers_paired. by intros -> ->. Qed.

Lemma resolvers_paired_scheduleReconnect st :
  resolvers_paired st -> resolvers_paired (scheduleReconnect st).
Proof. apply resolvers_paired_ext; by fields. Qed.

Lemma resolvers_paired_cancelled st :
  resolvers_paired st -> resolvers_paired (cancelled st).
Proof. apply resolvers_paired_ext; unfold cancelled; by case_match. Qed.

Lemma resolvers_paired_connect ok st :
  resolvers_paired st -> resolvers_paired (connect ok st).2.
Proof.
  intros H%resolvers_paired_cancelled.
  destruct (busy (cancelled st)) eqn:B.
  - rewrite connect_busy by done. by destruct (connectionPromise st).
  - rewrite connect_idle by done. destruct ok; simpl; [done|].
    unfold refused. apply resolvers_paired_scheduleReconnect.
    split; by fields.
Qed.

Lemma resolvers_paired_disconnect reason st :
  resolvers_paired st -> resolvers_paired (final (disconnect reason st)).
Proof.
  intros H%resolvers_paired_cancelled. rewrite disconnect_eq. cbn zeta.
  destruct (ws st); [|exact H].
  destruct (close_accepts reason); exact H.
Qed.

Lemma resolvers_paired_sendCommand ok command payload st :
  resolvers_paired st -> resolvers_paired (sendCommand ok command payload st).
Proof.
  intros H. unfold sendCommand.
  destruct (negb (isConnected st)).
  - eapply resolvers_paired_same; [apply same_connection_await|].
    destruct (connectionPromise _).
    + destruct (match ws _ with Some _ => _ | None => _ end); [|exact H].
      by apply (resolvers_paired_connect ok
                  (log Log_triggering (log Log_waiting st))).
    + by apply (resolvers_paired_connect ok
                  (log Log_triggering (log Log_waiting st))).
  - eapply resolvers_paired_same; [apply same_connection_transmit|done].
Qed.

Lemma resolvers_paired_onerror s st :
  resolvers_paired st -> resolvers_paired (onerror s st).
Proof.
  intros H. unfold onerror.
  destruct (rejectConnectionPromise _) eqn:E.
  - by apply resolvers_paired_dropped.
  - revert H. apply resolvers_paired_ext; by fields.
Qed.

Lemma resolvers_paired_onclose code st :
  resolvers_paired st -> resolvers_paired (onclose code st).
Proof.
  intros H. rewrite onclose_eq.
  assert (resolvers_paired (hung_up code st)) as H'.
  { unfold hung_up. destruct (rejectConnectionPromise st) eqn:E.
    - by apply resolvers_paired_dropped.
    - revert H. apply resolvers_paired_ext; by fields. }
  case_bool_decide; [|exact H'].
  by apply resolvers_paired_scheduleReconnect.
Qed.

Lemma resolvers_paired_step l st st' :
  resolvers_paired st -> step l st = Some st' -> resolvers_paired st'.
Proof.
  apply (step_invariant resolvers_paired).
  - apply resolvers_paired_connect.
  - apply resolvers_paired_disconnect.
  - apply resolvers_paired_sendCommand.
  - intros type fn ctx st0. unfold on. by case_match.
  - done.
  - intros st0. apply resolvers_paired_same, same_connection_drain.
  - done.
  - done.
  - done.
  - intros st0 _. by apply resolvers_paired_dropped.
  - intros data st0. apply resolvers_paired_same, same_connection_onmessage.
  - apply resolvers_paired_onerror.
  - apply resolvers_paired_onclose.
  - done.
Qed.

(** ** Promises the service has replaced *)

Section Kept.

Variable st0 : State.

Lemma kept_ext st st' :
  resolveConnectionPromise st' = resolveConnectionPromise st ->
  rejectConnectionPromise st' = rejectConnectionPromise st ->
  connectionPromise st' = connectionPromise st ->
  promises st' = promises st ->
  kept st0 st -> kept st0 st'.
Proof.
  intros Hres Hrej Hp Hps [H1 H2]. split.
  - by apply (resolvers_paired_ext st).
  - unfold promises_kept. by rewrite Hp, Hps.
Qed.

Lemma kept_same st st' :
  same_connection st st' -> kept st0 st -> kept st0 st'.
Proof.
  intros Hs.
  apply kept_ext;
    [apply (sc_resolve _ _ Hs)|apply (sc_reject _ _ Hs)
    |apply (sc_promise _ _ Hs)|apply (sc_promises _ _ Hs)].
Qed.

(** A new promise, stored or not. *)
Lemma kept_new st st' x :
  resolvers_paired st' ->
  promises st' = promises st ++ [x] ->
  connectionPromise st' = connectionPromise st \/
  connectionPromise st' = Some (length (promises st)) ->
  kept st0 st -> kept st0 st'.
Proof.
  intros Hpair Hps Hp [_ (Hlen & Hcur & Hq)]. split; [done|].
  split; [|split].
  - rewrite Hps, length_app. lia.
  - destruct Hp as [->| ->]; [done|]. right. eauto.
  - intros q Hlt Hne. rewrite Hps, lookup_app_l by lia. by apply Hq.
Qed.

(** The stored promise being settled. *)
Lemma kept_settled st st' p :
  resolvers_paired st' ->
  connectionPromise st = Some p ->
  connectionPromise st' = Some p ->
  length (promises st') = length (promises st) ->
  (forall q, q <> p -> promises st' !! q = promises st !! q) ->
  kept st0 st -> kept st0 st'.
Proof.
  intros Hpair Hp Hp' Hl Hother [_ (Hlen & Hcur & Hq)]. split; [done|].
  split; [|split].
  - by rewrite Hl.
  - by rewrite Hp', <- Hp.
  - intros q Hlt Hne. rewrite Hother; [by apply Hq|].
    intros ->. destruct Hcur as [E|(p' & E & Hge)].
    + by rewrite <- E, Hp in Hne.
    + rewrite Hp in E. injection E as <-. lia.
Qed.

Lemma settle_length p outcome st :
  length (promises (settle p outcome st)) = length (promises st).
Proof.
  unfold settle. repeat case_match; simpl; by rewrite ?length_insert.
Qed.

Lemma settle_other p outcome st q :
  q <> p -> promises (settle p outcome st) !! q = promises st !! q.
Proof. intros H. rewrite settle_promises. by rewrite decide_False. Qed.

Lemma kept_cancelled st : kept st0 st -> kept st0 (cancelled st).
Proof. apply kept_ext; unfold cancelled; by case_match. Qed.

Lemma kept_scheduleReconnect st :
  kept st0 st -> kept st0 (scheduleReconnect st).
Proof. apply kept_ext; by fields. Qed.

Lemma kept_connect ok st : kept st0 st -> kept st0 (connect ok st).2.
Proof.
  intros H.
  assert (resolvers_paired (connect ok st).2) as Hpair
    by (apply resolvers_paired_connect, H).
  apply kept_cancelled in H. revert Hpair.
  destruct (cancelled_same_gate st) as (_ & _ & Hp & Hps).
  destruct (busy (cancelled st)) eqn:B.
  - rewrite connect_busy by done.
    destruct (connectionPromise st); [done|]. intros Hpair.
    apply (kept_new (cancelled st) _ Fulfilled); [done| |by left|done].
    simpl. by rewrite Hps.
  - rewrite connect_idle by done. intros Hpair.
    destruct ok; cbn [snd] in *.
    + apply (kept_new (cancelled st) _ Pending); [done|done|by right|done].
    + apply (kept_new (cancelled st) _ (Rejected ConstructorError));
        [done| |right|done].
      * unfold refused. rewrite scheduleReconnect_promises.
        replace (length (promises (attempt (cancelled st))) - 1)
          with (length (promises (cancelled st)))
          by (simpl; rewrite length_app; simpl; lia).
        by apply settle_new.
      * unfold refused. by fields.
Qed.

Lemma kept_disconnect reason st :
  kept st0 st -> kept st0 (final (disconnect reason st)).
Proof.
  intros H%kept_cancelled. rewrite disconnect_eq. cbn zeta.
  destruct (ws st); [|exact H].
  destruct (close_accepts reason); exact H.
Qed.

Lemma kept_sendCommand ok command payload st :
  kept st0 st -> kept st0 (sendCommand ok command payload st).
Proof.
  intros H. unfold sendCommand.
  destruct (negb (isConnected st)).
  - eapply kept_same; [apply same_connection_await|].
    destruct (connectionPromise _).
    + destruct (match ws _ with Some _ => _ | None => _ end); [|exact H].
      by apply (kept_connect ok (log Log_triggering (log Log_waiting st))).
    + by apply (kept_connect ok (log Log_triggering (log Log_waiting st))).
  - eapply kept_same; [apply same_connection_transmit|done].
Qed.

Lemma kept_onopen st : kept st0 st -> kept st0 (onopen st).
Proof.
  intros H.
  assert (resolvers_paired (onopen st)) as Hpair
    by (by apply resolvers_paired_dropped).
  destruct (resolveConnectionPromise st) as [p|] eqn:E.
  - destruct H as [[Heq Hcur] Hk].
    apply (kept_settled st _ p); [done| | | | |done].
    + apply Hcur. by rewrite <- Heq.
    + rewrite onopen_connectionPromise. apply Hcur. by rewrite <- Heq.
    + unfold onopen. case_match; simpl; by rewrite ?settle_length.
    + intros q Hq. rewrite onopen_promises, E. by rewrite decide_False.
  - destruct H as [Hp Hk]. split; [done|].
    unfold promises_kept. rewrite onopen_connectionPromise.
    assert (promises (onopen st) = promises st) as ->; [|exact Hk].
    unfold onopen.
    change (resolveConnectionPromise
              (emit "connected" NoArg
                 (set_reconnectAttempts 0 (log Log_established st))))
      with (resolveConnectionPromise st).
    by rewrite E.
Qed.

Lemma kept_onerror s st : kept st0 st -> kept st0 (onerror s st).
Proof.
  intros H.
  assert (resolvers_paired (onerror s st)) as Hpair
    by (apply resolvers_paired_onerror, H).
  revert Hpair. unfold onerror.
  destruct (rejectConnectionPromise st) as [p|] eqn:E.
  - change (rejectConnectionPromise
              (emit "error" (TransportError s) (log (Err_transport s) st)))
      with (rejectConnectionPromise st). rewrite E. intros Hpair.
    destruct H as [[Heq Hcur] Hk].
    apply (kept_settled st _ p); [done|by apply Hcur| | | |done].
    + fields. by apply Hcur.
    + simpl. by rewrite settle_length.
    + intros q Hq. simpl. by rewrite settle_other.
  - change (rejectConnectionPromise
              (emit "error" (TransportError s) (log (Err_transport s) st)))
      with (rejectConnectionPromise st). rewrite E. intros _.
    revert H. by apply kept_ext.
Qed.

Lemma kept_onclose code st : kept st0 st -> kept st0 (onclose code st).
Proof.
  intros H. rewrite onclose_eq.
  assert (kept st0 (hung_up code st)) as H'.
  { assert (resolvers_paired (hung_up code st)) as Hpair.
    { unfold hung_up. destruct (rejectConnectionPromise st) eqn:E.
      - by apply resolvers_paired_dropped.
      - destruct H as [H _]. revert H. apply resolvers_paired_ext; by fields. }
    revert Hpair. unfold hung_up.
    destruct (rejectConnectionPromise st) as [p|] eqn:E; intros Hpair.
    - destruct H as [[Heq Hcur] Hk].
      apply (kept_settled st _ p); [done|by apply Hcur| | | |done].
      + fields. by apply Hcur.
      + simpl. by rewrite settle_length.
      + intros q Hq. simpl. by rewrite settle_other.
    - revert H. by apply kept_ext. }
  case_bool_decide; [|exact H'].
  by apply kept_scheduleReconnect.
Qed.

Lemma kept_step l st st' :
  kept st0 st -> step l st = Some st' -> kept st0 st'.
Proof.
  apply (step_invariant (kept st0)).
  - apply kept_connect.
  - apply kept_disconnect.
  - apply kept_sendCommand.
  - intros type fn ctx st1. unfold on. by case_match.
  - done.
  - intros st1. apply kept_same, same_connection_drain.
  - done.
  - done.
  - done.
  - apply kept_onopen.
  - intros data st1. apply kept_same, same_connection_onmessage.
  - apply kept_onerror.
  - apply kept_onclose.
  - done.
Qed.

Lemma kept_run trace st st' :
  kept st0 st -> run trace st = Some st' -> kept st0 st'.
Proof.
  revert st. induction trace as [|l trace IH]; simpl; intros st H Hrun.
  - by injection Hrun as <-.
  - destruct (step l st) as [st1|] eqn:E; [|done].
    eapply IH; [|done]. by eapply kept_step.
Qed.

End Kept.

Lemma reachable_resolvers_paired st : reachable st -> resolvers_paired st.
Proof.
  apply (reachable_invariant resolvers_paired); [done|].
  intros l st0 st1. apply resolvers_paired_step.
Qed.

(** X7. The resolver and the rejecter are stored and dropped together,
    and while stored they settle the promise the service stores. So a
    promise that [connect] has replaced is out of the service's reach:
    whatever happens afterwards, it stays as it was, and a caller still
    waiting for it while it is pending waits for ever. *)
Theorem replaced_promise_never_settles (st st' : State) (trace : list Label)
    (q : nat) :
  reachable st -> run trace st = Some st' ->
  (q < length (promises st))%nat -> connectionPromise st <> Some q ->
  promises st' !! q = promises st !! q /\
  resolveConnectionPromise st' = rejectConnectionPromise st' /\
  forall p, rejectConnectionPromise st' = Some p ->
            connectionPromise st' = Some p /\ p <> q.
Proof.
  intros Hreach Hrun Hq Hne.
  assert (resolvers_paired st /\ promises_kept st st) as H.
  { split; [by apply reachable_resolvers_paired|].
    split; [done|]. split; [by left|done]. }
  destruct (kept_run st trace st st' H Hrun)
    as [[Heq Hcur] (Hlen & Hp & Hkept)].
  split; [by apply Hkept|]. split; [done|].
  intros p Hp'. split; [by apply Hcur|].
  intros ->. apply Hcur in Hp'.
  destruct Hp as [E|(p' & E & Hge)].
  - by rewrite <- E, Hp' in Hne.
  - rewrite Hp' in E. injection E as <-. lia.
Qed.

(** ** What the service asks of its sockets *)

Lemma well_used_ext st st' :
  ws st' = ws st \/ ws st' = None -> sockets st' = sockets st ->
  sockets_well_used st -> sockets_well_used st'.
Proof.
  intros Hws Hs [Hb H]. split.
  - intros s E. rewrite Hs. apply Hb. destruct Hws as [<-|E']; congruence.
  - intros s sk. rewrite Hs. intros Hsk.
    destruct (H s sk Hsk) as (Hw & Hf & Hc). split; [done|]. split; [done|].
    destruct Hc as [Hc|(reason & Hc & Ha & Hne & Hr)]; [by left|].
    right. exists reason. repeat split; try done.
    destruct Hws as [->| ->]; done.
Qed.

Lemma well_used_held st s sk :
  sockets_well_used st -> ws st = Some s -> sockets st !! s = Some sk ->
  wired sk = true /\ Forall is_command (sentFrames sk) /\ closeCalls sk = [].
Proof.
  intros [_ H] Hws Hsk. destruct (H s sk Hsk) as (Hw & Hf & Hc).
  split; [done|]. split; [done|].
  by destruct Hc as [Hc|(reason & _ & _ & Hne & _)].
Qed.

Lemma well_used_cancelled st :
  sockets_well_used st -> sockets_well_used (cancelled st).
Proof.
  destruct (cancelled_same_gate st) as (Hws & Hs & _).
  apply well_used_ext; eauto.
Qed.

Lemma well_used_opened st :
  sockets_well_used st -> sockets_well_used (opened st).
Proof.
  intros [Hb H]. split.
  - intros s. unfold opened; simpl. intros [= <-].
    rewrite length_alter, length_app. simpl. lia.
  - intros s sk. unfold opened; simpl.
    destruct (decide (s = length (sockets st))) as [->|Hne].
    + rewrite list_lookup_alter_eq, lookup_app_r, Nat.sub_diag by done.
      simpl. intros [= <-]. split; [done|]. split; [by constructor|by left].
    + rewrite list_lookup_alter_ne by done. intros Hsk.
      assert (s < length (sockets st))%nat as Hlt.
      { apply lookup_lt_Some in Hsk. rewrite length_app in Hsk.
        simpl in Hsk. lia. }
      rewrite lookup_app_l in Hsk by done.
      destruct (H s sk Hsk) as (Hw & Hf & Hc). split; [done|]. split; [done|].
      destruct Hc as [Hc|(reason & Hc & Ha & _ & Hr)]; [by left|].
      right. exists reason. repeat split; try done. intros [= E]. lia.
Qed.

Lemma well_used_connect ok st :
  sockets_well_used st -> sockets_well_used (connect ok st).2.
Proof.
  intros H%well_used_cancelled.
  destruct (busy (cancelled st)) eqn:B.
  - rewrite connect_busy by done.
    destruct (connectionPromise st); revert H; apply well_used_ext; eauto.
  - rewrite connect_idle by done. destruct ok; cbn [snd].
    + apply (well_used_opened (attempt (cancelled st))).
      revert H. apply well_used_ext; eauto.
    + revert H. apply well_used_ext; unfold refused; [left|]; by fields.
Qed.

Lemma well_used_disconnect reason st :
  sockets_well_used st -> sockets_well_used (final (disconnect reason st)).
Proof.
  intros H. pose proof (well_used_cancelled _ H) as Hc.
  destruct (cancelled_same_gate st) as (Hws & Hs & _).
  rewrite disconnect_eq. cbn zeta.
  destruct (ws st) as [s0|] eqn:E.
  - destruct (close_accepts reason) eqn:Ha; cbn [final].
    + destruct H as [Hb H]. split; [done|].
      intros s sk.
      change (sockets (emit _ _ _))
        with (alter (socket_close 1000 reason) s0 (sockets st)).
      destruct (decide (s = s0)) as [->|Hne].
      * rewrite list_lookup_alter_eq.
        destruct (sockets st !! s0) as [sk0|] eqn:Hsk0; [|done].
        simpl. intros [= <-].
        destruct (well_used_held st s0 sk0) as (Hw & Hf & Hcc);
          [by split|done|done|].
        split; [done|]. split; [done|]. right. exists reason.
        simpl. rewrite Hcc. repeat split; try done.
        destruct (readyState sk0); eauto.
      * rewrite list_lookup_alter_ne by done. intros Hsk.
        destruct (H s sk Hsk) as (Hw & Hf & Hcc).
        split; [done|]. split; [done|].
        destruct Hcc as [Hcc|(r & Hcc & Hr & _ & Hst)]; [by left|].
        right. exists r. by repeat split.
    + revert Hc. apply well_used_ext; eauto.
  - revert Hc. apply well_used_ext; eauto.
Qed.

Lemma await_sockets gate k st :
  ws (await gate k st) = ws st /\ sockets (await gate k st) = sockets st.
Proof. unfold await. by repeat case_match. Qed.

Lemma well_used_transmit command payload st :
  sockets_well_used st -> sockets_well_used (transmit command payload st).
Proof.
  intros H. destruct (isConnected st) eqn:Hc.
  - unfold isConnected in Hc.
    destruct (ws st) as [s|] eqn:Hws; [|done].
    apply bool_decide_eq_true in Hc. unfold state_of in Hc.
    destruct (sockets st !! s) as [sk|] eqn:Hsk; [|done].
    injection Hc as Hr.
    rewrite (transmit_open _ _ _ _ _ Hws Hsk Hr).
    destruct payload as [v|];
      [|revert H; apply well_used_ext; eauto].
    destruct (well_used_held st s sk H Hws Hsk) as (Hw & Hf & Hcc).
    destruct H as [Hb H]. split.
    + intros s'. simpl. rewrite length_insert. apply Hb.
    + intros s' sk'. simpl.
      destruct (decide (s' = s)) as [->|Hne].
      * rewrite list_lookup_insert_eq by (by eapply lookup_lt_Some).
        intros [= <-]. simpl. split; [done|]. split; [|by left].
        apply Forall_app. split; [done|]. constructor; [|done].
        by exists command, v.
      * rewrite list_lookup_insert_ne by done. apply H.
  - unfold transmit. rewrite Hc. revert H. apply well_used_ext; eauto.
Qed.

Lemma well_used_resume job st :
  sockets_well_used st -> sockets_well_used (resume job st).
Proof.
  intros H. destruct job as [k []]; unfold resume.
  - apply well_used_transmit. revert H. apply well_used_ext; eauto.
  - revert H. apply well_used_ext; eauto.
Qed.

Lemma well_used_drain st : sockets_well_used st -> sockets_well_used (drain st).
Proof.
  intros H. unfold drain.
  assert (sockets_well_used (set_jobs [] st)) as H'
    by (revert H; apply well_used_ext; eauto).
  revert H'. generalize (set_jobs [] st). generalize (jobs st).
  intros js. induction js as [|j js IH]; intros st1 H1; simpl; [done|].
  by apply IH, well_used_resume.
Qed.

Lemma well_used_sendCommand ok command payload st :
  sockets_well_used st ->
  sockets_well_used (sendCommand ok command payload st).
Proof.
  intros H. unfold sendCommand.
  destruct (negb (isConnected st)); [|by apply well_used_transmit].
  match goal with
  | |- sockets_well_used (await ?g ?k ?x) =>
      destruct (await_sockets g k x) as [Hws Hs];
      apply (well_used_ext x); [by left|done|]; clear Hws Hs
  end.
  assert (sockets_well_used (log Log_waiting st)) as H0
    by (revert H; apply well_used_ext; eauto).
  assert (sockets_well_used
            (connect ok (log Log_triggering (log Log_waiting st))).2) as H1.
  { apply well_used_connect. revert H; apply well_used_ext; eauto. }
  destruct (connectionPromise _); [|exact H1].
  destruct (match ws _ with Some _ => _ | None => _ end); [exact H1|exact H0].
Qed.

Lemma well_used_set_socket_state s r st :
  (r = OPEN -> state_of st s = Some CONNECTING) ->
  (r = CLOSING -> state_of st s = Some OPEN) -> r <> CONNECTING ->
  sockets_well_used st -> sockets_well_used (set_socket_state s r st).
Proof.
  intros Hopen Hclosing Hr [Hb H]. split.
  - intros s'. unfold set_socket_state; simpl. rewrite length_alter.
    apply Hb.
  - intros s' sk'. unfold set_socket_state; simpl.
    destruct (decide (s' = s)) as [->|Hne].
    + rewrite list_lookup_alter_eq.
      destruct (sockets st !! s) as [sk|] eqn:Hsk; [|done].
      simpl. intros [= <-].
      destruct (H s sk Hsk) as (Hw & Hf & Hc).
      split; [done|]. split; [done|].
      destruct Hc as [Hc|(reason & Hc & Ha & Hne & Hst)]; [by left|].
      right. exists reason. repeat split; try done. simpl.
      unfold state_of in Hopen, Hclosing. rewrite Hsk in Hopen, Hclosing.
      destruct r; [done| | |]; eauto.
      * specialize (Hopen eq_refl). destruct Hst; congruence.
    + rewrite list_lookup_alter_ne by done. apply H.
Qed.

Lemma well_used_step l st st' :
  sockets_well_used st -> step l st = Some st' -> sockets_well_used st'.
Proof.
  apply (step_invariant sockets_well_used).
  - apply well_used_connect.
  - apply well_used_disconnect.
  - apply well_used_sendCommand.
  - intros type fn ctx st0. unfold on. by case_match.
  - done.
  - apply well_used_drain.
  - intros s st0 Hs. by apply well_used_set_socket_state.
  - intros s st0 Hs. by apply well_used_set_socket_state.
  - intros s st0. by apply well_used_set_socket_state.
  - intros st0.
    apply well_used_ext; [left; apply onopen_ws|apply onopen_sockets].
  - intros data st0. unfold onmessage.
    repeat case_match; apply well_used_ext; eauto.
  - intros s st0. apply well_used_ext; [left|apply onerror_sockets].
    unfold onerror. case_match; by fields.
  - intros code st0.
    apply well_used_ext; [right; apply onclose_ws|apply onclose_sockets].
  - intros id st0. apply well_used_ext; eauto.
Qed.

Lemma reachable_well_used st : reachable st -> sockets_well_used st.
Proof.
  apply (reachable_invariant sockets_well_used).
  - split; [done|]. intros s sk Hsk.
    change (sockets initial) with (@nil Socket) in Hsk.
    by rewrite lookup_nil in Hsk.
  - intros l st0 st1. apply well_used_step.
Qed.

(** X8. Nothing but commands goes out. Every socket the service has
    created has its callbacks installed, and every frame ever written to
    one is the serialisation of an object [{command, payload}]. *)
Theorem only_commands_are_sent (st : State) (s : nat) (sk : Socket) :
  reachable st -> sockets st !! s = Some sk ->
  wired sk = true /\
  forall frame, frame ∈ sentFrames sk ->
    exists command payload,
      frame = JSON_stringify (OutgoingCommand command payload).
Proof.
  intros Hreach Hsk.
  destruct (reachable_well_used st Hreach) as [_ H].
  destruct (H s sk Hsk) as (Hw & Hf & _). split; [done|].
  intros frame Hin. rewrite Forall_forall in Hf. by apply Hf.
Qed.

(** X9. The service tells a socket to close at most once, with code 1000
    and a reason of at most 123 bytes, and only as it drops the handle:
    the socket it holds has never been told to close, and one that has
    been is closing or closed. *)
Theorem sockets_closed_once_normally (st : State) (s : nat) (sk : Socket) :
  reachable st -> sockets st !! s = Some sk ->
  (ws st = Some s -> closeCalls sk = []) /\
  (length (closeCalls sk) <= 1)%nat /\
  forall code reason, (code, reason) ∈ closeCalls sk ->
    code = 1000%Z /\ (String.length reason <= 123)%nat /\
    (readyState sk = CLOSING \/ readyState sk = CLOSED).
Proof.
  intros Hreach Hsk.
  destruct (reachable_well_used st Hreach) as [_ H].
  destruct (H s sk Hsk) as (_ & _ & [Hc|(r & Hc & Ha & Hne & Hst)]).
  - rewrite Hc. split; [done|]. split; [simpl; lia|].
    intros code reason Hin. by apply elem_of_nil in Hin.
  - rewrite Hc. split; [done|]. split; [simpl; lia|].
    intros code reason [= -> ->]%list_elem_of_singleton.
    split; [done|]. split; [|done].
    unfold close_accepts in Ha. by apply Nat.leb_le in Ha.
Qed.

(** ** A reason [close] refuses *)

(** X10. [disconnect] with a reason of more than 123 bytes, while a
    socket is held, throws out of [close]: the socket is not told to
    close, the handle stays and ['disconnected'] is not emitted, so the
    connection is as it was. But the timer is already cancelled and the
    counter already at the maximum. A closure that comes next schedules
    no reconnect; and when no socket was still connecting, so that no
    [onopen] can reset the counter, none is scheduled however much
    later the connection is lost, whatever the host does in between. *)
Theorem disconnect_with_refused_reason (reason : string) (st : State)
    (s : nat) :
  reachable st -> ws st = Some s -> close_accepts reason = false ->
  exists st1,
    disconnect reason st = Throws st1 /\
    ws st1 = Some s /\ sockets st1 = sockets st /\
    isConnected st1 = isConnected st /\ emitted st1 = emitted st /\
    pacing st1 = (∅, None, maxReconnectAttempts) /\
    (forall s' failed code st2,
       step (Socket_closes s' failed code) st1 = Some st2 ->
       pacing st2 = (∅, None, maxReconnectAttempts)) /\
    ((forall s', state_of st s' <> Some CONNECTING) ->
     forall trace st2,
       forallb unattended trace = true -> run trace st1 = Some st2 ->
       pacing st2 = (∅, None, maxReconnectAttempts)).
Proof.
  intros Hreach Hws Ha. rewrite disconnect_eq, Hws, Ha. cbn zeta.
  eexists. split; [reflexivity|].
  destruct (cancelled_same_gate st) as (Hws' & Hs & _).
  set (st1 := log _ _).
  assert (pacing st1 = (∅, None, maxReconnectAttempts)) as Hp.
  { pose proof (c_timers _ (reachable_consistent _ Hreach)) as Ht.
    apply timers_tracked_cancelled in Ht. unfold timers_tracked in Ht.
    rewrite cancelled_reconnectTimeoutId in Ht.
    unfold pacing, st1. simpl.
    by rewrite Ht, cancelled_reconnectTimeoutId. }
  assert (ws st1 = Some s) as Hws1 by (unfold st1; simpl; congruence).
  assert (sockets st1 = sockets st) as Hs1 by (by unfold st1; simpl).
  split; [done|]. split; [done|]. split.
  { unfold isConnected, state_of. by rewrite Hws1, Hws, Hs1. }
  split; [unfold st1; simpl; apply cancelled_emitted|]. split; [done|].
  split.
  - intros s' failed code st2 Hstep.
    destruct (step_closes_pacing _ _ _ _ _ Hstep) as (stx & Hx & ->).
    rewrite <- Hp, <- Hx. case_bool_decide; [|done].
    rewrite scheduleReconnect_exhausted; [done|].
    rewrite Hp in Hx. injection Hx as _ _ ->. done.
  - intros Hnone trace st2 Hu Hrun.
    assert (quiet st1) as Hq.
    { split; [exact Hp|]. intros x.
      rewrite (state_of_ext st st1 x Hs1). apply Hnone. }
    by destruct (quiet_run _ _ _ Hu Hq Hrun) as [Hp2 _].
Qed.

(** ** Frames and the connection *)

(** X11. Whatever the server sends, a frame only reaches the console
    and the subscribers: handling it writes nothing, closes nothing,
    settles no promise, wakes no waiting command and touches neither
    the counter nor the timer. *)
Theorem frames_leave_the_connection_alone (s : nat) (data : string)
    (st st' : State) :
  step (Socket_message s data) st = Some st' -> jobs st = [] ->
  same_connection st st' /\ sockets st' = sockets st /\
  reactions st' = reactions st /\ jobs st' = [] /\
  pacing st' = pacing st.
Proof.
  intros [_ ->]%step_message Hj. rewrite (drain_idle st) by done.
  assert (sockets (onmessage data st) = sockets st /\
          reactions (onmessage data st) = reactions st /\
          jobs (onmessage data st) = jobs st) as (Hs & Hr & Hj').
  { unfold onmessage. by repeat case_match. }
  rewrite drain_idle by congruence.
  pose proof (same_connection_onmessage data st) as Hsame.
  split; [done|]. split; [done|]. split; [done|]. split; [congruence|].
  by apply pacing_same.
Qed.

(** ** When [sendCommand] connects *)

Lemma held_not_closed_ext st st' :
  ws st' = ws st \/ ws st' = None ->
  (forall s, state_of st' s = state_of st s) ->
  held_not_closed st -> held_not_closed st'.
Proof.
  intros Hws Hs H s E. rewrite Hs. apply H.
  destruct Hws as [<-|E']; congruence.
Qed.

Lemma held_not_closed_same st st' :
  same_connection st st' -> held_not_closed st -> held_not_closed st'.
Proof.
  intros Hs. apply held_not_closed_ext;
    [left; apply (sc_ws _ _ Hs)|apply (sc_states _ _ Hs)].
Qed.

Lemma held_not_closed_connect ok st :
  held_not_closed st -> held_not_closed (connect ok st).2.
Proof.
  intros H. destruct (cancelled_same_gate st) as (Hws & Hs & _).
  assert (held_not_closed (cancelled st)) as Hc.
  { revert H. apply held_not_closed_ext; [by left|].
    intros s. by apply state_of_ext. }
  destruct (busy (cancelled st)) eqn:B.
  - rewrite connect_busy by done.
    destruct (connectionPromise st); revert Hc;
      by apply held_not_closed_ext; [left|].
  - rewrite connect_idle by done. destruct ok; cbn [snd].
    + intros s E Hclosed.
      assert (s = length (sockets (attempt (cancelled st)))) as ->
        by (by injection E).
      by rewrite state_of_opened in Hclosed.
    + revert Hc. apply held_not_closed_ext; [left|intros s];
        unfold refused; by fields.
Qed.

Lemma held_not_closed_sendCommand ok command payload st :
  held_not_closed st -> held_not_closed (sendCommand ok command payload st).
Proof.
  intros H. unfold sendCommand.
  destruct (negb (isConnected st)).
  - eapply held_not_closed_same; [apply same_connection_await|].
    destruct (connectionPromise _).
    + destruct (match ws _ with Some _ => _ | None => _ end); [|exact H].
      by apply (held_not_closed_connect ok
                  (log Log_triggering (log Log_waiting st))).
    + by apply (held_not_closed_connect ok
                  (log Log_triggering (log Log_waiting st))).
  - eapply held_not_closed_same; [apply same_connection_transmit|done].
Qed.

Lemma held_not_closed_step l st st' :
  held_not_closed st -> step l st = Some st' -> held_not_closed st'.
Proof.
  intros H Hstep. destruct l.
  - injection Hstep as <-. by apply held_not_closed_connect.
  - injection Hstep as <-. rewrite disconnect_eq. cbn zeta.
    destruct (cancelled_same_gate st) as (Hws & Hs & _).
    assert (held_not_closed (cancelled st)) as Hc.
    { revert H. apply held_not_closed_ext; [by left|].
      intros s. by apply state_of_ext. }
    destruct (ws st) as [s0|] eqn:E; [|exact Hc].
    destruct (close_accepts reason); [|exact Hc]. by intros s.
  - injection Hstep as <-. by apply held_not_closed_sendCommand.
  - injection Hstep as <-. unfold on. by case_match.
  - injection Hstep as <-. exact H.
  - injection Hstep as <-.
    exact (held_not_closed_same st _ (same_connection_drain st) H).
  - apply step_opens in Hstep as [_ ->].
    apply (held_not_closed_same _ _ (same_connection_drain _)).
    intros s' E. rewrite onopen_ws in E.
    rewrite (state_of_ext _ _ _ (onopen_sockets _)),
      state_of_set_socket_state.
    case_decide; [by destruct (state_of (drain st) s)|].
    by apply (held_not_closed_same st (drain st) (same_connection_drain st)).
  - apply step_message in Hstep as [_ ->].
    apply (held_not_closed_same st); [|done].
    apply (same_connection_trans _ _ _ (same_connection_drain st)
             (same_connection_trans _ _ _
                (same_connection_onmessage data (drain st))
                (same_connection_drain _))).
  - apply step_closing in Hstep as [_ ->].
    intros s' E. rewrite state_of_set_socket_state.
    case_decide; [by destruct (state_of (drain st) s)|].
    by apply (held_not_closed_same st (drain st) (same_connection_drain st)).
  - apply step_closes in Hstep as [_ ->]. intros s' E.
    by rewrite (sc_ws _ _ (same_connection_drain _)), onclose_ws in E.
  - apply step_fires in Hstep as [_ ->].
    apply (held_not_closed_same _ _ (same_connection_drain _)).
    apply held_not_closed_connect.
    by apply (held_not_closed_same st (drain st) (same_connection_drain st)).
Qed.

(** X16. [sendCommand] reads the state of the held socket to decide
    whether to connect, but between the turns of the event loop the held
    socket is never closed, so that test never succeeds: a call that
    finds the connection not open starts an attempt only if none was
    ever started. With a promise stored, whatever became of it, the call
    creates nothing and waits for that promise. *)
Theorem sendCommand_connects_only_the_first_time (ok : bool)
    (command : string) (payload : Payload) (st : State) (p : nat) :
  reachable st -> isConnected st = false -> connectionPromise st = Some p ->
  (forall s, ws st = Some s -> state_of st s <> Some CLOSED) /\
  sendCommand ok command payload st =
    await (Some p) (suspended (command, payload)) (log Log_waiting st) /\
  sockets (sendCommand ok command payload st) = sockets st /\
  promises (sendCommand ok command payload st) = promises st /\
  ws (sendCommand ok command payload st) = ws st.
Proof.
  intros Hreach Hc Hp.
  assert (held_not_closed st) as H.
  { apply (reachable_invariant held_not_closed); [by intros s| |done].
    intros l st0 st1. apply held_not_closed_step. }
  split; [exact H|].
  assert (sendCommand ok command payload st =
            await (Some p) (suspended (command, payload))
              (log Log_waiting st)) as ->.
  { unfold sendCommand. rewrite Hc. cbn [negb].
    rewrite log_connectionPromise, Hp, log_ws.
    destruct (ws st) as [s|] eqn:Hws; [|by rewrite log_connectionPromise, Hp].
    rewrite state_of_log, bool_decide_false by (by apply H).
    by rewrite log_connectionPromise, Hp. }
  split; [done|].
  destruct (await_sockets (Some p) (suspended (command, payload))
              (log Log_waiting st)) as [Hws Hs].
  rewrite Hws, Hs. split; [done|]. split; [|done].
  by rewrite (sc_promises _ _ (same_connection_await _ _ _)).
Qed.

(** ** A closure with code 1000 *)

Lemma dormant_ext st st' :
  pacing st' = pacing st -> (forall s, state_of st' s = state_of st s) ->
  dormant st -> dormant st'.
Proof.
  intros [= Ht Hid _] Hs (H1 & H2 & H3).
  split; [congruence|]. split; [congruence|].
  intros s sk Hsk. specialize (Hs s). unfold state_of in Hs.
  rewrite Hsk in Hs. destruct (sockets st !! s) as [sk0|] eqn:E; [|done].
  injection Hs as ->. by eapply H3.
Qed.

Lemma dormant_state st s :
  dormant st -> state_of st s = Some CLOSED \/ state_of st s = None.
Proof.
  intros (_ & _ & H). unfold state_of.
  destruct (sockets st !! s) as [sk|] eqn:E; [|by right].
  left. f_equal. by eapply H.
Qed.

Lemma dormant_step l st st' :
  unattended l = true -> dormant st -> step l st = Some st' ->
  dormant st' /\ length (sockets st') = length (sockets st).
Proof.
  intros Hl H Hstep. pose proof H as (Ht & Hid & Hs).
  destruct l; try done.
  - injection Hstep as <-. rewrite disconnect_eq.
    rewrite (cancelled_none st) by done. cbn zeta.
    destruct (ws st) as [s0|] eqn:E; [|by split].
    destruct (close_accepts reason); [|by split]. cbn [final]. split.
    + split; [done|]. split; [done|]. intros s sk.
      change (sockets (emit _ _ _))
        with (alter (socket_close 1000 reason) s0 (sockets st)).
      destruct (decide (s0 = s)) as [->|Hne].
      * rewrite list_lookup_alter_eq.
        destruct (sockets st !! s) as [sk0|] eqn:Hsk; [|done].
        simpl. intros [= <-]. simpl. by rewrite (Hs s sk0 Hsk).
      * rewrite list_lookup_alter_ne by done. apply Hs.
    + change (sockets (emit _ _ _))
        with (alter (socket_close 1000 reason) s0 (sockets st)).
      apply length_alter.
  - injection Hstep as <-. unfold on. by case_match.
  - by injection Hstep as <-.
  - injection Hstep as <-.
    pose proof (same_connection_drain st) as Hd. split.
    + revert H.
      apply dormant_ext; [by apply pacing_same|apply (sc_states _ _ Hd)].
    + apply (sc_count _ _ Hd).
  - apply step_opens in Hstep as [Hc _].
    destruct (dormant_state st s H); congruence.
  - apply step_message in Hstep as [Hc _].
    destruct (dormant_state st s H); congruence.
  - apply step_closing in Hstep as [Hc _].
    destruct (dormant_state st s H); congruence.
  - apply step_closes in Hstep as [(r & Hr & Hne) _].
    destruct (dormant_state st s H); congruence.
  - apply step_fires in Hstep as [[d Hd] _].
    by rewrite Ht, lookup_empty in Hd.
Qed.

Lemma dormant_run trace st st' :
  forallb unattended trace = true -> dormant st -> run trace st = Some st' ->
  dormant st' /\ length (sockets st') = length (sockets st).
Proof.
  revert st. induction trace as [|l trace IH]; cbn; intros st Hu H Hrun.
  - by injection Hrun as <-.
  - apply andb_true_iff in Hu as [Hl Hu].
    destruct (step l st) as [st1|] eqn:E; [|done].
    destruct (dormant_step _ _ _ Hl H E) as [H1 Hlen].
    destruct (IH st1 Hu H1 Hrun) as [H2 Hlen']. split; [done|congruence].
Qed.

(** X17. A closure with code 1000 is final, whoever closed: [onclose]
    schedules nothing, and when that socket was the last one alive and
    no timer was pending, the host has no callback left to run. Until
    the application calls [connect] or [sendCommand], the service
    creates no socket, sets no timer and stays disconnected. *)
Theorem normal_closure_is_final (s : nat) (failed : bool)
    (st st1 st2 : State) (trace : list Label) :
  timers st = ∅ -> reconnectTimeoutId st = None ->
  (forall s', s' <> s ->
     state_of st s' = Some CLOSED \/ state_of st s' = None) ->
  step (Socket_closes s failed 1000) st = Some st1 ->
  forallb unattended trace = true -> run trace st1 = Some st2 ->
  pacing st1 = pacing st /\
  length (sockets st2) = length (sockets st) /\
  timers st2 = ∅ /\ reconnectTimeoutId st2 = None /\
  isConnected st2 = false.
Proof.
  intros Ht Hid Hothers Hstep Hu Hrun.
  destruct (step_closes_pacing _ _ _ _ _ Hstep) as (stx & Hx & Hp).
  rewrite bool_decide_false in Hp by (by intros H).
  assert (pacing st1 = pacing st) as Hp1 by congruence.
  split; [done|].
  apply step_closes in Hstep as [_ ->]. cbn zeta in *.
  set (X := set_socket_state s CLOSED (drain st)) in *.
  set (A := if failed then drain (onerror s X) else X) in *.
  assert (forall x, state_of A x = state_of X x) as HA.
  { intros x. unfold A. destruct failed; [|done].
    by rewrite (sc_states _ _ (same_connection_drain _)),
      (state_of_ext _ _ _ (onerror_sockets _ _)). }
  assert (length (sockets A) = length (sockets st)) as HlA.
  { assert (length (sockets X) = length (sockets st)) as Hl.
    { unfold X, set_socket_state. simpl.
      by rewrite length_alter, (sc_count _ _ (same_connection_drain st)). }
    unfold A. destruct failed; [|done].
    by rewrite (sc_count _ _ (same_connection_drain _)), onerror_sockets. }
  set (st1 := drain (onclose 1000 A)) in *.
  assert (forall x, state_of st1 x = state_of X x) as Hstates.
  { intros x. unfold st1.
    by rewrite (sc_states _ _ (same_connection_drain _)),
      (state_of_ext _ _ _ (onclose_sockets _ _)), HA. }
  assert (forall x sk, sockets st1 !! x = Some sk -> readyState sk = CLOSED)
    as Hclosed.
  { intros x sk Hsk. specialize (Hstates x). unfold state_of at 1 in Hstates.
    rewrite Hsk in Hstates. unfold X in Hstates.
    rewrite state_of_set_socket_state in Hstates.
    rewrite !(sc_states _ _ (same_connection_drain st)) in Hstates.
    destruct (decide (s = x)) as [Hsx|Hsx].
    - destruct (state_of st s); [by injection Hstates|done].
    - destruct (Hothers x) as [E|E]; [congruence| |]; rewrite E in Hstates;
        [by injection Hstates|done]. }
  assert (dormant st1) as Hd.
  { injection Hp1 as Ht1 Hid1 _.
    split; [congruence|]. split; [congruence|done]. }
  destruct (dormant_run _ _ _ Hu Hd Hrun) as [(Ht2 & Hid2 & Hs2) Hlen].
  split.
  { rewrite Hlen. unfold st1.
    by rewrite (sc_count _ _ (same_connection_drain _)), onclose_sockets. }
  split; [done|]. split; [done|].
  unfold isConnected. destruct (ws st2) as [x|]; [|done].
  apply bool_decide_false. unfold state_of.
  destruct (sockets st2 !! x) as [sk|] eqn:E; [|done].
  by rewrite (Hs2 x sk E).
Qed.

End Further.

(** ** The further properties at work *)

Lemma connected_send_is_immediate_witness :
  let st' := sendCommand (rt := Reference.runtime) true "PROCESS_INPUT"
               (input "look") connected in
  map sentFrames (sockets st') =
    [[Reference.stringify
        (OutgoingCommand "PROCESS_INPUT"
           (JObject [("inputText", JString "look")]))]] /\
  emitted st' = emitted connected.
Proof.
  intros st'.
  destruct (connected_send_is_immediate (rt := Reference.runtime) true
              "PROCESS_INPUT" (input "look") connected 0
              {| readyState := OPEN; wired := true; closeCalls := [];
                 sentFrames := [] |})
    as (_ & _ & _ & _ & Hs & He & _); [reflexivity..|].
  split; [|exact He]. unfold st'. rewrite Hs. reflexivity.
Defined.



Lemma constructor_failure_witness :
  let st' := (connect false initial).2 in
  promises st' = [Rejected ConstructorError] /\
  reconnectAttempts st' = 1%nat /\
  timers st' !! 1%positive = Some (delay 1).
Proof.
  intros st'.
  destruct (constructor_failure initial)
    as (_ & Hp & _ & _ & _ & _ & _ & H); [reflexivity|].
  rewrite decide_True in H by (vm_compute; lia).
  destruct H as (Hn & _ & Ht). by split.
Defined.

Lemma sendCommand_when_constructor_throws_witness :
  map em_event
    (emitted (drain (rt := Reference.runtime)
                (sendCommand (rt := Reference.runtime) false "PROCESS_INPUT"
                   (input "look") initial)))
  = ["disconnected"; "error"].
Proof.
  destruct (sendCommand_when_constructor_throws (rt := Reference.runtime)
              "PROCESS_INPUT" (input "look") initial)
    as (He & _); [reflexivity..|].
  rewrite He. reflexivity.
Defined.

Lemma reconnect_delay_below_cap_witness :
  exists st,
    run (rt := Reference.runtime)
      [Call_connect true; Socket_closes 0 true 1006] initial = Some st /\
    timers st !! 1%positive = Some (delay 1) /\ (delay 1 < 30000)%Q.
Proof.
  destruct (run (rt := Reference.runtime)
              [Call_connect true; Socket_closes 0 true 1006] initial)
    as [st|] eqn:E; [|by vm_compute in E].
  exists st. split; [done|].
  assert (timers st !! 1%positive = Some (delay 1)) as Ht
    by (vm_compute in E; by injection E as <-).
  split; [done|].
  destruct (reconnect_delay_below_cap (rt := Reference.runtime) st 1 (delay 1))
    as (_ & _ & _ & H); [|done|done].
  by apply (reachable_run _ initial _ (reachable_initial) E).
Defined.

Lemma replaced_promise_never_settles_witness :
  exists st st',
    run (rt := Reference.runtime)
      [Call_connect true; Call_disconnect "x"; Call_connect true] initial
      = Some st /\
    run (rt := Reference.runtime)
      [Socket_closes 0 true 1006; Socket_opens 1] st = Some st' /\
    connectionPromise st = Some 1%nat /\
    promises st' !! 0%nat = Some Pending.
Proof.
  destruct (run (rt := Reference.runtime)
              [Call_connect true; Call_disconnect "x"; Call_connect true]
              initial) as [st|] eqn:E; [|by vm_compute in E].
  destruct (run (rt := Reference.runtime)
              [Socket_closes 0 true 1006; Socket_opens 1] st)
    as [st'|] eqn:E'.
  2: { vm_compute in E. injection E as <-. by vm_compute in E'. }
  exists st, st'. split; [done|]. split; [done|].
  assert (connectionPromise st = Some 1%nat /\
          promises st !! 0%nat = Some Pending /\
          (0 < length (promises st))%nat) as (Hp & H0 & Hl).
  { vm_compute in E. injection E as <-. vm_compute. split; [done|].
    split; [done|]. lia. }
  split; [done|].
  destruct (replaced_promise_never_settles (rt := Reference.runtime)
              st st' [Socket_closes 0 true 1006; Socket_opens 1] 0)
    as (H & _); [|done|done| |congruence].
  - by apply (reachable_run _ initial _ (reachable_initial) E).
  - by rewrite Hp.
Defined.

Lemma only_commands_are_sent_witness :
  exists st sk,
    run (rt := Reference.runtime)
      [Call_connect true; Socket_opens 0; look] initial = Some st /\
    sockets st !! 0%nat = Some sk /\ length (sentFrames sk) = 1%nat /\
    forall frame, frame ∈ sentFrames sk ->
      exists command payload,
        frame = Reference.stringify (OutgoingCommand command payload).
Proof.
  destruct (run (rt := Reference.runtime)
              [Call_connect true; Socket_opens 0; look] initial)
    as [st|] eqn:E; [|by vm_compute in E].
  destruct (sockets st !! 0%nat) as [sk|] eqn:Hsk.
  2: { vm_compute in E. injection E as <-. by vm_compute in Hsk. }
  exists st, sk. split; [done|]. split; [done|]. split.
  { vm_compute in E. injection E as <-. vm_compute in Hsk.
    by injection Hsk as <-. }
  apply (only_commands_are_sent (rt := Reference.runtime) st 0 sk); [|done].
  by apply (reachable_run _ initial _ (reachable_initial) E).
Defined.

Lemma sockets_closed_once_normally_witness :
  exists st sk,
    run (rt := Reference.runtime)
      [Call_connect true; Socket_opens 0; Call_disconnect "bye"] initial
      = Some st /\
    sockets st !! 0%nat = Some sk /\ closeCalls sk = [(1000%Z, "bye")] /\
    (readyState sk = CLOSING \/ readyState sk = CLOSED).
Proof.
  destruct (run (rt := Reference.runtime)
              [Call_connect true; Socket_opens 0; Call_disconnect "bye"]
              initial) as [st|] eqn:E; [|by vm_compute in E].
  destruct (sockets st !! 0%nat) as [sk|] eqn:Hsk.
  2: { vm_compute in E. injection E as <-. by vm_compute in Hsk. }
  exists st, sk. split; [done|]. split; [done|].
  assert (closeCalls sk = [(1000%Z, "bye")]) as Hc.
  { vm_compute in E. injection E as <-. vm_compute in Hsk.
    by injection Hsk as <-. }
  split; [done|].
  destruct (sockets_closed_once_normally (rt := Reference.runtime) st 0 sk)
    as (_ & _ & H); [|done|].
  - by apply (reachable_run _ initial _ (reachable_initial) E).
  - apply (H 1000%Z "bye"). rewrite Hc. by apply list_elem_of_singleton.
Defined.

Lemma disconnect_with_refused_reason_witness :
  exists st1 st2,
    disconnect long_reason connected = Throws st1 /\
    isConnected st1 = true /\ reconnectAttempts st1 = maxReconnectAttempts /\
    run (rt := Reference.runtime)
      [Socket_message 0 Reference.description_frame; Tick;
       Socket_closes 0 true 1006] st1 = Some st2 /\
    isConnected st2 = false /\
    pacing st2 = (∅, None, maxReconnectAttempts).
Proof.
  destruct (disconnect_with_refused_reason (rt := Reference.runtime)
              long_reason connected 0)
    as (st1 & Hd & _ & _ & Hc & _ & Hp & _ & Hlater);
    [|reflexivity|reflexivity|].
  - apply (reachable_run (rt := Reference.runtime)
             [Call_connect true; Socket_opens 0] initial);
      [constructor|reflexivity].
  - destruct (run (rt := Reference.runtime)
                [Socket_message 0 Reference.description_frame; Tick;
                 Socket_closes 0 true 1006] st1) as [st2|] eqn:E.
    2: { vm_compute in Hd. injection Hd as <-. by vm_compute in E. }
    exists st1, st2. split; [done|]. split; [by rewrite Hc|].
    split; [by injection Hp|]. split; [done|]. split.
    + vm_compute in Hd. injection Hd as <-. vm_compute in E.
      by injection E as <-.
    + apply (Hlater ltac:(by intros [|s'])
               [Socket_message 0 Reference.description_frame; Tick;
                Socket_closes 0 true 1006] st2); [reflexivity|done].
Defined.

Lemma frames_leave_the_connection_alone_witness :
  exists st',
    step (rt := Reference.runtime)
      (Socket_message 0 Reference.description_frame) connected = Some st' /\
    sockets st' = sockets connected /\ pacing st' = pacing connected.
Proof.
  destruct (step (rt := Reference.runtime)
              (Socket_message 0 Reference.description_frame) connected)
    as [st'|] eqn:E; [|by vm_compute in E].
  exists st'. split; [done|].
  destruct (frames_leave_the_connection_alone (rt := Reference.runtime)
              0 Reference.description_frame connected st')
    as (_ & Hs & _ & _ & Hp); [done|reflexivity|]. by split.
Defined.

Lemma sendCommand_connects_only_the_first_time_witness :
  exists st,
    run (rt := Reference.runtime)
      [Call_connect true; Socket_opens 0; Socket_closing 0] initial
      = Some st /\
    state_of st 0 = Some CLOSING /\
    sockets (sendCommand (rt := Reference.runtime) true "PROCESS_INPUT"
               (input "look") st) = sockets st.
Proof.
  destruct (run (rt := Reference.runtime)
              [Call_connect true; Socket_opens 0; Socket_closing 0] initial)
    as [st|] eqn:E; [|by vm_compute in E].
  exists st. split; [done|].
  assert (state_of st 0 = Some CLOSING /\ isConnected st = false /\
          connectionPromise st = Some 0%nat) as (Hs & Hc & Hp)
    by (vm_compute in E; by injection E as <-).
  split; [done|].
  destruct (sendCommand_connects_only_the_first_time
              (rt := Reference.runtime) true "PROCESS_INPUT" (input "look")
              st 0) as (_ & _ & H & _); [|done|done|done].
  by apply (reachable_run _ initial _ (reachable_initial) E).
Defined.

Lemma normal_closure_is_final_witness :
  exists st1 st2,
    step (rt := Reference.runtime) (Socket_closes 0 false 1000) connected
      = Some st1 /\
    run (rt := Reference.runtime) [Tick; Call_disconnect "x"; Tick] st1
      = Some st2 /\
    length (sockets st2) = 1%nat /\ timers st2 = ∅ /\
    isConnected st2 = false.
Proof.
  destruct (step (rt := Reference.runtime) (Socket_closes 0 false 1000)
              connected) as [st1|] eqn:E; [|by vm_compute in E].
  destruct (run (rt := Reference.runtime)
              [Tick; Call_disconnect "x"; Tick] st1) as [st2|] eqn:E'.
  2: { vm_compute in E. injection E as <-. by vm_compute in E'. }
  exists st1, st2. split; [done|]. split; [done|].
  destruct (normal_closure_is_final (rt := Reference.runtime) 0 false
              connected st1 st2 [Tick; Call_disconnect "x"; Tick])
    as (_ & Hl & Ht & _ & Hc);
    [reflexivity|reflexivity| |done|reflexivity|done|].
  - intros [|s'] Hs'; [done|]. by right.
  - by split.
Defined.

(** * Properties of the game scene *)

(** ** Splitting a line into words *)

Lemma split_nonempty text : split text <> [].
Proof.
  destruct text as [|c rest]; simpl; [done|].
  destruct (Ascii.eqb c " "); [done|]. by destruct (split rest).
Qed.

Lemma split_app (a b : string) :
  split (a ++ String " " b) = split a ++ split b.
Proof.
  induction a as [|c a IH]; simpl; [done|].
  destruct (Ascii.eqb c " "); [by rewrite IH|].
  rewrite IH. pose proof (split_nonempty a) as Ha.
  by destruct (split a).
Qed.

(** A piece of [split] contains no space: splitting it again leaves it
    whole. *)
Lemma split_pieces text : Forall (fun w => split w = [w]) (split text).
Proof.
  induction text as [|c rest IH]; simpl.
  - by repeat constructor.
  - destruct (Ascii.eqb c " ") eqn:E; [by constructor|].
    pose proof (split_nonempty rest) as Hr.
    destruct (split rest) as [|w ws]; [done|].
    inversion IH as [|? ? Hw Hws]; subst. constructor; [|done].
    simpl. by rewrite E, Hw.
Qed.

Lemma split_join (ws : list string) :
  ws <> [] -> Forall (fun w => split w = [w]) ws -> split (join ws) = ws.
Proof.
  induction ws as [|w ws IH]; [done|]. intros _ Hall.
  inversion Hall as [|? ? Hw Hws]; subst.
  destruct ws as [|w' ws]; [done|].
  change (join (w :: w' :: ws)) with (w ++ String " " (join (w' :: ws)))%string.
  by rewrite split_app, Hw, IH.
Qed.

Lemma nonempty_words (ws : list string) :
  Forall (fun w => w <> EmptyString) ws -> nonempty ws = ws.
Proof.
  induction 1 as [|w ws Hw _ IH]; [done|].
  unfold nonempty in *. by rewrite filter_cons_True, IH.
Qed.

Lemma nonempty_gap (a b : string) (n : nat) :
  nonempty (split (a ++ spaces (S n) ++ b))
  = nonempty (split a) ++ nonempty (split b).
Proof.
  change (a ++ spaces (S n) ++ b)%string
    with (a ++ String " " (spaces n ++ b))%string.
  rewrite split_app. unfold nonempty. rewrite filter_app. f_equal.
  induction n as [|n IH]; [done|].
  change (split (spaces (S n) ++ b))
    with (EmptyString :: split (spaces n ++ b)).
  by rewrite filter_cons_False by (by intros H).
Qed.

Ltac subscribed :=
  unfold subscriptions;
  repeat first [apply list_elem_of_here | apply list_elem_of_further].

Ltac distinct :=
  cbn [app]; rewrite ?not_elem_of_cons; repeat split; try done;
  apply not_elem_of_nil.

Section SceneProperties.

Context `{rt : Runtime} `{br : Browser}.

(** The words of a line are not empty and contain no space, and the
    noun is the words after the verb joined by single spaces: splitting
    the noun gives those words back. *)
Lemma words_spaceless (text : string) :
  Forall (fun w => w <> EmptyString /\ split w = [w]) (words text) /\
  nonempty (split (noun text)) = tail (words text) /\
  (words text <> [] -> words text = verb text :: tail (words text)).
Proof.
  assert (Forall (fun w => w <> EmptyString /\ split w = [w]) (words text))
    as Hall.
  { unfold words, nonempty. apply Forall_forall. intros w Hw.
    apply list_elem_of_filter in Hw as [Hne Hin]. split; [done|].
    pose proof (split_pieces (toLowerCase text)) as Hp.
    rewrite Forall_forall in Hp. by apply Hp. }
  split; [done|]. split.
  - unfold noun, verb. destruct (words text) as [|v ws]; [done|].
    inversion Hall as [|? ? _ Hws]; subst. simpl.
    destruct ws as [|w ws]; [done|].
    rewrite split_join; [|done|by eapply Forall_impl; [exact Hws|intros ? []]].
    apply nonempty_words. by eapply Forall_impl; [exact Hws|intros ? []].
  - unfold verb. by destruct (words text).
Qed.

(** X12. How many spaces the player types between two words does not
    change how the line is read. Take a line with a gap of one or more
    spaces between a part [a] and a part [b], and the same line with a
    gap of another width, both lower-cased part by part with the gap
    left alone, as [String.prototype.toLowerCase] does. Both lines have
    the words of [a] followed by the words of [b], hence the same verb,
    the same noun and the same answer to whether they are a movement;
    and the noun, split again, gives the words after the verb. *)
Theorem spacing_between_words_is_insignificant (a b : string) (n m : nat) :
  let wide := (a ++ spaces (S n) ++ b)%string in
  let other := (a ++ spaces (S m) ++ b)%string in
  toLowerCase wide
  = (toLowerCase a ++ spaces (S n) ++ toLowerCase b)%string ->
  toLowerCase other
  = (toLowerCase a ++ spaces (S m) ++ toLowerCase b)%string ->
  words wide = words a ++ words b /\
  words other = words wide /\
  verb other = verb wide /\ noun other = noun wide /\
  moves other = moves wide /\
  (forall from, target (noun other) from = target (noun wide) from) /\
  Forall (fun w => w <> EmptyString /\ split w = [w]) (words wide) /\
  nonempty (split (noun wide)) = tail (words wide).
Proof.
  intros wide other Hwide Hother.
  assert (words wide = words a ++ words b) as Hw
    by (unfold words; by rewrite Hwide, nonempty_gap).
  assert (words other = words wide) as Ho
    by (rewrite Hw; unfold words; by rewrite Hother, nonempty_gap).
  assert (verb other = verb wide) as Hv by (unfold verb; by rewrite Ho).
  assert (noun other = noun wide) as Hn by (unfold noun; by rewrite Ho).
  split; [done|]. split; [done|]. split; [done|]. split; [done|].
  split; [unfold moves; by rewrite Hv|].
  split; [intros from; by rewrite Hn|].
  by destruct (words_spaceless wide) as (H1 & H2 & _).
Qed.

(** ** From a line to a frame *)

(** X13. With the connection open, a line the player enters has one of
    two fates. A movement whose noun is no direction is answered on the
    spot and the service is not called. Every other line, a movement
    with a direction included, goes out at once as one [PROCESS_INPUT]
    frame that carries the text as it was typed, not the lower-cased
    words. *)
Theorem typed_line_is_sent_as_typed (ok : bool) (text : string) (sc : Scene)
    (st : State) (s : nat) (sk : Socket) :
  ws st = Some s -> sockets st !! s = Some sk -> readyState sk = OPEN ->
  text <> EmptyString ->
  let sc' := (parseAndSendCommand ok text (sc, st)).1 in
  let st' := (parseAndSendCommand ok text (sc, st)).2 in
  processed sc' = processed sc ++ [text] /\
  match (if moves text then target (noun text) (player sc)
         else Some (player sc)) with
  | None =>
      st' = st /\
      descriptionText sc' = "Go where? (Try north, south, east, west)" /\
      requests sc' = requests sc ++ [StopPlayerMovement]
  | Some (x, y) =>
      sockets st' =
        <[s := {| readyState := OPEN; wired := wired sk;
                  closeCalls := closeCalls sk;
                  sentFrames := sentFrames sk ++
                    [JSON_stringify
                       (OutgoingCommand "PROCESS_INPUT"
                          (JObject [("inputText", JString text)]))] |}]>
          (sockets st) /\
      emitted st' = emitted st /\ same_connection st st' /\
      descriptionText sc' = ("> " ++ text)%string /\
      requests sc' =
        requests sc ++ StopPlayerMovement ::
          (if moves text then [MovePlayerTo x y] else [])
  end.
Proof.
  intros Hws Hsk Hr Htext sc' st'. subst sc' st'.
  assert (isConnected st = true) as Hc.
  { unfold isConnected, state_of. rewrite Hws, Hsk, Hr.
    by apply bool_decide_true. }
  assert (sendCommand ok "PROCESS_INPUT" (input text) st
          = transmit "PROCESS_INPUT" (input text) st) as Hsend
    by (unfold sendCommand; by rewrite Hc).
  pose proof (transmit_open "PROCESS_INPUT" (input text) st s sk Hws Hsk Hr)
    as Ht.
  pose proof (same_connection_transmit "PROCESS_INPUT" (input text) st)
    as Hsame.
  unfold parseAndSendCommand. rewrite bool_decide_true by done.
  rewrite Hsend, Ht in *.
  destruct (moves text).
  - cbn [player request setText log_processing].
    destruct (target (noun text) (player sc)) as [[x y]|]; cbn;
      rewrite <- ?app_assoc; [|done].
    do 3 (split; [done|]). split; [exact Hsame|done].
  - destruct (player sc) as [x y] eqn:Ep. cbn.
    do 3 (split; [done|]). split; [exact Hsame|done].
Qed.

(** ** The key handler *)

(** X14. A key other than Enter, or Enter on a blank field, changes
    nothing and calls nobody. Enter on anything else hands the trimmed
    text to the parser and clears the field; the parser is never given
    an empty line, so its prompt [">"] is never shown. *)
Theorem keydown_parses_nonblank_lines (ok : bool) (key : string)
    (sc : Scene) (st : State) :
  let line := trim (parserInput sc) in
  let sc' := (onkeydown ok key (sc, st)).1 in
  let st' := (onkeydown ok key (sc, st)).2 in
  if bool_decide (key = "Enter" /\ line <> EmptyString) then
    parserInput sc' = EmptyString /\
    processed sc' = processed sc ++ [line] /\
    st' = (parseAndSendCommand ok line (sc, st)).2 /\
    descriptionText sc'
    = descriptionText (parseAndSendCommand ok line (sc, st)).1 /\
    descriptionText sc' <> ">"
  else sc' = sc /\ st' = st.
Proof.
  intros line sc' st'. subst sc' st'. unfold onkeydown.
  destruct (String.eqb_spec key "Enter") as [->|Hkey].
  - cbn [fst]. fold line. destruct (decide (line = EmptyString)) as [E|E].
    + rewrite (bool_decide_false (line <> EmptyString)) by (by intros H).
      rewrite bool_decide_false by (by intros [_ H]). done.
    + rewrite (bool_decide_true (line <> EmptyString)) by done.
      rewrite bool_decide_true by done.
      destruct (parseAndSendCommand ok line (sc, st)) as [sc1 st1] eqn:Ep.
      cbn [fst snd set_parserInput parserInput processed descriptionText].
      assert (processed sc1 = processed sc ++ [line] /\
              descriptionText sc1 <> ">") as [H1 H2]; [|done].
      revert Ep. unfold parseAndSendCommand.
      rewrite bool_decide_true by done.
      destruct (moves line).
      * cbn [player request setText log_processing].
        destruct (target (noun line) (player sc)) as [[x y]|];
          intros [= <- _]; by cbn.
      * intros [= <- _]. by cbn.
  - rewrite bool_decide_false by (by intros [H _]). done.
Qed.

(** ** Subscribing and unsubscribing *)

Lemma off_listeners type fn ctx st :
  listeners (off type fn ctx st)
  = filter (fun l => l <> {| l_type := type; l_fn := fn; l_ctx := ctx |})
      (listeners st).
Proof. reflexivity. Qed.

Lemma shutdown_listeners this sc st :
  listeners (shutdown this (sc, st)).2
  = filter (fun l => l ∉ subscriptions this) (listeners st).
Proof.
  unfold shutdown. cbn [fst snd]. rewrite !off_listeners.
  induction (listeners st) as [|l ls IH]; [done|].
  destruct (decide (l ∈ subscriptions this)) as [Hin|Hout].
  - rewrite (filter_cons_False (fun l => l ∉ subscriptions this))
      by (by intros H). rewrite <- IH. clear IH.
    unfold subscriptions in Hin.
    repeat (apply elem_of_cons in Hin as [->|Hin]);
      [| | | |by apply elem_of_nil in Hin];
      repeat first [ rewrite filter_cons_False by (by intros H)
                   | rewrite filter_cons_True by done ];
      done.
  - rewrite (filter_cons_True (fun l => l ∉ subscriptions this)) by done.
    rewrite <- IH. clear IH.
    unfold subscriptions in Hout. rewrite !not_elem_of_cons in Hout.
    destruct Hout as (H1 & H2 & H3 & H4 & _).
    by rewrite !filter_cons_True by done.
Qed.

Lemma filter_all {A} (P : A -> Prop) `{forall x, Decision (P x)}
    (xs : list A) :
  (forall x, x ∈ xs -> P x) -> filter P xs = xs.
Proof.
  induction xs as [|x xs IH]; intros Hall; [done|].
  rewrite filter_cons_True by (apply Hall; left).
  f_equal. apply IH. intros y Hy. apply Hall. by right.
Qed.

Lemma on_new type fn ctx st :
  {| l_type := type; l_fn := fn; l_ctx := ctx |} ∉ listeners st ->
  on type fn ctx st
  = set_listeners
      (listeners st ++ [{| l_type := type; l_fn := fn; l_ctx := ctx |}]) st.
Proof. intros H. unfold on. by rewrite bool_decide_false. Qed.

Lemma create_new this sc st :
  (forall l, l ∈ subscriptions this -> l ∉ listeners st) ->
  create true this (sc, st)
  = ((sc, set_listeners (listeners st ++ subscriptions this) st), true).
Proof.
  intros Hnew. unfold create. cbn [fst snd].
  assert (forall l (ls : list Listener), l ∈ subscriptions this ->
            l ∉ ls -> l ∉ listeners st ++ ls) as Hout.
  { intros l ls Hl Hls. apply not_elem_of_app. split; [by apply Hnew|done]. }
  rewrite (on_new "description") by (apply Hnew; subscribed).
  rewrite (on_new "error")
    by (simpl; apply Hout; [subscribed|by distinct]).
  rewrite (on_new "dialogue")
    by (simpl; rewrite <- app_assoc; apply Hout; [subscribed|by distinct]).
  rewrite (on_new "scene_change")
    by (simpl; rewrite <- !app_assoc; apply Hout; [subscribed|by distinct]).
  simpl. by rewrite <- !app_assoc.
Qed.

(** X15. When the page has the input field, [create] subscribes the
    scene's four handlers and installs the SHUTDOWN listener, which
    removes exactly those four and stops the player. When the field is
    missing, [create] returns before that: nothing is subscribed, so no
    event of the service ever reaches the scene, and nothing is
    installed. Either way, on a service that did not know the handlers,
    the scene shutting down after [create] gives back the service as it
    was. While subscribed each handler is called once for an event of
    its type; once the listener has run, no event calls any of them. *)
Theorem shutdown_undoes_create (found : bool) (this : nat) (sc : Scene)
    (st : State) :
  NoDup (listeners st) ->
  (forall l, l ∈ subscriptions this -> l ∉ listeners st) ->
  let created := create found this (sc, st) in
  listeners created.1.2
  = listeners st ++ (if found then subscriptions this else []) /\
  created.1.1 = sc /\ created.2 = found /\
  SHUTDOWN this created
  = (if found then request StopPlayerMovement sc else sc, st) /\
  forall l arg connected, l ∈ subscriptions this ->
    times_called l
      (calls (l_type l) arg connected (listeners created.1.2))
    = (if found then 1%nat else 0%nat) /\
    forall game type,
      times_called l
        (calls type arg connected (listeners (shutdown this game).2))
      = 0%nat.
Proof.
  intros Hnd Hnew created. subst created.
  assert (forall l arg connected game type, l ∈ subscriptions this ->
            times_called l
              (calls type arg connected (listeners (shutdown this game).2))
            = 0%nat) as Hafter.
  { intros l arg connected [sc1 st1] type Hl.
    rewrite times_called_calls_count.
    rewrite filter_none; [done|].
    intros x Hx [-> _]. rewrite shutdown_listeners in Hx.
    by apply list_elem_of_filter in Hx as [Hx _]. }
  destruct found.
  - rewrite create_new by done. cbn [fst snd]. unfold SHUTDOWN. cbn [fst snd].
    assert (NoDup (subscriptions this)) as Hsubs.
    { unfold subscriptions.
      repeat (apply NoDup_cons; split; [by distinct|]). apply NoDup_nil_2. }
    split; [done|]. split; [done|]. split; [done|].
    split; [|intros l arg connected Hl; split; [|by intros; apply Hafter]].
    + set (st1 := set_listeners (listeners st ++ subscriptions this) st).
      assert (listeners (shutdown this (sc, st1)).2 = listeners st) as Hl.
      { rewrite shutdown_listeners. simpl. rewrite filter_app.
        rewrite (filter_none _ (subscriptions this)) by (by intros x Hx H).
        rewrite app_nil_r. apply filter_all.
        intros x Hx Hin. by apply (Hnew x). }
      transitivity
        (request StopPlayerMovement sc,
         set_listeners (listeners (shutdown this (sc, st1)).2) st);
        [reflexivity|by rewrite Hl].
    + apply times_called_once.
      * simpl. apply NoDup_app. split; [done|]. split; [|done].
        intros x Hx Hin. by apply (Hnew x).
      * simpl. apply elem_of_app. by right.
  - unfold create, SHUTDOWN. cbn [fst snd]. rewrite app_nil_r.
    split; [done|]. split; [done|]. split; [done|]. split; [done|].
    intros l arg connected Hl. split; [|by intros; apply Hafter].
    rewrite times_called_calls_count.
    rewrite filter_none; [done|].
    intros x Hx [-> _]. by apply (Hnew l).
Qed.

End SceneProperties.

(** ** The scene at work *)

Lemma typed_line_is_sent_as_typed_witness :
  let game := parseAndSendCommand (rt := Reference.runtime)
                (br := ReferenceBrowser.browser) true "Go  North"
                (ReferenceBrowser.scene, connected) in
  map sentFrames (sockets game.2) =
    [[Reference.stringify
        (OutgoingCommand "PROCESS_INPUT"
           (JObject [("inputText", JString "Go  North")]))]] /\
  requests game.1 =
    [StopPlayerMovement;
     MovePlayerTo (br := ReferenceBrowser.browser) 400%Z 380%Z] /\
  (parseAndSendCommand (rt := Reference.runtime)
     (br := ReferenceBrowser.browser) true "walk away"
     (ReferenceBrowser.scene, connected)).2 = connected.
Proof.
  intros game.
  pose proof (typed_line_is_sent_as_typed (rt := Reference.runtime)
                (br := ReferenceBrowser.browser) true "Go  North"
                ReferenceBrowser.scene connected 0
                {| readyState := OPEN; wired := true; closeCalls := [];
                   sentFrames := [] |}
                eq_refl eq_refl eq_refl ltac:(done)) as [_ H].
  pose proof (typed_line_is_sent_as_typed (rt := Reference.runtime)
                (br := ReferenceBrowser.browser) true "walk away"
                ReferenceBrowser.scene connected 0
                {| readyState := OPEN; wired := true; closeCalls := [];
                   sentFrames := [] |}
                eq_refl eq_refl eq_refl ltac:(done)) as [_ H'].
  vm_compute in H, H'. destruct H as (Hs & _ & _ & _ & Hr).
  destruct H' as (Hst & _).
  split; [|split; [exact Hr|exact Hst]].
  unfold game. by vm_compute.
Defined.

Lemma shutdown_undoes_create_witness :
  let l := {| l_type := "error"; l_fn := handleError; l_ctx := 7 |} in
  let game := (ReferenceBrowser.scene, initial) in
  (SHUTDOWN 7 (create true 7 game)).2 = initial /\
  SHUTDOWN 7 (create false 7 game) = game /\
  times_called l
    (calls "error" (ErrorMessage "Failed to send command via WebSocket.")
       true (listeners (create true 7 game).1.2)) = 1%nat /\
  times_called l
    (calls "error" (ErrorMessage "Failed to send command via WebSocket.")
       true (listeners (create false 7 game).1.2)) = 0%nat.
Proof.
  intros l game.
  assert (forall x : Listener, x ∈ subscriptions 7 -> x ∉ listeners initial)
    as Hnew by (intros x _; apply not_elem_of_nil).
  destruct (shutdown_undoes_create (br := ReferenceBrowser.browser) true 7
              ReferenceBrowser.scene initial NoDup_nil_2 Hnew)
    as (_ & _ & _ & H & Hl).
  destruct (shutdown_undoes_create (br := ReferenceBrowser.browser) false 7
              ReferenceBrowser.scene initial NoDup_nil_2 Hnew)
    as (_ & _ & _ & H' & Hl').
  split; [unfold game; by rewrite H|]. split; [exact H'|]. split.
  - apply (Hl l (ErrorMessage "Failed to send command via WebSocket.") true).
    subscribed.
  - apply (Hl' l (ErrorMessage "Failed to send command via WebSocket.") true).
    subscribed.
Defined.

Lemma spacing_between_words_is_insignificant_witness :
  words (br := ReferenceBrowser.browser) "Go   North" = ["go"; "north"] /\
  words (br := ReferenceBrowser.browser) "Go North"
  = words (br := ReferenceBrowser.browser) "Go   North" /\
  noun (br := ReferenceBrowser.browser) "Go North"
  = noun (br := ReferenceBrowser.browser) "Go   North" /\
  moves (br := ReferenceBrowser.browser) "Go North" = true.
Proof.
  destruct (spacing_between_words_is_insignificant
              (br := ReferenceBrowser.browser) "Go" "North" 2 0
              eq_refl eq_refl) as (Hw & Ho & _ & Hn & Hm & _).
  split; [exact Hw|]. split; [exact Ho|]. split; [exact Hn|].
  transitivity (moves (br := ReferenceBrowser.browser) "Go   North");
    [exact Hm|reflexivity].
Defined.
